(** * GEGPUPathtracer: the path-tracing integrator of PT.hlsl

    A shallow embedding of the HLSL ray-tracing shaders ([RayGeneration],
    [Miss], [ClosestHit] and their helpers) and of the frame loop of
    [WinMain], followed by the properties of the integrator.

    Conventions.
    - [uint] values are integers [Z] reduced modulo [2^32] after every
      arithmetic operation ([u32]); bit operations are those of [Z].
    - The sampler [rnd] is embedded bit-exactly, including the conversion
      [(float)word] of its 32-bit output to binary32 (round to nearest,
      ties to even, the rounding of integer-to-float conversions) and the
      division by [2^32], which is exact.
    - All other [float] arithmetic is idealised to the real numbers [R];
      a [float3] is a record of three reals.
    - The acceleration structure, the buffers and the textures are fields
      of a record [Scene.t] over which the shaders are parameterised. *)

From Stdlib Require Import ZArith QArith Qreals Reals Lra Lia Psatz Bool List.
Import ListNotations.

Local Open Scope Z_scope.

(** ** Unsigned 32-bit arithmetic and the sampler (PT.hlsl, [rnd]) *)

Module Sampler.

Definition u32 (x : Z) : Z := x mod 2 ^ 32.

(** Nearest integer with at most 24 significant bits, ties to even: the
    significand rounding of binary32.  For a real [m * 2^k] in the normal
    range, its binary32 rounding is [round24 m * 2^k]. *)
Definition round24 (m : Z) : Z :=
  if m <? 2 ^ 24 then m
  else
    let e := Z.log2 m - 23 in
    let q := Z.shiftr m e in
    let r := Z.land m (Z.ones e) in
    let half := 2 ^ (e - 1) in
    let q' := if (half <? r) || ((r =? half) && Z.odd q) then q + 1 else q in
    Z.shiftl q' e.

(** [(float)w] for a [uint] w; the value is an integer. *)
Definition utof (w : Z) : Z := round24 w.

(** [rndState = rndState * 747796405u + 2891336453u;] *)
Definition rnd_state (rndState : Z) : Z :=
  u32 (rndState * 747796405 + 2891336453).

(** [word] and the integer [(word >> 22u) ^ word] that is converted. *)
Definition rnd_bits (rndState : Z) : Z :=
  let s := rnd_state rndState in
  let word := u32 (Z.lxor (Z.shiftr s (Z.shiftr s 28 + 4)) s * 277803737) in
  Z.lxor (Z.shiftr word 22) word.

(** Numerator over [2^32] of the float returned by [rnd]. *)
Definition rnd_num (rndState : Z) : Z := utof (rnd_bits rndState).

(** [float rnd(inout uint rndState)]: the returned float, an exact dyadic
    rational, and the updated state. *)
Definition rnd (rndState : Z) : Q * Z :=
  (rnd_num rndState # 4294967296, rnd_state rndState)%Q.

(** The first [n] outputs drawn from a seed. *)
Fixpoint rnd_seq (n : nat) (seed : Z) : list Q :=
  match n with
  | O => []
  | S n' => let '(u, s) := rnd seed in u :: rnd_seq n' s
  end.

(** [uint lightIndex = rnd(rndState) * nLights;] of [sampleLight]: the
    binary32 product of the two floats, then the conversion to [uint]
    (truncation, saturating at [2^32 - 1]). *)
Definition lightIndex (nLights rndState : Z) : Z * Z :=
  let prod := round24 (rnd_num rndState * utof nLights) in
  (Z.min (prod / 2 ^ 32) (2 ^ 32 - 1), rnd_state rndState).

End Sampler.

(** ** Vectors and matrices of floats *)

Local Open Scope R_scope.

Definition float := R.
Bind Scope R_scope with float.

Record float3 : Type := mkFloat3 { vx : float; vy : float; vz : float }.

(** Rows of a [float3x3]. *)
Record float3x3 : Type := mkFloat3x3 { row0 : float3; row1 : float3; row2 : float3 }.

Record float4 : Type := mkFloat4 { wx : float; wy : float; wz : float; ww : float }.

(** Rows of a [float4x4]. *)
Record float4x4 : Type :=
  mkFloat4x4 { r0 : float4; r1 : float4; r2 : float4; r3 : float4 }.

Module Vec.

Definition zero : float3 := mkFloat3 0 0 0.
Definition one : float3 := mkFloat3 1 1 1.
Definition add (a b : float3) := mkFloat3 (vx a + vx b) (vy a + vy b) (vz a + vz b).
Definition sub (a b : float3) := mkFloat3 (vx a - vx b) (vy a - vy b) (vz a - vz b).
(** component-wise product of two [float3] *)
Definition mul (a b : float3) := mkFloat3 (vx a * vx b) (vy a * vy b) (vz a * vz b).
Definition scale (a : float3) (k : float) := mkFloat3 (vx a * k) (vy a * k) (vz a * k).
Definition divs (a : float3) (k : float) := mkFloat3 (vx a / k) (vy a / k) (vz a / k).
Definition neg (a : float3) := mkFloat3 (- vx a) (- vy a) (- vz a).
Definition dot (a b : float3) : float := vx a * vx b + vy a * vy b + vz a * vz b.
Definition cross (a b : float3) :=
  mkFloat3 (vy a * vz b - vz a * vy b)
           (vz a * vx b - vx a * vz b)
           (vx a * vy b - vy a * vx b).
Definition length (a : float3) : float := sqrt (dot a a).
Definition normalize (a : float3) := divs a (length a).
Definition transpose (m : float3x3) :=
  mkFloat3x3 (mkFloat3 (vx (row0 m)) (vx (row1 m)) (vx (row2 m)))
             (mkFloat3 (vy (row0 m)) (vy (row1 m)) (vy (row2 m)))
             (mkFloat3 (vz (row0 m)) (vz (row1 m)) (vz (row2 m))).
(** [mul(v, m)]: row vector times matrix *)
Definition mul_vm (v : float3) (m : float3x3) :=
  add (add (scale (row0 m) (vx v)) (scale (row1 m) (vy v))) (scale (row2 m) (vz v)).
Definition dot4 (a b : float4) : float :=
  wx a * wx b + wy a * wy b + wz a * wz b + ww a * ww b.
(** [mul(m, v)]: matrix times column vector *)
Definition mul_mv4 (m : float4x4) (v : float4) : float4 :=
  mkFloat4 (dot4 (r0 m) v) (dot4 (r1 m) v) (dot4 (r2 m) v) (dot4 (r3 m) v).
Definition xyz (v : float4) : float3 := mkFloat3 (wx v) (wy v) (wz v).
(** every component is non-negative *)
Definition nonneg (a : float3) : Prop := 0 <= vx a /\ 0 <= vy a /\ 0 <= vz a.
(** component-wise order *)
Definition le (a b : float3) : Prop := vx a <= vx b /\ vy a <= vy b /\ vz a <= vz b.

End Vec.

Definition Rltb (a b : R) : bool := if Rlt_dec a b then true else false.
Definition Rleb (a b : R) : bool := if Rle_dec a b then true else false.

(** [(float)n] for a [uint] n (an integer-valued binary32). *)
Definition itof (n : Z) : float := IZR (Sampler.utof n).

(** HLSL [pow] on the reals: [0] at a non-positive base (where HLSL gives
    [0] at [0] and no number below it). *)
Definition pow (x y : float) : float :=
  if Rle_dec x 0 then 0 else Rpower x y.

(** ** The shader data model (PT.hlsl) *)

Record Payload : Type := mkPayload {
  depth : Z;
  flags : Z;
  rndState : Z;
  colour : float3;
  pathThroughput : float3
}.

Definition set_colour (c : float3) (p : Payload) :=
  mkPayload (depth p) (flags p) (rndState p) c (pathThroughput p).
Definition set_pathThroughput (t : float3) (p : Payload) :=
  mkPayload (depth p) (flags p) (rndState p) (colour p) t.
Definition set_rndState (s : Z) (p : Payload) :=
  mkPayload (depth p) (flags p) s (colour p) (pathThroughput p).
Definition set_depth (d : Z) (p : Payload) :=
  mkPayload d (flags p) (rndState p) (colour p) (pathThroughput p).
Definition set_flags (f : Z) (p : Payload) :=
  mkPayload (depth p) f (rndState p) (colour p) (pathThroughput p).

Record InstanceData : Type := mkInstanceData {
  startIndex : Z;
  bsdfAlbedoID : Z;
  bsdfData : list float;
  coatingData : list float
}.

Module AreaLightData.
Record t : Type := mk {
  v1 : float3;
  v2 : float3;
  v3 : float3;
  normal : float3;
  Le : float3
}.
End AreaLightData.

Record HitData : Type := mkHitData {
  pos : float3;
  normal : float3;
  tbn : float3x3;
  uv : float * float;
  bsdf : Z;
  albedo : float3;
  instance : InstanceData
}.

Record RayDesc : Type := mkRayDesc {
  Origin : float3;
  Direction : float3;
  TMin : float;
  TMax : float
}.

(** *** Flags *)

Definition encodeIsSpecular (flags : Z) : Z := Z.lor flags 2.
Definition clearSpecular (flags : Z) : Z := Z.land flags 253.
Definition decodeIsSpecular (flags : Z) : bool := (0 <? Z.land flags 2)%Z.
Definition encodeIsShadow (flags : Z) : Z := Z.lor flags 4.
Definition decodeIsShadow (flags : Z) : bool := (0 <? Z.land flags 4)%Z.

Definition isBSDFTwoSided (bsdf : Z) : bool :=
  if ((bsdf =? 4) || (bsdf =? 6))%Z then false else true.

(** *** Threading the sampler state *)

Definition Rand (A : Type) : Type := Z -> A * Z.

Definition ret {A} (a : A) : Rand A := fun s => (a, s).
Definition bind {A B} (c : Rand A) (k : A -> Rand B) : Rand B :=
  fun s => let '(a, s') := c s in k a s'.

Declare Scope rand_scope.
Delimit Scope rand_scope with rand.
Notation "x <- c ;; k" := (bind c (fun x => k))
  (at level 61, c at next level, right associativity) : rand_scope.
Notation "' p <- c ;; k" := (bind c (fun p => k))
  (at level 61, p pattern, c at next level, right associativity) : rand_scope.

(** One call [rnd(rndState)], its result read as a real. *)
Definition draw : Rand float :=
  fun s => let '(u, s') := Sampler.rnd s in (Q2R u, s').

(** *** Sampling routines *)

Definition PI : float := 3.1415926535.

Definition sphericalToWorld (theta phi : float) : float3 :=
  mkFloat3 (cos phi * sin theta) (sin phi * sin theta) (cos theta).

Definition cosineSampleHemisphere (r1 r2 : float) : float3 :=
  let theta := acos (sqrt r1) in
  let phi := 2 * PI * r2 in
  sphericalToWorld theta phi.

Definition cosineHemispherePDF (wi : float3) : float := vz wi / PI.

Definition uniformSampleSphere (r1 r2 : float) : float3 :=
  let z := 1 - 2 * r1 in
  let r := sqrt (Rmax 0 (1 - z * z)) in
  let phi := 2 * PI * r2 in
  mkFloat3 (r * cos phi) (r * sin phi) z.

Definition uniformSpherePDF : float := 1 / (4 * PI).

(** [(alpha, beta, gamma)] *)
Definition uniformSampleTriangle (r1 r2 : float) : float * float * float :=
  let alpha := 1 - sqrt r1 in
  let beta := sqrt r1 * r2 in
  let gamma := 1 - (alpha + beta) in
  (alpha, beta, gamma).

Definition isLight (hitData : HitData) : bool := (bsdf hitData =? 1)%Z.

(** ** The scene and the constants seen by the shaders *)

Module Scene.
Record t : Type := mk {
  (** Constant buffer [CBuffer]. *)
  nLights : Z;
  useEnvironmentMap : Z;
  (** [areaLightData[i]]: a read of the structured buffer of lights. *)
  areaLightData : Z -> AreaLightData.t;
  (** [evaluateEnvironmentMap(wi)]: the environment texture fetched in the
      direction [wi]. *)
  evaluateEnvironmentMap : float3 -> float3;
  (** The acceleration structure: the closest intersection along a ray
      within its bounds, already resolved into [HitData] by
      [calculateHitData]; [None] when the ray leaves the scene. *)
  intersect : RayDesc -> option HitData;
  (** Whether [&&] skips its right operand when the left one is false
      (HLSL 2021) or evaluates both operands (earlier language versions). *)
  shortCircuit : bool;
  (** Contents of locals that are read before being written:
      [shadowPayload] in [visible]; [wiLocal], [reflectedColour] and [pdf]
      in [sampleBSDF] when the BSDF identifier is none of 0..7. *)
  uninitPayload : Payload;
  uninitWi : float3;
  uninitColour : float3;
  uninitPdf : float
}.
End Scene.

(** The camera constants of [CBuffer]. *)
Record Camera : Type := mkCamera {
  inverseView : float4x4;
  inverseProjection : float4x4
}.

(** ** The shaders, over a fixed scene *)

Section Shaders.

Local Open Scope rand_scope.

Variable scene : Scene.t.

Local Abbreviation nLights := (Scene.nLights scene).
Local Abbreviation useEnvironmentMap := (Scene.useEnvironmentMap scene).
Local Abbreviation areaLightData := (Scene.areaLightData scene).
Local Abbreviation evaluateEnvironmentMap := (Scene.evaluateEnvironmentMap scene).
Local Abbreviation intersect := (Scene.intersect scene).
Local Abbreviation shortCircuit := (Scene.shortCircuit scene).
Local Abbreviation uninitPayload := (Scene.uninitPayload scene).
Local Abbreviation uninitWi := (Scene.uninitWi scene).
Local Abbreviation uninitColour := (Scene.uninitColour scene).
Local Abbreviation uninitPdf := (Scene.uninitPdf scene).

(** [Miss]: [rd] is [WorldRayDirection()]. *)
Definition Miss (rd : float3) (payload : Payload) : Payload :=
  if negb (decodeIsShadow (flags payload)) then
    if (depth payload =? 0)%Z || decodeIsSpecular (flags payload) then
      set_colour
        (Vec.add (colour payload)
                 (Vec.mul (pathThroughput payload) (evaluateEnvironmentMap rd)))
        payload
    else payload
  else
    set_pathThroughput
      (mkFloat3 1 (vy (pathThroughput payload)) (vz (pathThroughput payload)))
      payload.

(** [sampleLight]: the selected light and [pmf]. *)
Definition sampleLight : Rand (AreaLightData.t * float) :=
  fun s =>
    let '(lightIndex, s') := Sampler.lightIndex nLights s in
    let pmf := 1 / itof nLights in
    ((areaLightData lightIndex, pmf), s').

(** [sampleAreaLight]: the sampled point and [pdf]. *)
Definition sampleAreaLight (lightData : AreaLightData.t) : Rand (float3 * float) :=
  r1 <- draw ;;
  r2 <- draw ;;
  let '(u, v, w) := uniformSampleTriangle r1 r2 in
  let p := Vec.add (Vec.add (Vec.scale (AreaLightData.v1 lightData) u)
                            (Vec.scale (AreaLightData.v2 lightData) v))
                   (Vec.scale (AreaLightData.v3 lightData) w) in
  let pdf :=
    1 / (Vec.length
           (Vec.cross
              (Vec.sub (AreaLightData.v3 lightData) (AreaLightData.v2 lightData))
              (Vec.sub (AreaLightData.v1 lightData) (AreaLightData.v3 lightData)))
         * 0.5) in
  ret (p, pdf).

(** The body shared by the BSDF kinds 0, 2, 4, 5, 6 and 7 of [sampleBSDF]. *)
Definition sampleDiffuseLobe (hitData : HitData) : Rand (float3 * float3 * float) :=
  r1 <- draw ;;
  r2 <- draw ;;
  let wiLocal := cosineSampleHemisphere r1 r2 in
  ret (wiLocal, Vec.divs (albedo hitData) PI, cosineHemispherePDF wiLocal).

(** [sampleBSDF]: [(wi, reflectedColour, pdf, isSpecular)]. *)
Definition sampleBSDF (rd : float3) (hitData : HitData)
  : Rand (float3 * float3 * float * bool) :=
  let woLocal := Vec.mul_vm (Vec.neg rd) (Vec.transpose (tbn hitData)) in
  let b := bsdf hitData in
  let diffuse :=
    '(wiLocal, reflectedColour, pdf) <- sampleDiffuseLobe hitData ;;
    ret (wiLocal, reflectedColour, pdf, false) in
  '(wiLocal, reflectedColour, pdf, isSpecular) <-
    (if (b =? 0)%Z then diffuse
     else if (b =? 1)%Z then
       ret (woLocal, mkFloat3 0 0 0, 0, false)
     else if (b =? 2)%Z then diffuse
     else if (b =? 3)%Z then
       let wiLocal := mkFloat3 (- vx woLocal) (- vy woLocal) (vz woLocal) in
       ret (wiLocal, Vec.divs (albedo hitData) (vz wiLocal), 1, true)
     else if (b =? 4)%Z then diffuse
     else if (b =? 5)%Z then diffuse
     else if (b =? 6)%Z then diffuse
     else if (b =? 7)%Z then diffuse
     else ret (uninitWi, uninitColour, uninitPdf, false)) ;;
  ret (Vec.normalize (Vec.mul_vm wiLocal (tbn hitData)),
       reflectedColour, pdf, isSpecular).

Definition evaluateBSDF (rd : float3) (hitData : HitData) (wi : float3) : float3 :=
  let b := bsdf hitData in
  if (b =? 0)%Z then Vec.divs (albedo hitData) PI
  else if (b =? 1)%Z then mkFloat3 0 0 0
  else if (b =? 2)%Z then Vec.divs (albedo hitData) PI
  else if (b =? 3)%Z then mkFloat3 0 0 0
  else if (b =? 4)%Z then mkFloat3 0 0 0
  else if (b =? 5)%Z then Vec.divs (albedo hitData) PI
  else if (b =? 6)%Z then Vec.divs (albedo hitData) PI
  else if (b =? 7)%Z then Vec.divs (albedo hitData) PI
  else Vec.divs (albedo hitData) PI.

(** [visible]: the shadow ray is traced with
    [RAY_FLAG_SKIP_CLOSEST_HIT_SHADER], so a hit leaves [shadowPayload]
    untouched and only a miss runs [Miss] on it; no further ray is traced. *)
Definition visible (p1 p2 : float3) : bool :=
  let dir := Vec.sub p2 p1 in
  let l := Vec.length dir in
  let dir := Vec.normalize dir in
  let shadowRay :=
    mkRayDesc (Vec.add p1 (Vec.scale dir 0.0001)) dir 0.0001 (l - 0.0002) in
  let shadowPayload :=
    set_flags (encodeIsShadow (flags uninitPayload)) uninitPayload in
  let shadowPayload :=
    set_pathThroughput
      (mkFloat3 0 (vy (pathThroughput shadowPayload))
                  (vz (pathThroughput shadowPayload)))
      shadowPayload in
  let shadowPayload :=
    match intersect shadowRay with
    | None => Miss (Direction shadowRay) shadowPayload
    | Some _ => shadowPayload
    end in
  Rltb 0 (vx (pathThroughput shadowPayload)).

(** The test at the head of [calculateDirect]:
    [useEnvironmentMap == 1 && (rnd(rndState) < (float)nLights + 1 || nLights == 0)]. *)
Definition chooseEnvironment : Rand bool :=
  fun s =>
    if shortCircuit && negb (useEnvironmentMap =? 1)%Z then (false, s)
    else
      let '(u, s') := draw s in
      ((useEnvironmentMap =? 1)%Z
         && (Rltb u (itof nLights + 1) || (nLights =? 0)%Z), s').

(** The branch of [calculateDirect] that samples the environment. *)
Definition directEnvironment (hitData : HitData) (rd : float3) : Rand float3 :=
  let pmf := 1 / itof (Sampler.u32 (nLights + 1)) in
  r1 <- draw ;;
  r2 <- draw ;;
  let wi := uniformSampleSphere r1 r2 in
  let pdf := uniformSpherePDF in
  if Rltb 0 (Vec.dot (normal hitData) wi)
     && visible (Vec.add (pos hitData) (Vec.scale wi 1000)) (pos hitData)
  then
    ret (Vec.divs
           (Vec.scale (Vec.mul (evaluateEnvironmentMap wi)
                               (evaluateBSDF rd hitData wi))
                      (Vec.dot (normal hitData) wi))
           (pmf * pdf))
  else ret (mkFloat3 0 0 0).

(** The branch of [calculateDirect] that samples an area light. *)
Definition directAreaLight (hitData : HitData) (rd : float3) : Rand float3 :=
  '(light, pmf) <- sampleLight ;;
  let pmf := 1 / itof (Sampler.u32 (nLights + 1)) in
  '(p, pdf) <- sampleAreaLight light ;;
  let wi := Vec.sub p (pos hitData) in
  let l := Vec.length wi in
  let wi := Vec.normalize wi in
  let GTerm :=
    Rmax (Vec.dot (normal hitData) wi) 0
    * Rmax (Vec.dot (AreaLightData.normal light) (Vec.neg wi)) 0 / (l * l) in
  if Rltb 0 GTerm && visible p (pos hitData)
  then
    ret (Vec.divs
           (Vec.scale (Vec.mul (AreaLightData.Le light)
                               (evaluateBSDF rd hitData wi))
                      GTerm)
           (pmf * pdf))
  else ret (mkFloat3 0 0 0).

Definition calculateDirect (hitData : HitData) (rd : float3) : Rand float3 :=
  env <- chooseEnvironment ;;
  if env then directEnvironment hitData rd else directAreaLight hitData rd.

(** The Russian-roulette block of [ClosestHit]; the boolean tells that the
    handler returns. *)
Definition russianRoulette (payload : Payload) : Payload * bool :=
  if (3 <? depth payload)%Z then
    let q :=
      Rmin (Vec.dot (pathThroughput payload) (mkFloat3 0.2126 0.7152 0.0722)) 0.7 in
    let '(u, s') := draw (rndState payload) in
    let payload := set_rndState s' payload in
    if Rltb u q || (depth payload =? 7)%Z then (payload, true)
    else
      (set_pathThroughput (Vec.divs (pathThroughput payload) (1 - q)) payload,
       false)
  else (payload, false).

(** The last block of [ClosestHit]: BSDF sampling, the throughput update
    and the ray of the indirect bounce, if one is traced. *)
Definition scatter (hitData : HitData) (rd : float3) (payload : Payload)
  : Payload * option RayDesc :=
  let '((wi, indirect, pdf, isSpecular), s') :=
    sampleBSDF rd hitData (rndState payload) in
  let payload := set_rndState s' payload in
  if Rleb pdf 0 then (payload, None)
  else
    let payload :=
      set_pathThroughput
        (Vec.divs
           (Vec.scale (Vec.mul (pathThroughput payload) indirect)
                      (Rabs (Vec.dot wi (normal hitData))))
           pdf)
        payload in
    let payload := set_depth (Sampler.u32 (depth payload + 1)) payload in
    let payload :=
      if isSpecular then set_flags (encodeIsSpecular (flags payload)) payload
      else set_flags (clearSpecular (flags payload)) payload in
    let ray :=
      mkRayDesc
        (Vec.add (pos hitData)
                 (Vec.scale
                    (if Rltb 0 (Vec.dot wi (normal hitData))
                     then normal hitData else Vec.neg (normal hitData))
                    0.001))
        wi 0.001 1000 in
    (payload, Some ray).

(** [ClosestHit] up to its final [TraceRay]: the payload at the point where
    the handler returns or traces, and the ray it traces, if any. *)
Definition ClosestHit (hitData : HitData) (rd : float3) (payload : Payload)
  : Payload * option RayDesc :=
  if isLight hitData
     && ((depth payload =? 0)%Z || decodeIsSpecular (flags payload))
  then
    (set_colour (mkFloat3 (nth 0 (bsdfData (instance hitData)) 0)
                          (nth 1 (bsdfData (instance hitData)) 0)
                          (nth 2 (bsdfData (instance hitData)) 0))
                payload,
     None)
  else
    let '(direct, s') := calculateDirect hitData rd (rndState payload) in
    let payload := set_rndState s' payload in
    let payload :=
      set_colour
        (Vec.add (colour payload) (Vec.mul (pathThroughput payload) direct))
        payload in
    if (depth payload =? 6)%Z then (payload, None)
    else
      let '(payload, stop) := russianRoulette payload in
      if stop then (payload, None)
      else scatter hitData rd payload.

(** [TraceRay(scene, RAY_FLAG_NONE, ...)]: the miss shader or the closest-hit
    shader runs on the payload; the closest-hit shader ends by tracing the
    next ray.  [fuel] bounds the nesting of the calls. *)
Fixpoint TraceRay (fuel : nat) (ray : RayDesc) (payload : Payload)
  : option Payload :=
  match fuel with
  | O => None
  | S fuel' =>
      match intersect ray with
      | None => Some (Miss (Direction ray) payload)
      | Some hitData =>
          let '(payload', next) := ClosestHit hitData (Direction ray) payload in
          match next with
          | None => Some payload'
          | Some ray' => TraceRay fuel' ray' payload'
          end
      end
  end.

(** Number of rays traced along the path by [TraceRay], shadow rays apart. *)
Fixpoint segments (fuel : nat) (ray : RayDesc) (payload : Payload) : nat :=
  match fuel with
  | O => O
  | S fuel' =>
      match intersect ray with
      | None => 1
      | Some hitData =>
          let '(payload', next) := ClosestHit hitData (Direction ray) payload in
          match next with
          | None => 1
          | Some ray' => S (segments fuel' ray' payload')
          end
      end
  end.

(** *** Ray generation and the frame loop *)

Definition tmo (p : float3) : float3 :=
  mkFloat3 (pow (vx p) (1 / 2.2)) (pow (vy p) (1 / 2.2)) (pow (vz p) (1 / 2.2)).


(** [pipelineConfig.MaxTraceRecursionDepth] (Shaders.h). *)
Definition MaxTraceRecursionDepth : nat := 8.

(** The output texture [uav], addressed by pixel. *)
Definition Image : Type := Z * Z -> float3 * float.

Definition write (uav : Image) (idx : Z * Z) (v : float3 * float) : Image :=
  fun i =>
    if ((fst i =? fst idx) && (snd i =? snd idx))%Z then v else uav i.

(** The payload built at the head of [RayGeneration]; [sppBits] is
    [asuint(SPP)]. *)
Definition initialPayload (idx : Z * Z) (sppBits : Z) : Payload :=
  mkPayload 0 0
    (Z.lxor (Z.lxor (fst idx) (Sampler.u32 (snd idx * 0x9e3779b9)))
            (Sampler.u32 (sppBits * 0x85ebca6b)))
    (mkFloat3 0 0 0) (mkFloat3 1 1 1).

(** [RayGeneration] up to the write: the payload returned by the primary
    [TraceRay]. *)
Definition tracePixel (cam : Camera) (size : Z * Z) (sppBits : Z) (idx : Z * Z)
  : option Payload :=
  let payload := initialPayload idx sppBits in
  let '(j1, s1) := draw (rndState payload) in
  let '(j2, s2) := draw s1 in
  let payload := set_rndState s2 payload in
  let u := (itof (fst idx) + j1) / itof (fst size) in
  let v := (itof (snd idx) + j2) / itof (snd size) in
  let v := 1 - v in
  let u := u * 2 - 1 in
  let v := v * 2 - 1 in
  let cameraPosition :=
    Vec.xyz (Vec.mul_mv4 (inverseView cam) (mkFloat4 0 0 0 1)) in
  let p := Vec.mul_mv4 (inverseProjection cam) (mkFloat4 u v 0 1) in
  let pxyz := Vec.normalize (Vec.divs (Vec.xyz p) (ww p)) in
  let rayDirection :=
    Vec.xyz (Vec.mul_mv4 (inverseView cam)
                         (mkFloat4 (vx pxyz) (vy pxyz) (vz pxyz) 0)) in
  let ray := mkRayDesc cameraPosition rayDirection 0.001 1000 in
  TraceRay MaxTraceRecursionDepth ray payload.

(** [RayGeneration]: [uav[idx] = float4(tmo(payload.colour), 1.0)]. *)
Definition RayGeneration (cam : Camera) (size : Z * Z) (sppBits : Z)
  (idx : Z * Z) (uav : Image) : option Image :=
  match tracePixel cam size sppBits idx with
  | Some payload => Some (write uav idx (tmo (colour payload), 1))
  | None => None
  end.

(** Bit pattern of the binary32 [(float)n] of a [uint] n: [asuint] of the
    constant [SPP] that [WinMain] uploads. *)
Definition asuint_of_uint (n : Z) : Z :=
  if (n <=? 0)%Z then 0%Z
  else
    let m := Sampler.utof n in
    let e := Z.log2 m in
    let mant := if (e <=? 23)%Z then (m * 2 ^ (23 - e))%Z
                else (m / 2 ^ (e - 23))%Z in
    ((e + 127) * 2 ^ 23 + (mant - 2 ^ 23))%Z.

(** State carried by the main loop of [WinMain]. *)
Record App : Type := mkApp {
  camera : Camera;
  SPP : Z;
  uav : Image
}.

(** One iteration of the main loop of [WinMain]: camera input, if any,
    resets the counter; the counter is incremented and uploaded; the rays
    of every pixel of the [size] grid are dispatched. *)
Definition frame (size : Z * Z) (moved : option Camera) (app : App) : App :=
  let cam := match moved with Some c => c | None => camera app end in
  let spp := match moved with Some _ => 0%Z | None => SPP app end in
  let spp := Sampler.u32 (spp + 1) in
  let sppBits := asuint_of_uint spp in
  let img : Image :=
    fun idx =>
      if ((0 <=? fst idx) && (fst idx <? fst size)
          && (0 <=? snd idx) && (snd idx <? snd size))%Z
      then
        match RayGeneration cam size sppBits idx (uav app) with
        | Some out => out idx
        | None => uav app idx
        end
      else uav app idx in
  mkApp cam spp img.

(** The main loop run over a list of per-frame inputs. *)
Definition frames (size : Z * Z) (inputs : list (option Camera)) (app : App)
  : App :=
  fold_left (fun a i => frame size i a) inputs app.

End Shaders.

(** ** Quantities named by the properties *)

(** The [pdf] reported by [sampleBSDF] from the sampler state [s]. *)
Definition sampledPdf (scene : Scene.t) (rd : float3) (hitData : HitData)
  (s : Z) : float :=
  snd (fst (fst (sampleBSDF scene rd hitData s))).

(** The [reflectedColour] reported by [sampleBSDF]. *)
Definition sampledColour (scene : Scene.t) (rd : float3) (hitData : HitData)
  (s : Z) : float3 :=
  snd (fst (fst (fst (sampleBSDF scene rd hitData s)))).

(** The probability [q] of the Russian-roulette block for a throughput. *)
Definition rouletteQ (T : float3) : float :=
  Rmin (Vec.dot T (mkFloat3 0.2126 0.7152 0.0722)) 0.7.

(** The throughput that the Russian-roulette block carries on when the
    number drawn is [u]: nothing when the path is ended, the rescaled
    throughput otherwise. *)
Definition survivingThroughput (T : float3) (u : float) : float3 :=
  if Rltb u (rouletteQ T) then mkFloat3 0 0 0
  else Vec.divs T (1 - rouletteQ T).

(** Expectation of [f u] for [u] uniform on the unit interval, [f] a step
    function: its integral from 0 to 1. *)
Definition uniformExpectation (f : R -> R) (pr : IsStepFun f 0 1) : R :=
  RiemannInt_SF (mkStepFun pr).

(** The geometry term of [calculateDirect] between a hit and the point [p]
    of a light. *)
Definition geometryTerm (hitData : HitData) (light : AreaLightData.t)
  (p : float3) : float :=
  let wi := Vec.sub p (pos hitData) in
  let l := Vec.length wi in
  let wi := Vec.normalize wi in
  Rmax (Vec.dot (normal hitData) wi) 0
  * Rmax (Vec.dot (AreaLightData.normal light) (Vec.neg wi)) 0 / (l * l).

(** ** Concrete scenes *)

Definition zeroPayload : Payload :=
  mkPayload 0 0 0 (mkFloat3 0 0 0) (mkFloat3 0 0 0).

Definition identity3x3 : float3x3 :=
  mkFloat3x3 (mkFloat3 1 0 0) (mkFloat3 0 1 0) (mkFloat3 0 0 1).

(** No geometry, no area light, a uniform environment of radiance
    (0.5, 0.5, 0.5). *)
Definition skyScene : Scene.t :=
  Scene.mk 0 1
    (fun _ => AreaLightData.mk (mkFloat3 0 0 0) (mkFloat3 0 0 0) (mkFloat3 0 0 0)
                               (mkFloat3 0 0 0) (mkFloat3 0 0 0))
    (fun _ => mkFloat3 0.5 0.5 0.5)
    (fun _ => None)
    true zeroPayload (mkFloat3 0 0 0) (mkFloat3 0 0 0) 0.

(** A triangular light of radiance (1, 1, 1) at height 1, facing down. *)
Definition lamp : AreaLightData.t :=
  AreaLightData.mk (mkFloat3 0 0 1) (mkFloat3 1 0 1) (mkFloat3 0 1 1)
                   (mkFloat3 0 0 (-1)) (mkFloat3 1 1 1).

(** One area light and nothing that occludes it; [useEnv] is the constant
    [useEnvironmentMap]. *)
Definition lampScene (useEnv : Z) : Scene.t :=
  Scene.mk 1 useEnv (fun _ => lamp) (fun _ => mkFloat3 0.5 0.5 0.5)
    (fun _ => None)
    true zeroPayload (mkFloat3 0 0 0) (mkFloat3 0 0 0) 0.

(** A white diffuse surface point at the origin, facing up. *)
Definition floorHit : HitData :=
  mkHitData (mkFloat3 0 0 0) (mkFloat3 0 0 1) identity3x3 (0, 0) 0
            (mkFloat3 1 1 1) (mkInstanceData 0 0 [] []).

(** A point of an emissive surface of radiance (1, 1, 1). *)
Definition emitterHit : HitData :=
  mkHitData (mkFloat3 0 0 0) (mkFloat3 0 0 1) identity3x3 (0, 0) 1
            (mkFloat3 1 1 1) (mkInstanceData 0 65536 [1; 1; 1; 0; 0; 0; 0] []).

(** A payload after two bounces, the last one specular, that has gathered
    the colour (2, 2, 2) on its way. *)
Definition afterMirror : Payload :=
  mkPayload 2 2 0 (mkFloat3 2 2 2) (mkFloat3 1 1 1).

(** No geometry and no light; the environment is white in the half space
    of positive x and black elsewhere. *)
Definition horizonScene : Scene.t :=
  Scene.mk 0 1
    (fun _ => lamp)
    (fun wi => if Rlt_dec 0 (vx wi) then mkFloat3 1 1 1 else mkFloat3 0 0 0)
    (fun _ => None)
    true zeroPayload (mkFloat3 0 0 0) (mkFloat3 0 0 0) 0.

(** A camera at the origin whose primary ray points along the x axis,
    forwards or backwards according to the sign of [u - 0.5]. *)
Definition sideCamera : Camera :=
  mkCamera
    (mkFloat4x4 (mkFloat4 1 0 0 0) (mkFloat4 0 1 0 0)
                (mkFloat4 0 0 1 0) (mkFloat4 0 0 0 1))
    (mkFloat4x4 (mkFloat4 1 0 0 (-0.5)) (mkFloat4 0 0 0 0)
                (mkFloat4 0 0 0 0) (mkFloat4 0 0 0 1)).

(** The application before its first frame, with a black image. *)
Definition startApp : App :=
  mkApp sideCamera 0 (fun _ => (mkFloat3 0 0 0, 0)).

(** A payload at depth 4 with full throughput. *)
Definition deepPayload : Payload :=
  mkPayload 4 0 0 (mkFloat3 0 0 0) (mkFloat3 1 1 1).

(** A ray along the z axis. *)
Definition zRay : RayDesc :=
  mkRayDesc (mkFloat3 0 0 0) (mkFloat3 0 0 1) 0.001 1000.

(** ** Further functions of PT.hlsl *)

(** [inverse]: the inverse of a 3x3 matrix by cofactors. *)
Definition inverse (m : float3x3) : float3x3 :=
  let a := vx (row0 m) in let b := vy (row0 m) in let c := vz (row0 m) in
  let d := vx (row1 m) in let e := vy (row1 m) in let f := vz (row1 m) in
  let g := vx (row2 m) in let h := vy (row2 m) in let i := vz (row2 m) in
  let det := a * (e * i - f * h) - b * (d * i - f * g) + c * (d * h - e * g) in
  let invDet := 1 / det in
  mkFloat3x3
    (mkFloat3 ((e * i - f * h) * invDet) ((c * h - b * i) * invDet)
              ((b * f - c * e) * invDet))
    (mkFloat3 ((f * g - d * i) * invDet) ((a * i - c * g) * invDet)
              ((c * d - a * f) * invDet))
    (mkFloat3 ((d * h - e * g) * invDet) ((b * g - a * h) * invDet)
              ((a * e - b * d) * invDet)).

(** The determinant computed inside [inverse]. *)
Definition det3 (m : float3x3) : float :=
  vx (row0 m) * (vy (row1 m) * vz (row2 m) - vz (row1 m) * vy (row2 m))
  - vy (row0 m) * (vx (row1 m) * vz (row2 m) - vz (row1 m) * vx (row2 m))
  + vz (row0 m) * (vx (row1 m) * vy (row2 m) - vy (row1 m) * vx (row2 m)).

(** [mul(m, v)]: matrix times column vector. *)
Definition mul_mv (m : float3x3) (v : float3) : float3 :=
  mkFloat3 (Vec.dot (row0 m) v) (Vec.dot (row1 m) v) (Vec.dot (row2 m) v).

Definition sphericalTheta (wi : float3) : float := acos (vz wi).

Module Vertex.
Record t : Type := mk {
  position : float3;
  normal : float3;
  tangent : float3;
  uv : float * float
}.
End Vertex.

(** The buffers and textures read by [calculateHitData]. *)
Module Geometry.
Record t : Type := mk {
  vertices : Z -> Vertex.t;
  indices : Z -> Z;
  instanceData : Z -> InstanceData;
  (** [textures[id].SampleLevel(samplerState, uv, 0)] *)
  textures : Z -> float * float -> float3
}.
End Geometry.

(** The intersection reported to the closest-hit shader: the system values
    and the triangle attributes; [ObjectToWorld] is the 3x3 part of
    [ObjectToWorld3x4()]. *)
Module Intersection.
Record t : Type := mk {
  InstanceID : Z;
  PrimitiveIndex : Z;
  barycentrics : float * float;
  WorldRayOrigin : float3;
  WorldRayDirection : float3;
  RayTCurrent : float;
  ObjectToWorld : float3x3
}.
End Intersection.

(** The tangent built by [calculateHitData] from the shading normal. *)
Definition hitTangent (n : float3) : float3 :=
  if Rltb (Rabs (vy n)) (Rabs (vx n)) then
    let l := 1 / sqrt (vx n * vx n + vz n * vz n) in
    mkFloat3 (vz n * l) 0 (- vx n * l)
  else
    let l := 1 / sqrt (vy n * vy n + vz n * vz n) in
    mkFloat3 0 (vz n * l) (- vy n * l).

Definition calculateHitData (geo : Geometry.t) (hit : Intersection.t) : HitData :=
  let inst := Geometry.instanceData geo (Intersection.InstanceID hit) in
  let start :=
    Sampler.u32 (startIndex inst
                 + Sampler.u32 (Intersection.PrimitiveIndex hit * 3)) in
  let vertex0 := Geometry.vertices geo (Geometry.indices geo start) in
  let vertex1 :=
    Geometry.vertices geo (Geometry.indices geo (Sampler.u32 (start + 1))) in
  let vertex2 :=
    Geometry.vertices geo (Geometry.indices geo (Sampler.u32 (start + 2))) in
  let u := fst (Intersection.barycentrics hit) in
  let v := snd (Intersection.barycentrics hit) in
  let w := 1 - u - v in
  let hitPos :=
    Vec.add (Intersection.WorldRayOrigin hit)
            (Vec.scale (Intersection.WorldRayDirection hit)
                       (Intersection.RayTCurrent hit)) in
  let n :=
    Vec.normalize
      (Vec.add (Vec.add (Vec.scale (Vertex.normal vertex0) w)
                        (Vec.scale (Vertex.normal vertex1) u))
               (Vec.scale (Vertex.normal vertex2) v)) in
  let hitUv :=
    (w * fst (Vertex.uv vertex0) + u * fst (Vertex.uv vertex1)
       + v * fst (Vertex.uv vertex2),
     w * snd (Vertex.uv vertex0) + u * snd (Vertex.uv vertex1)
       + v * snd (Vertex.uv vertex2)) in
  let transform := Vec.transpose (inverse (Intersection.ObjectToWorld hit)) in
  let n := Vec.normalize (mul_mv transform n) in
  let hitBsdf := Z.shiftr (bsdfAlbedoID inst) 16 in
  let n :=
    if isBSDFTwoSided hitBsdf
       && Rltb 0 (Vec.dot n (Intersection.WorldRayDirection hit))
    then Vec.neg n else n in
  let tangent := hitTangent n in
  let binormal := Vec.normalize (Vec.cross n tangent) in
  let albedoTexID := Z.land (bsdfAlbedoID inst) 65535 in
  mkHitData hitPos n (mkFloat3x3 tangent binormal n) hitUv hitBsdf
            (Geometry.textures geo albedoTexID hitUv) inst.

(** The shadow ray that [visible] traces from [p1] towards [p2]. *)
Definition shadowRay (p1 p2 : float3) : RayDesc :=
  let dir := Vec.sub p2 p1 in
  let l := Vec.length dir in
  let dir := Vec.normalize dir in
  mkRayDesc (Vec.add p1 (Vec.scale dir 0.0001)) dir 0.0001 (l - 0.0002).


(** Rows of unit length, perpendicular to one another. *)
Definition orthonormal (m : float3x3) : Prop :=
  Vec.dot (row0 m) (row0 m) = 1 /\ Vec.dot (row1 m) (row1 m) = 1 /\
  Vec.dot (row2 m) (row2 m) = 1 /\ Vec.dot (row0 m) (row1 m) = 0 /\
  Vec.dot (row0 m) (row2 m) = 0 /\ Vec.dot (row1 m) (row2 m) = 0.

(** The interpolated normal of [calculateHitData] in world space, before it
    is normalised and oriented. *)
Definition worldNormal (geo : Geometry.t) (hit : Intersection.t) : float3 :=
  let inst := Geometry.instanceData geo (Intersection.InstanceID hit) in
  let start :=
    Sampler.u32 (startIndex inst
                 + Sampler.u32 (Intersection.PrimitiveIndex hit * 3)) in
  let vertex0 := Geometry.vertices geo (Geometry.indices geo start) in
  let vertex1 :=
    Geometry.vertices geo (Geometry.indices geo (Sampler.u32 (start + 1))) in
  let vertex2 :=
    Geometry.vertices geo (Geometry.indices geo (Sampler.u32 (start + 2))) in
  let u := fst (Intersection.barycentrics hit) in
  let v := snd (Intersection.barycentrics hit) in
  let w := 1 - u - v in
  mul_mv (Vec.transpose (inverse (Intersection.ObjectToWorld hit)))
    (Vec.normalize
       (Vec.add (Vec.add (Vec.scale (Vertex.normal vertex0) w)
                         (Vec.scale (Vertex.normal vertex1) u))
                (Vec.scale (Vertex.normal vertex2) v))).

(** A flat piece of geometry: every vertex has the normal (0, 0, 1). *)
Definition flatGeometry : Geometry.t :=
  Geometry.mk
    (fun _ => Vertex.mk (mkFloat3 0 0 0) (mkFloat3 0 0 1) (mkFloat3 1 0 0) (0, 0))
    (fun i => i)
    (fun _ => mkInstanceData 0 0 [] [])
    (fun _ _ => mkFloat3 1 1 1).

(** A ray from above that meets it at the origin, in an instance that is
    not transformed. *)
Definition straightHit : Intersection.t :=
  Intersection.mk 0 0 (0, 0) (mkFloat3 0 0 1) (mkFloat3 0 0 (-1)) 1 identity3x3.

(** The three vertices that [calculateHitData] fetches for the triangle
    hit. *)
Definition hitVertices (geo : Geometry.t) (hit : Intersection.t)
  : Vertex.t * Vertex.t * Vertex.t :=
  let inst := Geometry.instanceData geo (Intersection.InstanceID hit) in
  let start :=
    Sampler.u32 (startIndex inst
                 + Sampler.u32 (Intersection.PrimitiveIndex hit * 3)) in
  (Geometry.vertices geo (Geometry.indices geo start),
   Geometry.vertices geo (Geometry.indices geo (Sampler.u32 (start + 1))),
   Geometry.vertices geo (Geometry.indices geo (Sampler.u32 (start + 2)))).

(** * The host program *)

From Stdlib Require String.
From Stdlib Require Import RNsatz.
Import String.StringSyntax.
Delimit Scope string_scope with string.

(** ** Scene.h: [InstanceData] and [Scene] *)

(** [bsdfAlbedoID = bsdfAlbedoID | (type << 16)] *)
Definition updateBSDFType (type : Z) (d : InstanceData) : InstanceData :=
  mkInstanceData (startIndex d)
    (Sampler.u32 (Z.lor (bsdfAlbedoID d) (Z.shiftl type 16)))
    (bsdfData d) (coatingData d).

(** [bsdfAlbedoID = bsdfAlbedoID | (ID & 0xFFFF)] *)
Definition updatetextureID (ID : Z) (d : InstanceData) : InstanceData :=
  mkInstanceData (startIndex d)
    (Sampler.u32 (Z.lor (bsdfAlbedoID d) (Z.land ID 65535)))
    (bsdfData d) (coatingData d).

(** [std::map<std::string, int>]: a finite map from names to integers. *)
Definition NameMap : Type := list (String.string * Z).

Fixpoint map_find (m : NameMap) (k : String.string) : option Z :=
  match m with
  | [] => None
  | (k', v) :: m' => if String.eqb k' k then Some v else map_find m' k
  end.

(** [m[k] = v] *)
Fixpoint map_assign (k : String.string) (v : Z) (m : NameMap) : NameMap :=
  match m with
  | [] => [(k, v)]
  | (k', v') :: m' =>
      if String.eqb k' k then (k, v) :: m' else (k', v') :: map_assign k v m'
  end.

(** Reading [m[k]]: a missing key is inserted with the value 0. *)
Definition map_index (m : NameMap) (k : String.string) : Z * NameMap :=
  match map_find m k with
  | Some v => (v, m)
  | None => (0%Z, map_assign k 0%Z m)
  end.

Module HostScene.
Record t : Type := mk {
  allVertices : list Vertex.t;
  allIndices : list Z;
  filenames : list String.string;
  instanceData : list InstanceData;
  lights : list AreaLightData.t;
  indexOffset : NameMap;
  indexSize : NameMap
}.

Definition empty : t := mk [] [] [] [] [] [] [].

(** [addMeshData]: nothing happens for a file name seen before; otherwise
    the vertices are appended, the indices are appended shifted by the
    number of vertices stored so far, and the place and number of the
    indices are recorded under the name. *)
Definition addMeshData (filename : String.string) (vertices : list Vertex.t)
  (indices : list Z) (sc : t) : t :=
  if existsb (fun f => String.eqb f filename) (filenames sc) then sc
  else
    let offset := Z.of_nat (length (allVertices sc)) in
    let initialIndexOffset := Z.of_nat (length (allIndices sc)) in
    mk (allVertices sc ++ vertices)
       (allIndices sc ++ map (fun i => Sampler.u32 (i + offset)) indices)
       (filenames sc ++ [filename])
       (instanceData sc)
       (lights sc)
       (map_assign filename initialIndexOffset (indexOffset sc))
       (map_assign filename (Z.of_nat (length indices)) (indexSize sc)).

(** [addInstance]: the start index is read from [indexOffset]. *)
Definition addInstance (filename : String.string)
  (meshInstanceData : InstanceData) (sc : t) : t :=
  let '(start, offsets) := map_index (indexOffset sc) filename in
  mk (allVertices sc) (allIndices sc) (filenames sc)
     (instanceData sc
        ++ [mkInstanceData (Sampler.u32 start)
              (bsdfAlbedoID meshInstanceData) (bsdfData meshInstanceData)
              (coatingData meshInstanceData)])
     (lights sc) offsets (indexSize sc).

End HostScene.

Definition zeroVertex : Vertex.t :=
  Vertex.mk (mkFloat3 0 0 0) (mkFloat3 0 0 0) (mkFloat3 0 0 0) (0, 0).

(** The structured buffers that [Scene::build] fills from the scene, as the
    shaders read them; a read past the end of a buffer gives zeros. *)
Definition buffers (sc : HostScene.t) (textures : Z -> float * float -> float3)
  : Geometry.t :=
  Geometry.mk
    (fun i => nth (Z.to_nat i) (HostScene.allVertices sc) zeroVertex)
    (fun i => nth (Z.to_nat i) (HostScene.allIndices sc) 0%Z)
    (fun i => nth (Z.to_nat i) (HostScene.instanceData sc)
                  (mkInstanceData 0 0 [] []))
    textures.

(** A mesh of one triangle in the plane [z = 0]. *)
Definition triangleMesh : list Vertex.t * list Z :=
  ([Vertex.mk (mkFloat3 0 0 0) (mkFloat3 0 0 1) (mkFloat3 1 0 0) (0, 0);
    Vertex.mk (mkFloat3 1 0 0) (mkFloat3 0 0 1) (mkFloat3 1 0 0) (1, 0);
    Vertex.mk (mkFloat3 0 1 0) (mkFloat3 0 0 1) (mkFloat3 1 0 0) (0, 1)],
   [0; 1; 2]%Z).

Definition triangleName : String.string := "triangle.gem0"%string.

Definition whiteTextures : Z -> float * float -> float3 :=
  fun _ _ => mkFloat3 1 1 1.

(** ** RTSceneLoader.h: the material of an instance *)

(** What [loadInstance] reads from the material of an instance: the value
    of each lookup it makes. *)
Module Material.
Record t : Type := mk {
  (** [textures->find(reflectanceTextureFilename)] *)
  reflectanceID : Z;
  bsdf : String.string;
  emission : String.string;
  emissionRGB : float3;
  alpha : float;
  intIOR : float;
  extIOR : float;
  roughness : float;
  eta : float3;
  k : float3;
  (** [find("coatingThickness").getValue(0)] *)
  coatingThicknessInt : Z;
  coatingSigmaA : float3;
  coatingIntIOR : float;
  coatingExtIOR : float;
  (** [find("coatingThickness").getValue(0.0f)] *)
  coatingThickness : float
}.
End Material.

(** [a[i] = v] on an array held as a list. *)
Fixpoint set_at (i : nat) (v : float) (l : list float) : list float :=
  match l, i with
  | [], _ => []
  | _ :: t, O => v :: t
  | h :: t, S i' => h :: set_at i' v t
  end.

Definition set_bsdfData (i : nat) (v : float) (d : InstanceData) : InstanceData :=
  mkInstanceData (startIndex d) (bsdfAlbedoID d)
                 (set_at i v (bsdfData d)) (coatingData d).

Definition set_coatingData (i : nat) (v : float) (d : InstanceData)
  : InstanceData :=
  mkInstanceData (startIndex d) (bsdfAlbedoID d)
                 (bsdfData d) (set_at i v (coatingData d)).

(** [InstanceData meshInstanceData;] with its default member values. *)
Definition defaultInstanceData : InstanceData :=
  mkInstanceData 0 0 [0; 0; 0; 0; 0; 0; 0] [0; 0; 0; 0; 0; 0].

(** The instance data that [loadInstance] builds from a material and hands
    to the model manager. *)
Definition loadInstanceData (m : Material.t) : InstanceData :=
  let is_ (name : String.string) := String.eqb (Material.bsdf m) name in
  let d := defaultInstanceData in
  let d := updatetextureID (Material.reflectanceID m) d in
  let d := if is_ "diffuse"%string then updateBSDFType 0 d else d in
  let d :=
    if negb (String.eqb (Material.emission m) String.EmptyString) then
      let d := updateBSDFType 1 d in
      let d := set_bsdfData 0 (vx (Material.emissionRGB m)) d in
      let d := set_bsdfData 1 (vy (Material.emissionRGB m)) d in
      set_bsdfData 2 (vz (Material.emissionRGB m)) d
    else d in
  let d :=
    if is_ "orennayar"%string then
      set_bsdfData 0 (Material.alpha m) (updateBSDFType 2 d)
    else d in
  let d := if is_ "mirror"%string then updateBSDFType 3 d else d in
  let d :=
    if is_ "glass"%string then
      let d := updateBSDFType 4 d in
      let d := set_bsdfData 0 (Material.intIOR m) d in
      set_bsdfData 1 (Material.extIOR m) d
    else d in
  let d :=
    if is_ "plastic"%string then
      let d := updateBSDFType 5 d in
      let d := set_bsdfData 0 (Material.intIOR m) d in
      let d := set_bsdfData 1 (Material.extIOR m) d in
      set_bsdfData 2 (Material.roughness m) d
    else d in
  let d :=
    if is_ "dielectric"%string then
      let d := updateBSDFType 6 d in
      let d := set_bsdfData 0 (Material.intIOR m) d in
      let d := set_bsdfData 1 (Material.extIOR m) d in
      set_bsdfData 2 (Material.roughness m) d
    else d in
  let d :=
    if is_ "conductor"%string then
      let d := updateBSDFType 7 d in
      let d := set_bsdfData 0 (vx (Material.eta m)) d in
      let d := set_bsdfData 1 (vy (Material.eta m)) d in
      let d := set_bsdfData 2 (vz (Material.eta m)) d in
      let d := set_bsdfData 3 (vx (Material.k m)) d in
      let d := set_bsdfData 4 (vy (Material.k m)) d in
      let d := set_bsdfData 5 (vz (Material.k m)) d in
      set_bsdfData 6 (Material.roughness m) d
    else d in
  if (0 <? Material.coatingThicknessInt m)%Z then
    let d := set_coatingData 0 (vx (Material.coatingSigmaA m)) d in
    let d := set_coatingData 1 (vy (Material.coatingSigmaA m)) d in
    let d := set_coatingData 2 (vz (Material.coatingSigmaA m)) d in
    let d := set_coatingData 3 (Material.coatingIntIOR m) d in
    let d := set_coatingData 4 (Material.coatingExtIOR m) d in
    set_coatingData 5 (Material.coatingThickness m) d
  else d.

(** The number that [loadInstance] passes to [updateBSDFType] for the name
    of a BSDF; a name it does not know passes none. *)
Definition bsdfNumber (name : String.string) : Z :=
  if String.eqb name "orennayar"%string then 2
  else if String.eqb name "mirror"%string then 3
  else if String.eqb name "glass"%string then 4
  else if String.eqb name "plastic"%string then 5
  else if String.eqb name "dielectric"%string then 6
  else if String.eqb name "conductor"%string then 7
  else 0.

(** An emissive material with the bsdf name orennayar. *)
Definition glowingMaterial : Material.t :=
  Material.mk 0 "orennayar"%string "5,5,5"%string (mkFloat3 5 5 5)
              (1 / 2) 1.33 1 1 (mkFloat3 0 0 0) (mkFloat3 0 0 0)
              0 (mkFloat3 0 0 0) 1.33 1 0.

(** ** Shaders.h: [ConstantBuffer] *)

(** [unsigned int alignedSize = (sizeInBytes + 255) & ~255;] *)
Definition alignedSize (sizeInBytes : Z) : Z :=
  Z.land (Sampler.u32 (sizeInBytes + 255)) (Sampler.u32 (Z.lnot 255)).

Module ConstantBuffer.

(** [ConstantBufferVariable] *)
Record Var : Type := mkVar {
  offset : Z;
  size : Z
}.

(** The buffer in system memory, as bytes, and the mapped resource [cb]
    that the shaders read. *)
Record t : Type := mk {
  constantBufferData : list (String.string * Var);
  buffer : list Z;
  cb : list Z;
  cbSizeInBytes : Z;
  dirty : Z
}.

Fixpoint lookup (m : list (String.string * Var)) (name : String.string)
  : option Var :=
  match m with
  | [] => None
  | (k, v) :: m' => if String.eqb k name then Some v else lookup m' name
  end.

(** [memcpy(&dst[offset], src, n)]; [None] where the copy would leave
    either array. *)
Definition memcpy (dst : list Z) (offset : Z) (src : list Z) (n : Z)
  : option (list Z) :=
  if ((0 <=? offset) && (0 <=? n)
      && (offset + n <=? Z.of_nat (length dst))
      && (n <=? Z.of_nat (length src)))%Z
  then Some (firstn (Z.to_nat offset) dst
             ++ firstn (Z.to_nat n) src
             ++ skipn (Z.to_nat (offset + n)) dst)
  else None.

(** [update]: a name that is not in [constantBufferData] is entered there
    with offset 0 and size 0. *)
Definition update (name : String.string) (data : list Z) (c : t) : option t :=
  let '(cbVariable, vars) :=
    match lookup (constantBufferData c) name with
    | Some v => (v, constantBufferData c)
    | None => (mkVar 0 0, constantBufferData c ++ [(name, mkVar 0 0)])
    end in
  match memcpy (buffer c) (offset cbVariable) data (size cbVariable) with
  | Some b => Some (mk vars b (cb c) (cbSizeInBytes c) 1)
  | None => None
  end.

(** [upload]: the value returned and the buffer afterwards. *)
Definition upload (c : t) : option (Z * t) :=
  if (dirty c =? 1)%Z then
    match memcpy (cb c) 0 (buffer c) (cbSizeInBytes c) with
    | Some mapped =>
        Some (1%Z, mk (constantBufferData c) (buffer c) mapped
                      (cbSizeInBytes c) 0)
    | None => None
    end
  else Some (0%Z, c).

End ConstantBuffer.

(** A constant buffer of 8 bytes with a variable of 4 bytes at offset 4. *)
Definition smallBuffer : ConstantBuffer.t :=
  ConstantBuffer.mk
    [("SPP"%string, ConstantBuffer.mkVar 4 4)]
    [0; 0; 0; 0; 0; 0; 0; 0]%Z [0; 0; 0; 0; 0; 0; 0; 0]%Z 8 0.


(** ** Math.h: [Vec3] and [Matrix] *)

Module Vec3.

(** [Vec3::normalize]: multiplication by the inverse length. *)
Definition normalize (v : float3) : float3 :=
  let l := 1 / sqrt (vx v * vx v + vy v * vy v + vz v * vz v) in
  mkFloat3 (vx v * l) (vy v * l) (vz v * l).

End Vec3.

(** [Matrix]: the sixteen floats [m[0..15]]; [a[r][c]] is [m[4 * r + c]]. *)
Module Matrix.

Record t : Type := mk {
  m0 : float; m1 : float; m2 : float; m3 : float;
  m4 : float; m5 : float; m6 : float; m7 : float;
  m8 : float; m9 : float; m10 : float; m11 : float;
  m12 : float; m13 : float; m14 : float; m15 : float
}.

Definition identity : t := mk 1 0 0 0  0 1 0 0  0 0 1 0  0 0 0 1.

Definition transpose (a : t) : t :=
  mk (m0 a) (m4 a) (m8 a) (m12 a)
     (m1 a) (m5 a) (m9 a) (m13 a)
     (m2 a) (m6 a) (m10 a) (m14 a)
     (m3 a) (m7 a) (m11 a) (m15 a).

Definition translation (v : float3) : t :=
  mk 1 0 0 (vx v)  0 1 0 (vy v)  0 0 1 (vz v)  0 0 0 1.

Definition scaling (v : float3) : t :=
  mk (vx v) 0 0 0  0 (vy v) 0 0  0 0 (vz v) 0  0 0 0 1.

(** [a.mul(matrix)] *)
Definition mul (a matrix : t) : t :=
  mk
    (m0 a * m0 matrix + m4 a * m1 matrix + m8 a * m2 matrix + m12 a * m3 matrix)
    (m1 a * m0 matrix + m5 a * m1 matrix + m9 a * m2 matrix + m13 a * m3 matrix)
    (m2 a * m0 matrix + m6 a * m1 matrix + m10 a * m2 matrix + m14 a * m3 matrix)
    (m3 a * m0 matrix + m7 a * m1 matrix + m11 a * m2 matrix + m15 a * m3 matrix)
    (m0 a * m4 matrix + m4 a * m5 matrix + m8 a * m6 matrix + m12 a * m7 matrix)
    (m1 a * m4 matrix + m5 a * m5 matrix + m9 a * m6 matrix + m13 a * m7 matrix)
    (m2 a * m4 matrix + m6 a * m5 matrix + m10 a * m6 matrix + m14 a * m7 matrix)
    (m3 a * m4 matrix + m7 a * m5 matrix + m11 a * m6 matrix + m15 a * m7 matrix)
    (m0 a * m8 matrix + m4 a * m9 matrix + m8 a * m10 matrix + m12 a * m11 matrix)
    (m1 a * m8 matrix + m5 a * m9 matrix + m9 a * m10 matrix + m13 a * m11 matrix)
    (m2 a * m8 matrix + m6 a * m9 matrix + m10 a * m10 matrix + m14 a * m11 matrix)
    (m3 a * m8 matrix + m7 a * m9 matrix + m11 a * m10 matrix + m15 a * m11 matrix)
    (m0 a * m12 matrix + m4 a * m13 matrix + m8 a * m14 matrix + m12 a * m15 matrix)
    (m1 a * m12 matrix + m5 a * m13 matrix + m9 a * m14 matrix + m13 a * m15 matrix)
    (m2 a * m12 matrix + m6 a * m13 matrix + m10 a * m14 matrix + m14 a * m15 matrix)
    (m3 a * m12 matrix + m7 a * m13 matrix + m11 a * m14 matrix + m15 a * m15 matrix).

Definition mulVec (a : t) (v : float3) : float3 :=
  mkFloat3 (vx v * m0 a + vy v * m1 a + vz v * m2 a)
           (vx v * m4 a + vy v * m5 a + vz v * m6 a)
           (vx v * m8 a + vy v * m9 a + vz v * m10 a).

Definition mulPoint (a : t) (v : float3) : float3 :=
  let v1 :=
    mkFloat3 ((vx v * m0 a + vy v * m1 a + vz v * m2 a) + m3 a)
             ((vx v * m4 a + vy v * m5 a + vz v * m6 a) + m7 a)
             ((vx v * m8 a + vy v * m9 a + vz v * m10 a) + m11 a) in
  let w := (m12 a * vx v) + (m13 a * vy v) + (m14 a * vz v) + m15 a in
  let w := 1 / w in
  Vec.scale v1 w.

(** The sixteen products that [invert] computes before it divides. *)
Definition cofactors (m : t) : t :=
  let m0 := m0 m in
  let m1 := m1 m in
  let m2 := m2 m in
  let m3 := m3 m in
  let m4 := m4 m in
  let m5 := m5 m in
  let m6 := m6 m in
  let m7 := m7 m in
  let m8 := m8 m in
  let m9 := m9 m in
  let m10 := m10 m in
  let m11 := m11 m in
  let m12 := m12 m in
  let m13 := m13 m in
  let m14 := m14 m in
  let m15 := m15 m in
  let inv0 :=
    m5 * m10 * m15 - m5 * m11 * m14 - m9 * m6 * m15 + m9 * m7 * m14 +
    m13 * m6 * m11 - m13 * m7 * m10 in
  let inv4 :=
    - m4 * m10 * m15 + m4 * m11 * m14 + m8 * m6 * m15 - m8 * m7 * m14 -
    m12 * m6 * m11 + m12 * m7 * m10 in
  let inv8 :=
    m4 * m9 * m15 - m4 * m11 * m13 - m8 * m5 * m15 + m8 * m7 * m13 +
    m12 * m5 * m11 - m12 * m7 * m9 in
  let inv12 :=
    - m4 * m9 * m14 + m4 * m10 * m13 + m8 * m5 * m14 - m8 * m6 * m13 -
    m12 * m5 * m10 + m12 * m6 * m9 in
  let inv1 :=
    - m1 * m10 * m15 + m1 * m11 * m14 + m9 * m2 * m15 - m9 * m3 * m14 -
    m13 * m2 * m11 + m13 * m3 * m10 in
  let inv5 :=
    m0 * m10 * m15 - m0 * m11 * m14 - m8 * m2 * m15 + m8 * m3 * m14 +
    m12 * m2 * m11 - m12 * m3 * m10 in
  let inv9 :=
    - m0 * m9 * m15 + m0 * m11 * m13 + m8 * m1 * m15 - m8 * m3 * m13 -
    m12 * m1 * m11 + m12 * m3 * m9 in
  let inv13 :=
    m0 * m9 * m14 - m0 * m10 * m13 - m8 * m1 * m14 + m8 * m2 * m13 +
    m12 * m1 * m10 - m12 * m2 * m9 in
  let inv2 :=
    m1 * m6 * m15 - m1 * m7 * m14 - m5 * m2 * m15 + m5 * m3 * m14 +
    m13 * m2 * m7 - m13 * m3 * m6 in
  let inv6 :=
    - m0 * m6 * m15 + m0 * m7 * m14 + m4 * m2 * m15 - m4 * m3 * m14 -
    m12 * m2 * m7 + m12 * m3 * m6 in
  let inv10 :=
    m0 * m5 * m15 - m0 * m7 * m13 - m4 * m1 * m15 + m4 * m3 * m13 +
    m12 * m1 * m7 - m12 * m3 * m5 in
  let inv14 :=
    - m0 * m5 * m14 + m0 * m6 * m13 + m4 * m1 * m14 - m4 * m2 * m13 -
    m12 * m1 * m6 + m12 * m2 * m5 in
  let inv3 :=
    - m1 * m6 * m11 + m1 * m7 * m10 + m5 * m2 * m11 - m5 * m3 * m10 -
    m9 * m2 * m7 + m9 * m3 * m6 in
  let inv7 :=
    m0 * m6 * m11 - m0 * m7 * m10 - m4 * m2 * m11 + m4 * m3 * m10 + m8
    * m2 * m7 - m8 * m3 * m6 in
  let inv11 :=
    - m0 * m5 * m11 + m0 * m7 * m9 + m4 * m1 * m11 - m4 * m3 * m9 - m8
    * m1 * m7 + m8 * m3 * m5 in
  let inv15 :=
    m0 * m5 * m10 - m0 * m6 * m9 - m4 * m1 * m10 + m4 * m2 * m9 + m8 *
    m1 * m6 - m8 * m2 * m5 in
  mk inv0 inv1 inv2 inv3 inv4 inv5 inv6 inv7 inv8 inv9 inv10 inv11
     inv12 inv13 inv14 inv15.

(** [float det] of [invert]. *)
Definition det (m : t) : float :=
  let inv := cofactors m in
  m0 m * m0 inv + m1 m * m4 inv + m2 m * m8 inv + m3 m * m12 inv.

(** [invert]: [None] where the program exits because [det == 0]. *)
Definition invert (m : t) : option t :=
  let inv := cofactors m in
  let det := det m in
  if Req_EM_T det 0 then None
  else
    let det := 1 / det in
    Some (mk (m0 inv * det) (m1 inv * det) (m2 inv * det) (m3 inv * det)
             (m4 inv * det) (m5 inv * det) (m6 inv * det) (m7 inv * det)
             (m8 inv * det) (m9 inv * det) (m10 inv * det) (m11 inv * det)
             (m12 inv * det) (m13 inv * det) (m14 inv * det) (m15 inv * det)).

Definition lookAt (from to up : float3) : t :=
  let dir := Vec3.normalize (Vec.sub from to) in
  let left := Vec3.normalize (Vec.cross up dir) in
  let newUp := Vec.cross dir left in
  mk (vx left) (vy left) (vz left) (- Vec.dot from left)
     (vx newUp) (vy newUp) (vz newUp) (- Vec.dot from newUp)
     (vx dir) (vy dir) (vz dir) (- Vec.dot from dir)
     0 0 0 1.

Definition rotateAxis (axis : float3) (angle : float) : t :=
  let u := Vec3.normalize axis in
  let c := cos angle in
  let s := sin angle in
  let t := 1 - c in
  mk (t * vx u * vx u + c) (t * vx u * vy u + s * vz u)
     (t * vx u * vz u - s * vy u) 0
     (t * vx u * vy u - s * vz u) (t * vy u * vy u + c)
     (t * vy u * vz u + s * vx u) 0
     (t * vx u * vz u + s * vy u) (t * vy u * vz u - s * vx u)
     (t * vz u * vz u + c) 0
     0 0 0 1.


End Matrix.


(** ** Camera.h *)

Module HostCamera.

Record t : Type := mk {
  projection : Matrix.t;
  inverseProjection : Matrix.t;
  view : Matrix.t;
  inverseView : Matrix.t;
  position : float3;
  forward : float3;
  up : float3;
  moveSpeed : float;
  width : Z;
  height : Z
}.







End HostCamera.



(** Instance data whose [bsdfAlbedoID] holds the kind [a] over the low 16
    bits of [id]. *)
Definition coded (id a : Z) (d : InstanceData) : Prop :=
  bsdfAlbedoID d = Z.lor (Z.land id 65535) (Z.shiftl a 16) /\
  (0 <= a < 2 ^ 16)%Z.

(** Case analysis on comparisons of names. *)
Ltac name_cases :=
  repeat match goal with
    | |- context [String.eqb ?a ?c] =>
        destruct (String.eqb_spec a c); try discriminate; subst
    end.

(** * Properties *)

Local Open Scope Z_scope.

(** *** Facts about the sampler *)

Lemma u32_range (x : Z) : 0 <= Sampler.u32 x < 2 ^ 32.
Proof. unfold Sampler.u32. apply Z.mod_pos_bound. reflexivity. Qed.

Lemma round24_small (m : Z) : m < 2 ^ 24 -> Sampler.round24 m = m.
Proof.
  intros H. unfold Sampler.round24.
  destruct (Z.ltb_spec m (2 ^ 24)); [reflexivity | lia].
Qed.

Lemma round24_bounds (m : Z) (k : Z) :
  24 <= k -> 0 <= m < 2 ^ k -> 0 <= Sampler.round24 m <= 2 ^ k.
Proof.
  intros Hk [H0 Hm]. unfold Sampler.round24.
  destruct (Z.ltb_spec m (2 ^ 24)) as [Hs | Hl].
  - split; [assumption | lia].
  - assert (Hpos : 0 < m) by lia.
    destruct (Z.log2_spec m Hpos) as [Hlo Hhi].
    assert (Hlog : 24 <= Z.log2 m).
    { apply Z.log2_le_pow2; [assumption | exact Hl]. }
    assert (Hlogk : Z.log2 m < k).
    { apply Z.log2_lt_pow2; assumption. }
    set (e := Z.log2 m - 23) in *.
    assert (He : 1 <= e) by (unfold e; lia).
    rewrite Z.shiftr_div_pow2 by lia.
    rewrite Z.shiftl_mul_pow2 by lia.
    assert (Hpe : 0 < 2 ^ e) by (apply Z.pow_pos_nonneg; lia).
    assert (Hq : 0 <= m / 2 ^ e < 2 ^ 24).
    { split; [apply Z.div_pos; lia |].
      apply Z.div_lt_upper_bound; [assumption |].
      rewrite <- Z.pow_add_r by lia.
      replace (e + 24) with (Z.succ (Z.log2 m)) by (unfold e; lia).
      exact Hhi. }
    assert (Hke : 2 ^ 24 * 2 ^ e <= 2 ^ k).
    { rewrite <- Z.pow_add_r by lia.
      apply Z.pow_le_mono_r; [lia | unfold e; lia]. }
    destruct ((_ <? _) || _); nia.
Qed.

Lemma rnd_bits_range (s : Z) : 0 <= Sampler.rnd_bits s < 2 ^ 32.
Proof.
  unfold Sampler.rnd_bits.
  set (word := Sampler.u32 _).
  assert (Hw : 0 <= word < 2 ^ 32) by apply u32_range.
  assert (Hs : 0 <= Z.shiftr word 22) by (apply Z.shiftr_nonneg; lia).
  split.
  - apply Z.lxor_nonneg. lia.
  - destruct (Z.eq_dec (Z.lxor (Z.shiftr word 22) word) 0) as [-> | Hnz];
      [reflexivity |].
    assert (Hx : 0 <= Z.lxor (Z.shiftr word 22) word)
      by (apply Z.lxor_nonneg; lia).
    apply Z.log2_lt_pow2; [lia |].
    eapply Z.le_lt_trans; [apply Z.log2_lxor; lia |].
    apply Z.max_lub_lt.
    + destruct (Z.eq_dec (Z.shiftr word 22) 0) as [-> | Hn]; [reflexivity |].
      apply Z.log2_lt_pow2; [lia |].
      rewrite Z.shiftr_div_pow2 by lia.
      apply Z.div_lt_upper_bound; [reflexivity | lia].
    + destruct (Z.eq_dec word 0) as [-> | Hn]; [reflexivity |].
      apply Z.log2_lt_pow2; lia.
Qed.

(** The numerator of a draw never exceeds [2^32]: [rnd] lies in [[0,1]]. *)
Lemma rnd_num_range (s : Z) : 0 <= Sampler.rnd_num s <= 2 ^ 32.
Proof.
  unfold Sampler.rnd_num, Sampler.utof.
  apply round24_bounds; [lia | apply rnd_bits_range].
Qed.

(** The sampler is a function of its state: equal seeds give equal
    sequences of any length. *)
Lemma rnd_seq_deterministic (n : nat) (seed1 seed2 : Z) :
  seed1 = seed2 -> Sampler.rnd_seq n seed1 = Sampler.rnd_seq n seed2.
Proof. intros ->. reflexivity. Qed.

(** Every draw is a rational in the closed interval [[0,1]]. *)
Lemma rnd_closed_unit (s : Z) :
  (0 <= fst (Sampler.rnd s) <= 1)%Q.
Proof.
  destruct (rnd_num_range s) as [H0 H1].
  unfold Sampler.rnd, fst, Qle, Qnum, Qden.
  change (Z.pos 4294967296) with (2 ^ 32). split; lia.
Qed.

(** The state that [rnd] leaves is again a 32-bit value. *)
Lemma rnd_state_range (s : Z) : 0 <= snd (Sampler.rnd s) < 2 ^ 32.
Proof. unfold Sampler.rnd, snd. apply u32_range. Qed.

Lemma round24_top (m : Z) :
  2 ^ 31 <= m < 2 ^ 32 ->
  Sampler.round24 m =
    (if (128 <? m mod 256) || ((m mod 256 =? 128) && Z.odd (m / 256))
     then m / 256 + 1 else m / 256) * 256.
Proof.
  intros [Hlo Hhi]. unfold Sampler.round24.
  destruct (Z.ltb_spec m (2 ^ 24)) as [Hs | _]; [lia |].
  assert (Hlog : Z.log2 m = 31) by (apply Z.log2_unique; lia).
  rewrite Hlog. change (31 - 23) with 8. change (2 ^ (8 - 1)) with 128.
  rewrite Z.shiftr_div_pow2, Z.land_ones, Z.shiftl_mul_pow2 by lia.
  reflexivity.
Qed.

(** The conversion of a 32-bit integer to binary32 reaches [2^32] exactly on
    the 128 largest integers. *)
Lemma round24_below (m : Z) :
  0 <= m < 2 ^ 32 -> (Sampler.round24 m < 2 ^ 32 <-> m < 2 ^ 32 - 128).
Proof.
  intros [H0 Hm].
  destruct (Z.lt_ge_cases m (2 ^ 31)) as [Hs | Hl].
  - pose proof (round24_bounds m 31 ltac:(lia) ltac:(lia)). lia.
  - rewrite round24_top by lia.
    pose proof (Z.div_mod m 256 ltac:(lia)) as Hdm.
    pose proof (Z.mod_pos_bound m 256 ltac:(lia)) as Hr.
    destruct (Z.ltb_spec 128 (m mod 256)) as [Hgt | Hle]; cbn [orb].
    + lia.
    + destruct (Z.eqb_spec (m mod 256) 128) as [He | Hne]; cbn [andb].
      * destruct (Z.odd (m / 256)) eqn:Hodd; [lia |].
        split; [| lia]. intros _.
        destruct (Z.eq_dec (m / 256) (2 ^ 24 - 1)) as [Hq | Hq]; [| lia].
        rewrite Hq in Hodd. discriminate Hodd.
      * lia.
Qed.

(** A draw is below 1 exactly when the 32-bit output of the generator is
    below [0xFFFFFF80]. *)
Lemma rnd_below_one_iff (s : Z) :
  (fst (Sampler.rnd s) < 1)%Q <-> Sampler.rnd_bits s < 4294967168.
Proof.
  unfold Sampler.rnd, fst, Qlt, Qnum, Qden.
  change (Z.pos 4294967296) with (2 ^ 32).
  change 4294967168 with (2 ^ 32 - 128).
  rewrite <- (round24_below (Sampler.rnd_bits s) (rnd_bits_range s)).
  unfold Sampler.rnd_num, Sampler.utof. lia.
Qed.

(** C9. [rnd] is documented to return a float in [[0,1)], but from the
    state 60418823 the 32-bit output is 4294967184, which the conversion to
    binary32 rounds up to [2^32]: the call returns exactly 1. *)
Theorem rnd_returns_one :
  Sampler.rnd_bits 60418823 = 4294967184 /\
  Sampler.utof 4294967184 = 4294967296 /\
  (fst (Sampler.rnd 60418823) == 1)%Q /\
  ~ (fst (Sampler.rnd 60418823) < 1)%Q.
Proof.
  split; [vm_compute; reflexivity |].
  split; [vm_compute; reflexivity |].
  split; [vm_compute; reflexivity |].
  intros H. vm_compute in H. discriminate H.
Qed.

(** C10. With one light and the sampler state 60418823, the index computed
    by [sampleLight] is 1, which is not below [nLights]. *)
Theorem lightIndex_reaches_nLights :
  fst (Sampler.lightIndex 1 60418823) = 1 /\
  ~ (fst (Sampler.lightIndex 1 60418823) < 1).
Proof.
  split; [vm_compute; reflexivity |].
  intros H. vm_compute in H. discriminate H.
Qed.

(** ** Flags *)

Lemma land_bit_cases (f k : Z) :
  0 <= k -> Z.land f (2 ^ k) = 0 \/ Z.land f (2 ^ k) = 2 ^ k.
Proof.
  intros Hk.
  destruct (Z.testbit f k) eqn:Hb; [right | left]; apply Z.bits_inj'; intros n Hn;
    rewrite Z.land_spec; destruct (Z.eq_dec n k) as [-> | Hne].
  - rewrite Hb. reflexivity.
  - rewrite (Z.pow2_bits_false k n) by lia. apply andb_false_r.
  - rewrite Hb, Z.bits_0. reflexivity.
  - rewrite (Z.pow2_bits_false k n) by lia. rewrite Z.bits_0. apply andb_false_r.
Qed.

Lemma decodeIsSpecular_testbit (f : Z) : decodeIsSpecular f = Z.testbit f 1.
Proof.
  unfold decodeIsSpecular.
  assert (Hb : Z.testbit (Z.land f 2) 1 = Z.testbit f 1).
  { rewrite Z.land_spec. change 2 with (2 ^ 1) at 1.
    rewrite Z.pow2_bits_true by lia. apply andb_true_r. }
  destruct (land_bit_cases f 1 ltac:(lia)) as [H | H]; change (2 ^ 1) with 2 in H;
    rewrite H in *; rewrite <- Hb; reflexivity.
Qed.

Lemma decodeIsShadow_testbit (f : Z) : decodeIsShadow f = Z.testbit f 2.
Proof.
  unfold decodeIsShadow.
  assert (Hb : Z.testbit (Z.land f 4) 2 = Z.testbit f 2).
  { rewrite Z.land_spec. change 4 with (2 ^ 2) at 1.
    rewrite Z.pow2_bits_true by lia. apply andb_true_r. }
  destruct (land_bit_cases f 2 ltac:(lia)) as [H | H]; change (2 ^ 2) with 4 in H;
    rewrite H in *; rewrite <- Hb; reflexivity.
Qed.

Lemma decodeIsShadow_encodeIsShadow (f : Z) :
  decodeIsShadow (encodeIsShadow f) = true.
Proof.
  rewrite decodeIsShadow_testbit. unfold encodeIsShadow.
  rewrite Z.lor_spec. apply orb_true_r.
Qed.

Lemma decodeIsSpecular_encodeIsSpecular (f : Z) :
  decodeIsSpecular (encodeIsSpecular f) = true.
Proof.
  rewrite decodeIsSpecular_testbit. unfold encodeIsSpecular.
  rewrite Z.lor_spec. apply orb_true_r.
Qed.

Lemma decodeIsSpecular_clearSpecular (f : Z) :
  decodeIsSpecular (clearSpecular f) = false.
Proof.
  rewrite decodeIsSpecular_testbit. unfold clearSpecular.
  rewrite Z.land_spec. apply andb_false_r.
Qed.

Lemma decodeIsShadow_encodeIsSpecular (f : Z) :
  decodeIsShadow (encodeIsSpecular f) = decodeIsShadow f.
Proof.
  rewrite !decodeIsShadow_testbit. unfold encodeIsSpecular.
  rewrite Z.lor_spec. apply orb_false_r.
Qed.

Lemma decodeIsShadow_clearSpecular (f : Z) :
  decodeIsShadow (clearSpecular f) = decodeIsShadow f.
Proof.
  rewrite !decodeIsShadow_testbit. unfold clearSpecular.
  rewrite Z.land_spec. apply andb_true_r.
Qed.

(** ** The miss shader *)

(** C3. A ray that leaves the scene runs [Miss] and nothing else: the path
    ends after this one segment.  When the payload is not a shadow probe the
    environment radiance, weighted by the throughput, is added to the
    colour exactly when the depth is 0 or the specular flag is set; the
    colour of a shadow probe is left as it is. *)
Theorem Miss_environment_gate (scene : Scene.t) (fuel : nat) (ray : RayDesc)
  (p : Payload) (Hmiss : Scene.intersect scene ray = None) :
  let p' := Miss scene (Direction ray) p in
  TraceRay scene (S fuel) ray p = Some p' /\
  segments scene (S fuel) ray p = 1%nat /\
  colour p' =
    (if decodeIsShadow (flags p) then colour p
     else if (depth p =? 0) || decodeIsSpecular (flags p)
          then Vec.add (colour p)
                 (Vec.mul (pathThroughput p)
                          (Scene.evaluateEnvironmentMap scene (Direction ray)))
          else colour p) /\
  (colour p' <> colour p ->
     decodeIsShadow (flags p) = false /\
     (depth p = 0 \/ decodeIsSpecular (flags p) = true)).
Proof.
  intros p'. subst p'. simpl. rewrite Hmiss.
  split; [reflexivity |]. split; [reflexivity |].
  unfold Miss.
  destruct (decodeIsShadow (flags p)); simpl.
  - split; [reflexivity |]. intros H. now elim H.
  - destruct (Z.eqb_spec (depth p) 0) as [Hd | Hd]; simpl.
    + split; [reflexivity |]. intros _. split; [reflexivity | now left].
    + destruct (decodeIsSpecular (flags p)); simpl.
      * split; [reflexivity |]. intros _. split; [reflexivity | now right].
      * split; [reflexivity |]. intros H. now elim H.
Qed.

Lemma Miss_environment_gate_witness :
  Scene.intersect skyScene zRay = None /\
  (let p' := Miss skyScene (Direction zRay) (initialPayload (0, 0) 0) in
   TraceRay skyScene 1 zRay (initialPayload (0, 0) 0) = Some p' /\
   segments skyScene 1 zRay (initialPayload (0, 0) 0) = 1%nat /\
   colour p' =
     (if decodeIsShadow (flags (initialPayload (0, 0) 0))
      then colour (initialPayload (0, 0) 0)
      else if (depth (initialPayload (0, 0) 0) =? 0)
              || decodeIsSpecular (flags (initialPayload (0, 0) 0))
           then Vec.add (colour (initialPayload (0, 0) 0))
                  (Vec.mul (pathThroughput (initialPayload (0, 0) 0))
                           (Scene.evaluateEnvironmentMap skyScene (Direction zRay)))
           else colour (initialPayload (0, 0) 0)) /\
   (colour p' <> colour (initialPayload (0, 0) 0) ->
      decodeIsShadow (flags (initialPayload (0, 0) 0)) = false /\
      (depth (initialPayload (0, 0) 0) = 0 \/
       decodeIsSpecular (flags (initialPayload (0, 0) 0)) = true))).
Proof.
  split; [reflexivity |].
  apply (Miss_environment_gate skyScene 0 zRay (initialPayload (0, 0) 0)).
  reflexivity.
Defined.

(** A primary ray that leaves a scene with a uniform environment of
    radiance (0.5, 0.5, 0.5) returns exactly that radiance. *)
Lemma primary_miss_returns_environment (idx : Z * Z) (sppBits : Z) :
  option_map colour (TraceRay skyScene 1 zRay (initialPayload idx sppBits))
  = Some (mkFloat3 0.5 0.5 0.5).
Proof.
  cbn [TraceRay Scene.intersect skyScene option_map]. f_equal.
  unfold Miss, initialPayload.
  cbn [flags depth colour pathThroughput set_colour Z.eqb orb].
  replace (decodeIsShadow 0) with false by reflexivity.
  cbn [negb colour set_colour].
  unfold Vec.add, Vec.mul, skyScene.
  cbn [Scene.evaluateEnvironmentMap vx vy vz]. f_equal; unfold float; ring.
Qed.

(** A miss after a specular bounce adds the environment; a miss after a
    non-specular bounce, at a depth other than 0, adds nothing. *)
Lemma Miss_after_bounce (scene : Scene.t) (rd : float3) (p : Payload) :
  decodeIsShadow (flags p) = false ->
  colour (Miss scene rd (set_flags (encodeIsSpecular (flags p)) p)) =
    Vec.add (colour p)
            (Vec.mul (pathThroughput p) (Scene.evaluateEnvironmentMap scene rd)) /\
  (depth p <> 0 ->
   colour (Miss scene rd (set_flags (clearSpecular (flags p)) p)) = colour p).
Proof.
  intros Hs. unfold Miss. cbn [flags depth colour pathThroughput set_flags].
  rewrite decodeIsShadow_encodeIsSpecular, decodeIsShadow_clearSpecular, Hs.
  rewrite decodeIsSpecular_encodeIsSpecular, decodeIsSpecular_clearSpecular.
  cbn [negb]. rewrite orb_true_r, orb_false_r. split; [reflexivity |].
  intros Hd. destruct (Z.eqb_spec (depth p) 0) as [H0 | _]; [contradiction |].
  reflexivity.
Qed.

(** ** Depth of a path *)

Lemma russianRoulette_depth (p : Payload) :
  depth (fst (russianRoulette p)) = depth p.
Proof.
  unfold russianRoulette.
  destruct (3 <? depth p); [| reflexivity].
  destruct (draw (rndState p)) as [u s'].
  destruct (Rltb u _ || _); reflexivity.
Qed.

Lemma russianRoulette_depth7 (p : Payload) :
  depth p = 7 -> snd (russianRoulette p) = true.
Proof.
  intros H. unfold russianRoulette. rewrite H. simpl.
  destruct (draw (rndState p)) as [u s']. simpl. rewrite H.
  rewrite orb_true_r. reflexivity.
Qed.

Lemma scatter_depth (scene : Scene.t) (h : HitData) (rd : float3) (p : Payload) :
  match snd (scatter scene h rd p) with
  | Some _ => depth (fst (scatter scene h rd p)) = Sampler.u32 (depth p + 1)
  | None => depth (fst (scatter scene h rd p)) = depth p
  end.
Proof.
  unfold scatter.
  destruct (sampleBSDF scene rd h (rndState p)) as [[[[wi ind] pdf] spec] s'].
  destruct (Rleb pdf 0); simpl; [reflexivity |].
  destruct spec; reflexivity.
Qed.

(** The handler traces a further ray only below depth 6, and then the depth
    has been incremented; otherwise the depth is left as it was. *)
Lemma ClosestHit_depth (scene : Scene.t) (h : HitData) (rd : float3) (p : Payload) :
  match snd (ClosestHit scene h rd p) with
  | Some _ =>
      depth p <> 6 /\ depth p <> 7 /\
      depth (fst (ClosestHit scene h rd p)) = Sampler.u32 (depth p + 1)
  | None => depth (fst (ClosestHit scene h rd p)) = depth p
  end.
Proof.
  unfold ClosestHit.
  destruct (isLight h && _); [reflexivity |].
  destruct (calculateDirect scene h rd (rndState p)) as [direct s'].
  set (p1 := set_colour _ _).
  assert (Hp1 : depth p1 = depth p) by reflexivity.
  destruct (Z.eqb_spec (depth p1) 6) as [H6 | H6]; [exact Hp1 |].
  pose proof (russianRoulette_depth p1) as Hrr.
  pose proof (russianRoulette_depth7 p1) as Hrr7.
  destruct (russianRoulette p1) as [p2 stop]. simpl in Hrr, Hrr7.
  destruct stop; [simpl; congruence |].
  pose proof (scatter_depth scene h rd p2) as Hsc.
  destruct (snd (scatter scene h rd p2)).
  - split; [congruence |]. split; [| congruence].
    intros H7. rewrite <- Hp1 in H7. specialize (Hrr7 H7). discriminate.
  - congruence.
Qed.

(** From a depth of at most 6, a path ends within [7 - depth] segments, and
    its depth counter stays at most 6. *)
Lemma TraceRay_terminates (scene : Scene.t) (fuel : nat) :
  forall (ray : RayDesc) (p : Payload),
    0 <= depth p <= 6 -> 7 - depth p <= Z.of_nat fuel ->
    exists p',
      TraceRay scene fuel ray p = Some p' /\
      depth p <= depth p' <= 6 /\
      (1 <= Z.of_nat (segments scene fuel ray p) <= 7 - depth p).
Proof.
  induction fuel as [| fuel IH]; intros ray p Hd Hf; [lia |].
  cbn [TraceRay segments].
  destruct (Scene.intersect scene ray) as [h |].
  - pose proof (ClosestHit_depth scene h (Direction ray) p) as Hc.
    destruct (ClosestHit scene h (Direction ray) p) as [p1 next].
    simpl in Hc. destruct next as [ray' |].
    + destruct Hc as (H6 & _ & Hp1).
      assert (Hu : Sampler.u32 (depth p + 1) = depth p + 1).
      { unfold Sampler.u32. apply Z.mod_small. lia. }
      rewrite Hu in Hp1.
      destruct (IH ray' p1) as (p' & Ht & Hd' & Hs); [lia | lia |].
      exists p'. split; [exact Ht |]. split; lia.
    + exists p1. split; [reflexivity |]. split; lia.
  - eexists. split; [reflexivity |].
    split; [| lia].
    unfold Miss. destruct (negb _); [destruct (_ || _) |]; simpl; lia.
Qed.

(** C5. At depth 6, and at depth 7, the closest-hit handler returns without
    tracing a further ray, whatever it hit.  Hence a path whose depth
    counter is between 0 and 6 ends after at most [7 - depth] segments, with
    the counter still at most 6; any larger recursion budget, such as the 8
    of the pipeline, gives the same result. *)
Theorem path_depth_bounded (scene : Scene.t) (h : HitData) (ray : RayDesc)
  (p : Payload) (Hd : 0 <= depth p <= 6) :
  snd (ClosestHit scene h (Direction ray) (set_depth 6 p)) = None /\
  snd (ClosestHit scene h (Direction ray) (set_depth 7 p)) = None /\
  exists p',
    TraceRay scene (Z.to_nat (7 - depth p)) ray p = Some p' /\
    depth p <= depth p' <= 6 /\
    1 <= Z.of_nat (segments scene (Z.to_nat (7 - depth p)) ray p) <= 7 - depth p /\
    forall fuel,
      7 - depth p <= Z.of_nat fuel -> TraceRay scene fuel ray p = Some p'.
Proof.
  split; [| split].
  - pose proof (ClosestHit_depth scene h (Direction ray) (set_depth 6 p)) as Hc.
    destruct (snd (ClosestHit scene h (Direction ray) (set_depth 6 p)));
      [| reflexivity].
    destruct Hc as (H6 & _). now elim H6.
  - pose proof (ClosestHit_depth scene h (Direction ray) (set_depth 7 p)) as Hc.
    destruct (snd (ClosestHit scene h (Direction ray) (set_depth 7 p)));
      [| reflexivity].
    destruct Hc as (_ & H7 & _). now elim H7.
  - destruct (TraceRay_terminates scene (Z.to_nat (7 - depth p)) ray p Hd)
      as (p' & Ht & Hd' & Hs); [lia |].
    exists p'. repeat split; try lia; try exact Ht.
    intros fuel Hf.
    assert (Hmono : forall n m r q q',
               TraceRay scene n r q = Some q' -> (n <= m)%nat ->
               TraceRay scene m r q = Some q').
    { induction n as [| n IHn]; intros m r q q' Hn Hle; [discriminate |].
      destruct m as [| m]; [lia |]. simpl in *.
      destruct (Scene.intersect scene r); [| exact Hn].
      destruct (ClosestHit scene h0 (Direction r) q) as [q1 [r' |]];
        [| exact Hn].
      apply IHn; [exact Hn | lia]. }
    apply (Hmono _ _ _ _ _ Ht). lia.
Qed.

(** ** BSDF sampling with a non-positive pdf *)

Lemma sampleBSDF_emissive (scene : Scene.t) (rd : float3) (h : HitData) (s : Z) :
  bsdf h = 1 ->
  sampledPdf scene rd h s = 0%R /\
  sampledColour scene rd h s = mkFloat3 0 0 0 /\
  snd (sampleBSDF scene rd h s) = s.
Proof.
  intros Hb. unfold sampledPdf, sampledColour, sampleBSDF.
  rewrite Hb. simpl. unfold bind, ret. simpl. repeat split.
Qed.

Lemma scatter_dead_end (scene : Scene.t) (h : HitData) (rd : float3) (p : Payload) :
  (sampledPdf scene rd h (rndState p) <= 0)%R ->
  scatter scene h rd p =
    (set_rndState (snd (sampleBSDF scene rd h (rndState p))) p, None).
Proof.
  unfold sampledPdf, scatter. intros Hpdf.
  destruct (sampleBSDF scene rd h (rndState p)) as [[[[wi ind] pdf] spec] s'].
  simpl in *. unfold Rleb. destruct (Rle_dec pdf 0); [reflexivity | contradiction].
Qed.

(** C6. When the pdf reported by [sampleBSDF] is not positive, the last
    block of the handler returns at once: no ray is traced, and colour,
    throughput, depth and flags are what they were (nothing is divided by
    the pdf); only the sampler state has advanced.  An emissive surface
    always reports a zero pdf and a zero reflected value, so a handler that
    hit one never traces a further ray. *)
Theorem nonpositive_pdf_ends_path (scene : Scene.t) (h : HitData) (rd : float3)
  (p : Payload) (Hpdf : (sampledPdf scene rd h (rndState p) <= 0)%R) :
  snd (scatter scene h rd p) = None /\
  colour (fst (scatter scene h rd p)) = colour p /\
  pathThroughput (fst (scatter scene h rd p)) = pathThroughput p /\
  depth (fst (scatter scene h rd p)) = depth p /\
  flags (fst (scatter scene h rd p)) = flags p /\
  (bsdf h = 1 ->
   forall q : Payload,
     sampledPdf scene rd h (rndState q) = 0%R /\
     sampledColour scene rd h (rndState q) = mkFloat3 0 0 0 /\
     snd (ClosestHit scene h rd q) = None).
Proof.
  rewrite (scatter_dead_end scene h rd p Hpdf). simpl.
  repeat (split; [reflexivity |]).
  intros Hb q.
  destruct (sampleBSDF_emissive scene rd h (rndState q) Hb) as (H0 & Hc & _).
  split; [exact H0 |]. split; [exact Hc |].
  unfold ClosestHit.
  destruct (isLight h && _); [reflexivity |].
  destruct (calculateDirect scene h rd (rndState q)) as [direct s'].
  destruct (depth _ =? 6); [reflexivity |].
  destruct (russianRoulette _) as [p2 stop].
  destruct stop; [reflexivity |].
  rewrite scatter_dead_end; [reflexivity |].
  destruct (sampleBSDF_emissive scene rd h (rndState p2) Hb) as (H2 & _).
  rewrite H2. apply Rle_refl.
Qed.

(** ** Choice between the environment and the area lights *)

Lemma round24_pos (m : Z) : 0 < m -> 0 < Sampler.round24 m.
Proof.
  intros Hpos. unfold Sampler.round24.
  destruct (Z.ltb_spec m (2 ^ 24)) as [Hs | Hl]; [assumption |].
  destruct (Z.log2_spec m Hpos) as [Hlo Hhi].
  assert (Hlog : 24 <= Z.log2 m).
  { apply Z.log2_le_pow2; [assumption | exact Hl]. }
  set (e := Z.log2 m - 23) in *.
  assert (He : 1 <= e) by (unfold e; lia).
  rewrite Z.shiftr_div_pow2 by lia.
  rewrite Z.shiftl_mul_pow2 by lia.
  assert (Hpe : 0 < 2 ^ e) by (apply Z.pow_pos_nonneg; lia).
  assert (Hq : 1 <= m / 2 ^ e).
  { apply Z.div_le_lower_bound; [assumption |].
    rewrite Z.mul_1_r.
    apply Z.le_trans with (2 ^ Z.log2 m); [| exact Hlo].
    apply Z.pow_le_mono_r; [lia | unfold e; lia]. }
  destruct ((_ <? _) || _); nia.
Qed.

Lemma itof_pos (n : Z) : 0 < n -> (0 < itof n)%R.
Proof.
  intros H. unfold itof, Sampler.utof. apply IZR_lt. apply round24_pos. exact H.
Qed.

(** A draw, read as a real, lies in [[0,1]]. *)
Lemma draw_range (s : Z) : (0 <= fst (draw s) <= 1)%R.
Proof.
  unfold draw, Sampler.rnd. cbn [fst]. unfold Q2R. cbn [Qnum Qden].
  destruct (rnd_num_range s) as [H0 H1].
  apply IZR_le in H0. apply IZR_le in H1.
  change (2 ^ 32) with 4294967296 in H1.
  change (Z.pos 4294967296) with 4294967296.
  set (n := IZR (Sampler.rnd_num s)) in *.
  split.
  - apply Rmult_le_pos; [exact H0 |].
    apply Rlt_le, Rinv_0_lt_compat. lra.
  - apply Rmult_le_reg_r with 4294967296%R; [lra |].
    rewrite Rmult_assoc, Rinv_l by lra. lra.
Qed.

(** C1. With an environment map the test at the head of [calculateDirect]
    holds in every sampler state, and without one it fails in every state:
    the branch is decided by [useEnvironmentMap] alone and the draw has no
    part in it.  With an environment map and N >= 1 lights the area-light
    branch is therefore never taken. *)
Theorem chooseEnvironment_ignores_draw (scene : Scene.t) (h : HitData)
  (rd : float3) (s : Z) (Hn : 0 <= Scene.nLights scene) :
  fst (chooseEnvironment scene s) = (Scene.useEnvironmentMap scene =? 1) /\
  calculateDirect scene h rd s =
    (if Scene.useEnvironmentMap scene =? 1
     then directEnvironment scene h rd (snd (chooseEnvironment scene s))
     else directAreaLight scene h rd (snd (chooseEnvironment scene s))).
Proof.
  assert (Hc : fst (chooseEnvironment scene s)
               = (Scene.useEnvironmentMap scene =? 1)).
  { unfold chooseEnvironment.
    destruct (Z.eqb_spec (Scene.useEnvironmentMap scene) 1) as [He | He].
    - rewrite andb_false_r.
      pose proof (draw_range s) as Hu.
      destruct (draw s) as [u s']. cbn [fst] in *.
      destruct (Z.eqb_spec (Scene.nLights scene) 0) as [H0 | H0];
        [rewrite orb_true_r; reflexivity |].
      assert (Hp : (0 < itof (Scene.nLights scene))%R) by (apply itof_pos; lia).
      unfold Rltb. destruct (Rlt_dec u _) as [_ | Hlt]; [reflexivity |].
      exfalso. apply Hlt. lra.
    - destruct (Scene.shortCircuit scene); cbn [andb negb]; [reflexivity |].
      destruct (draw s) as [u s']. reflexivity. }
  split; [exact Hc |].
  unfold calculateDirect, bind.
  destruct (chooseEnvironment scene s) as [env s1]. cbn [fst snd] in *.
  rewrite Hc. destruct (Scene.useEnvironmentMap scene =? 1); reflexivity.
Qed.

Lemma chooseEnvironment_ignores_draw_witness :
  0 <= Scene.nLights (lampScene 1) /\
  fst (chooseEnvironment (lampScene 1) 0) = (Scene.useEnvironmentMap (lampScene 1) =? 1) /\
  calculateDirect (lampScene 1) floorHit (mkFloat3 0 0 (-1)) 0 =
    (if Scene.useEnvironmentMap (lampScene 1) =? 1
     then directEnvironment (lampScene 1) floorHit (mkFloat3 0 0 (-1))
            (snd (chooseEnvironment (lampScene 1) 0))
     else directAreaLight (lampScene 1) floorHit (mkFloat3 0 0 (-1))
            (snd (chooseEnvironment (lampScene 1) 0))).
Proof.
  split; [simpl; lia |].
  apply (chooseEnvironment_ignores_draw (lampScene 1) floorHit (mkFloat3 0 0 (-1)) 0).
  simpl; lia.
Defined.

(** ** Sampling an area light *)

Lemma visible_unoccluded (scene : Scene.t) (p1 p2 : float3) :
  (forall r, Scene.intersect scene r = None) -> visible scene p1 p2 = true.
Proof.
  intros Hnone. unfold visible. rewrite Hnone. unfold Miss.
  cbn [flags set_flags set_pathThroughput pathThroughput].
  rewrite decodeIsShadow_encodeIsShadow.
  cbn [negb vx set_pathThroughput pathThroughput].
  unfold Rltb. destruct (Rlt_dec 0 1) as [_ | H]; [reflexivity |].
  exfalso. apply H. lra.
Qed.

Lemma Rltb_true (a b : R) : (a < b)%R -> Rltb a b = true.
Proof.
  intros H. unfold Rltb. destruct (Rlt_dec a b); [reflexivity | contradiction].
Qed.

Local Open Scope R_scope.

(** [directAreaLight] in terms of the geometry term. *)
Lemma directAreaLight_value (scene : Scene.t) (h : HitData) (rd : float3) (s : Z) :
  directAreaLight scene h rd s =
    let '((light, _), s1) := sampleLight scene s in
    let '((p, pdf), s2) := sampleAreaLight light s1 in
    let G := geometryTerm h light p in
    let f := evaluateBSDF rd h (Vec.normalize (Vec.sub p (pos h))) in
    (if Rltb 0 G && visible scene p (pos h)
     then Vec.divs (Vec.scale (Vec.mul (AreaLightData.Le light) f) G)
            (1 / itof (Sampler.u32 (Scene.nLights scene + 1)) * pdf)
     else mkFloat3 0 0 0,
     s2).
Proof.
  unfold directAreaLight, bind, ret.
  destruct (sampleLight scene s) as [[light pmf] s1].
  destruct (sampleAreaLight light s1) as [[p pdf] s2].
  unfold geometryTerm. cbv zeta.
  destruct (Rltb 0 _ && _); reflexivity.
Qed.

Lemma sampleAreaLight_lamp (s : Z) :
  exists x y : float, fst (sampleAreaLight lamp s) = (mkFloat3 x y 1, 2).
Proof.
  unfold sampleAreaLight, bind, ret.
  destruct (draw s) as [r1 s1]. destruct (draw s1) as [r2 s2].
  unfold uniformSampleTriangle. cbn [fst].
  exists (sqrt r1 * r2), (1 - (1 - sqrt r1 + sqrt r1 * r2)).
  f_equal.
  - unfold Vec.add, Vec.scale, lamp. cbn [AreaLightData.v1 AreaLightData.v2 AreaLightData.v3 vx vy vz].
    f_equal; ring.
  - unfold Vec.length, Vec.cross, Vec.sub, Vec.dot, lamp.
    cbn [AreaLightData.v1 AreaLightData.v2 AreaLightData.v3 vx vy vz].
    match goal with |- context [sqrt ?a] => replace a with 1 by ring end.
    rewrite sqrt_1. unfold Q2R; cbn [Qnum Qden]. field.
Qed.

Lemma geometryTerm_lamp_pos (x y : float) :
  0 < geometryTerm floorHit lamp (mkFloat3 x y 1).
Proof.
  unfold geometryTerm, Vec.normalize, Vec.length, Vec.sub, Vec.divs, Vec.dot,
    Vec.neg, floorHit, lamp.
  cbn [pos normal AreaLightData.normal vx vy vz].
  match goal with |- context [sqrt ?a] => replace a with (x * x + y * y + 1) by ring end.
  set (l := sqrt (x * x + y * y + 1)).
  assert (Hl : 0 < l) by (apply sqrt_lt_R0; nra).
  assert (Hi : 0 < / l) by (apply Rinv_0_lt_compat; exact Hl).
  replace (0 * ((x - 0) / l) + 0 * ((y - 0) / l) + 1 * ((1 - 0) / l)) with (/ l)
    by (field; lra).
  replace (0 * - ((x - 0) / l) + 0 * - ((y - 0) / l) + -1 * - ((1 - 0) / l))
    with (/ l) by (field; lra).
  rewrite Rmax_left by lra.
  unfold Rdiv. repeat apply Rmult_lt_0_compat; try exact Hi.
  apply Rinv_0_lt_compat. nra.
Qed.

Lemma itof_small (n : Z) : (n < 2 ^ 24)%Z -> itof n = IZR n.
Proof. intros H. unfold itof, Sampler.utof. now rewrite round24_small. Qed.

(** C2. One area light, no environment map, a white diffuse point below the
    light and nothing in between.  [sampleLight] reports [pmf = 1], the
    light is sampled with [pdf = 2] and the geometry term is positive, yet
    the contribution returned by [calculateDirect] is divided by
    [1/2 * pdf]: it is twice the value obtained with the pmf of
    [sampleLight]. *)
Theorem areaLight_pmf_overwritten (rd : float3) (s : Z) :
  let sc := lampScene 0 in
  let '((light, pmf), s1) := sampleLight sc s in
  let '((pt, pdf), s2) := sampleAreaLight light s1 in
  let G := geometryTerm floorHit light pt in
  let f := evaluateBSDF rd floorHit (Vec.normalize (Vec.sub pt (pos floorHit))) in
  let claimed :=
    Vec.divs (Vec.scale (Vec.mul (AreaLightData.Le light) f) G) (pmf * pdf) in
  pmf = 1 /\ pdf = 2 /\ 0 < G /\
  calculateDirect sc floorHit rd s =
    (Vec.divs (Vec.scale (Vec.mul (AreaLightData.Le light) f) G) (1 / 2 * pdf), s2) /\
  vx (fst (calculateDirect sc floorHit rd s)) = 2 * vx claimed /\
  0 < vx claimed.
Proof.
  intros sc.
  assert (Hcd : calculateDirect sc floorHit rd s = directAreaLight sc floorHit rd s)
    by reflexivity.
  rewrite Hcd, directAreaLight_value.
  assert (H2 : itof (Sampler.u32 (Scene.nLights sc + 1)) = 2).
  { replace (Sampler.u32 (Scene.nLights sc + 1)) with 2%Z by reflexivity.
    apply itof_small. lia. }
  rewrite H2.
  assert (Hlight : forall t, fst (fst (sampleLight sc t)) = lamp /\
                             snd (fst (sampleLight sc t)) = 1).
  { intros t. unfold sampleLight.
    destruct (Sampler.lightIndex (Scene.nLights sc) t) as [i t']. cbn [fst snd].
    split; [reflexivity |].
    replace (itof (Scene.nLights sc)) with 1; [unfold float; field |].
    symmetry. apply (itof_small 1). lia. }
  specialize (Hlight s).
  destruct (sampleLight sc s) as [[light pmf] s1]. cbn [fst snd] in Hlight.
  destruct Hlight as [-> ->].
  destruct (sampleAreaLight_lamp s1) as (x & y & Hp).
  destruct (sampleAreaLight lamp s1) as [[pt pdf] s2]. cbn [fst] in Hp.
  injection Hp as -> ->.
  pose proof (geometryTerm_lamp_pos x y) as HG.
  cbv zeta.
  set (G := geometryTerm floorHit lamp (mkFloat3 x y 1)) in *.
  rewrite (Rltb_true 0 G HG), visible_unoccluded by reflexivity.
  cbn [andb fst].
  assert (HPI : 0 < PI) by (unfold PI; lra).
  unfold evaluateBSDF, Vec.divs, Vec.scale, Vec.mul, floorHit, lamp.
  cbn [bsdf albedo Z.eqb AreaLightData.Le vx vy vz].
  repeat split; try reflexivity; try exact HG.
  - unfold float. field. unfold PI; lra.
  - unfold Rdiv. rewrite !Rmult_1_l.
    apply Rmult_lt_0_compat; [| apply Rinv_0_lt_compat; lra].
    apply Rmult_lt_0_compat; [| exact HG].
    apply Rinv_0_lt_compat; exact HPI.
Qed.

(** ** Russian roulette *)

(** A function that is [0] below [q] and [c] above it is a step function on
    the unit interval. *)
Lemma two_step_adapted (f : R -> R) (q c : R) :
  0 <= q <= 1 ->
  (forall u, 0 < u < q -> f u = 0) ->
  (forall u, q < u < 1 -> f u = c) ->
  adapted_couple f 0 1 [0; q; 1] [0; c].
Proof.
  intros [Hq0 Hq1] Hlo Hhi. unfold adapted_couple.
  split; [| split; [| split; [| split]]].
  - intros i Hi. simpl in Hi.
    destruct i as [| [| i]]; simpl; try lra. lia.
  - simpl. rewrite Rmin_left; lra.
  - simpl. rewrite Rmax_right; lra.
  - reflexivity.
  - intros i Hi. simpl in Hi. unfold constant_D_eq, open_interval.
    destruct i as [| [| i]]; simpl; [exact Hlo | exact Hhi | lia].
Qed.

Lemma two_step_expectation (f : R -> R) (q c : R) :
  0 <= q <= 1 ->
  (forall u, 0 < u < q -> f u = 0) ->
  (forall u, q < u < 1 -> f u = c) ->
  inhabited (IsStepFun f 0 1) /\
  forall pr : IsStepFun f 0 1, uniformExpectation f pr = c * (1 - q).
Proof.
  intros Hq Hlo Hhi.
  pose proof (two_step_adapted f q c Hq Hlo Hhi) as Had.
  split.
  - constructor. exists [0; q; 1]. exists [0; c]. exact Had.
  - intros pr. unfold uniformExpectation, RiemannInt_SF.
    destruct (Rle_dec 0 1) as [_ | H]; [| exfalso; apply H; lra].
    rewrite (StepFun_P17 (StepFun_P1 (mkStepFun pr)) Had).
    simpl. ring.
Qed.

Lemma rouletteQ_range (T : float3) :
  Vec.nonneg T -> 0 <= rouletteQ T <= 0.7.
Proof.
  intros (Hx & Hy & Hz). unfold rouletteQ, Vec.dot. cbn [vx vy vz].
  split.
  - apply Rmin_glb; [| lra].
    assert (0 <= vx T * 0.2126) by (apply Rmult_le_pos; lra).
    assert (0 <= vy T * 0.7152) by (apply Rmult_le_pos; lra).
    assert (0 <= vz T * 0.0722) by (apply Rmult_le_pos; lra).
    lra.
  - apply Rmin_r.
Qed.

(** C4. Beyond depth 3 the Russian-roulette block computes
    [q = min(dot(T, (0.2126, 0.7152, 0.0722)), 0.7)], draws [u], and returns
    from the handler when [u < q]; otherwise the throughput becomes
    [T / (1 - q)].  For a throughput with non-negative components, [q] lies
    in [[0, 0.7]] and the expectation over [u], uniform on the unit
    interval, of the throughput carried on is [T] in every component. *)
Theorem russianRoulette_unbiased (p : Payload)
  (Hd : (3 < depth p)%Z) (H7 : depth p <> 7%Z)
  (HT : Vec.nonneg (pathThroughput p)) :
  let T := pathThroughput p in
  let q := Rmin (Vec.dot T (mkFloat3 0.2126 0.7152 0.0722)) 0.7 in
  let '(u, s') := draw (rndState p) in
  russianRoulette p =
    (if Rltb u q then (set_rndState s' p, true)
     else (set_pathThroughput (Vec.divs T (1 - q)) (set_rndState s' p), false)) /\
  (if snd (russianRoulette p)
   then survivingThroughput T u = mkFloat3 0 0 0
   else survivingThroughput T u = pathThroughput (fst (russianRoulette p))) /\
  0 <= q <= 0.7 /\
  forall c : float3 -> float, In c [vx; vy; vz] ->
    inhabited (IsStepFun (fun v => c (survivingThroughput T v)) 0 1) /\
    forall pr, uniformExpectation (fun v => c (survivingThroughput T v)) pr = c T.
Proof.
  intros T q.
  assert (Hq : 0 <= q <= 0.7) by (apply (rouletteQ_range T HT)).
  assert (Hrr : forall u s', draw (rndState p) = (u, s') ->
            russianRoulette p =
              (if Rltb u q then (set_rndState s' p, true)
               else (set_pathThroughput (Vec.divs T (1 - q)) (set_rndState s' p),
                     false))).
  { intros u s' Hdraw. unfold russianRoulette. rewrite Hdraw.
    destruct (Z.ltb_spec 3 (depth p)) as [_ | Hle]; [| lia].
    cbn [depth set_rndState].
    destruct (Z.eqb_spec (depth p) 7) as [He | _]; [contradiction |].
    rewrite orb_false_r. reflexivity. }
  destruct (draw (rndState p)) as [u s'] eqn:Hdraw.
  rewrite (Hrr u s' eq_refl).
  split; [reflexivity |].
  split.
  { unfold survivingThroughput. fold q.
    change (rouletteQ T) with q.
    destruct (Rltb u q); reflexivity. }
  split; [exact Hq |].
  intros c Hc.
  assert (Hstep : forall v, (v < q -> c (survivingThroughput T v) = 0 ) /\
                            (q < v -> c (survivingThroughput T v) = c T / (1 - q))).
  { intros v. unfold survivingThroughput. change (rouletteQ T) with q.
    unfold Rltb. destruct (Rlt_dec v q) as [Hlt | Hge].
    - split; [| lra]. intros _.
      destruct Hc as [<- | [<- | [<- | []]]]; reflexivity.
    - split; [lra |]. intros _.
      destruct Hc as [<- | [<- | [<- | []]]]; reflexivity. }
  destruct (two_step_expectation (fun v => c (survivingThroughput T v)) q
              (c T / (1 - q))) as [Hin Hex].
  - lra.
  - intros v Hv. apply Hstep. lra.
  - intros v Hv. apply Hstep. lra.
  - split; [exact Hin |]. intros pr. rewrite Hex. unfold float. field. lra.
Qed.

(** ** The accumulated colour *)

(** With a non-negative throughput and a non-negative environment, [Miss]
    does not decrease any component of the colour. *)
Lemma Miss_colour_monotone (scene : Scene.t) (rd : float3) (p : Payload) :
  Vec.nonneg (pathThroughput p) ->
  Vec.nonneg (Scene.evaluateEnvironmentMap scene rd) ->
  Vec.le (colour p) (colour (Miss scene rd p)).
Proof.
  intros (Tx & Ty & Tz) (Ex & Ey & Ez). unfold Miss, Vec.le.
  destruct (negb _); [destruct (_ || _) |]; cbn [colour set_colour set_pathThroughput];
    try (repeat split; apply Rle_refl).
  unfold Vec.add, Vec.mul. cbn [vx vy vz].
  pose proof (Rmult_le_pos _ _ Tx Ex).
  pose proof (Rmult_le_pos _ _ Ty Ey).
  pose proof (Rmult_le_pos _ _ Tz Ez).
  repeat split; lra.
Qed.

(** Away from the emission gate, [ClosestHit] adds the direct lighting,
    weighted by the throughput, to the colour. *)
Lemma ClosestHit_colour_adds (scene : Scene.t) (h : HitData) (rd : float3)
  (p : Payload) :
  isLight h && ((depth p =? 0)%Z || decodeIsSpecular (flags p)) = false ->
  colour (fst (ClosestHit scene h rd p)) =
    Vec.add (colour p)
      (Vec.mul (pathThroughput p)
               (fst (calculateDirect scene h rd (rndState p)))).
Proof.
  intros Hgate. unfold ClosestHit. rewrite Hgate.
  destruct (calculateDirect scene h rd (rndState p)) as [direct s'].
  cbn [fst]. set (p1 := set_colour _ _).
  assert (Hc : colour p1 = Vec.add (colour p) (Vec.mul (pathThroughput p) direct))
    by reflexivity.
  destruct (depth p1 =? 6)%Z; [exact Hc |].
  assert (Hrr : colour (fst (russianRoulette p1)) = colour p1).
  { unfold russianRoulette. destruct (3 <? depth p1)%Z; [| reflexivity].
    destruct (draw (rndState p1)) as [u s1].
    destruct (Rltb u _ || _); reflexivity. }
  destruct (russianRoulette p1) as [p2 stop]. cbn [fst] in Hrr.
  destruct stop; [cbn [fst]; congruence |].
  assert (Hs : colour (fst (scatter scene h rd p2)) = colour p2).
  { unfold scatter.
    destruct (sampleBSDF scene rd h (rndState p2)) as [[[[wi ind] pdf] spec] s2].
    destruct (Rleb pdf 0); [reflexivity |]. destruct spec; reflexivity. }
  congruence.
Qed.

(** C7. An emissive surface of radiance (1, 1, 1) reached after a specular
    bounce at depth 2 by a path that has gathered the colour (2, 2, 2): the
    handler replaces the colour by the emission, so every component of the
    accumulated colour decreases from 2 to 1. *)
Theorem emissive_hit_overwrites_colour (scene : Scene.t) (rd : float3) :
  decodeIsSpecular (flags afterMirror) = true /\
  ClosestHit scene emitterHit rd afterMirror =
    (set_colour (mkFloat3 1 1 1) afterMirror, None) /\
  colour afterMirror = mkFloat3 2 2 2 /\
  colour (fst (ClosestHit scene emitterHit rd afterMirror)) = mkFloat3 1 1 1 /\
  ~ Vec.le (colour afterMirror)
           (colour (fst (ClosestHit scene emitterHit rd afterMirror))).
Proof.
  assert (Hc : ClosestHit scene emitterHit rd afterMirror =
               (set_colour (mkFloat3 1 1 1) afterMirror, None)) by reflexivity.
  rewrite Hc. repeat (split; [reflexivity |]).
  unfold Vec.le. cbn. lra.
Qed.

(** ** Frames *)

(** The primary [TraceRay] of [RayGeneration] always returns. *)
Lemma tracePixel_returns (scene : Scene.t) (cam : Camera) (size : Z * Z)
  (sppBits : Z) (idx : Z * Z) :
  exists payload, tracePixel scene cam size sppBits idx = Some payload.
Proof.
  unfold tracePixel.
  destruct (draw (rndState (initialPayload idx sppBits))) as [j1 s1].
  destruct (draw s1) as [j2 s2].
  cbv zeta.
  match goal with
  | |- exists _, TraceRay scene ?n ?r ?p = Some _ =>
      destruct (TraceRay_terminates scene n r p) as (p' & Hp' & _)
  end.
  - cbn. lia.
  - cbn. lia.
  - exists p'. exact Hp'.
Qed.

(** After a frame, a pixel of the grid holds the tone-mapped sample traced
    in that frame, whatever the image held before. *)
Lemma frame_pixel (scene : Scene.t) (size : Z * Z) (moved : option Camera)
  (app : App) (idx : Z * Z) :
  (0 <= fst idx < fst size)%Z -> (0 <= snd idx < snd size)%Z ->
  exists payload,
    tracePixel scene (camera (frame scene size moved app)) size
      (asuint_of_uint (SPP (frame scene size moved app))) idx = Some payload /\
    uav (frame scene size moved app) idx = (tmo (colour payload), 1).
Proof.
  intros Hx Hy. unfold frame. cbn [camera SPP uav].
  set (cam := match moved with Some c => c | None => camera app end).
  set (spp := Sampler.u32 _).
  destruct (tracePixel_returns scene cam size (asuint_of_uint spp) idx)
    as (payload & Hp).
  exists payload. split; [exact Hp |].
  replace ((0 <=? fst idx) && (fst idx <? fst size)
           && (0 <=? snd idx) && (snd idx <? snd size))%Z with true.
  - unfold RayGeneration. rewrite Hp. unfold write.
    rewrite !Z.eqb_refl. reflexivity.
  - symmetry. rewrite !andb_true_iff.
    repeat split; try apply Z.leb_le; try apply Z.ltb_lt; lia.
Qed.

Lemma normalize_x_sign (a : R) :
  (a < 0 -> vx (Vec.normalize (mkFloat3 a 0 0)) < 0) /\
  (0 < a -> 0 < vx (Vec.normalize (mkFloat3 a 0 0))).
Proof.
  unfold Vec.normalize, Vec.length, Vec.divs, Vec.dot. cbn [vx vy vz].
  replace (a * a + 0 * 0 + 0 * 0) with (a * a) by ring.
  split; intros Ha.
  - assert (Hl : 0 < sqrt (a * a)) by (apply sqrt_lt_R0; nra).
    apply Rinv_0_lt_compat in Hl. unfold Rdiv. nra.
  - assert (Hl : 0 < sqrt (a * a)) by (apply sqrt_lt_R0; nra).
    apply Rinv_0_lt_compat in Hl. unfold Rdiv. nra.
Qed.

(** The primary ray of [sideCamera] for the device coordinates [(u, v)]. *)
Lemma sideCamera_direction (u v : R) :
  let p := Vec.mul_mv4 (inverseProjection sideCamera) (mkFloat4 u v 0 1) in
  let n := Vec.normalize (Vec.divs (Vec.xyz p) (ww p)) in
  let d := Vec.xyz (Vec.mul_mv4 (inverseView sideCamera)
                                (mkFloat4 (vx n) (vy n) (vz n) 0)) in
  (u < 0.5 -> vx d < 0) /\ (0.5 < u -> 0 < vx d).
Proof.
  intros p n d.
  assert (Hp : Vec.divs (Vec.xyz p) (ww p) = mkFloat3 (u - 0.5) 0 0).
  { unfold p, Vec.divs, Vec.xyz, Vec.mul_mv4, Vec.dot4, sideCamera.
    cbn [inverseProjection r0 r1 r2 r3 wx wy wz ww vx vy vz].
    f_equal; unfold Q2R; cbn [Qnum Qden]; unfold float; field. }
  assert (Hd : vx d = vx n).
  { unfold d, Vec.xyz, Vec.mul_mv4, Vec.dot4, sideCamera.
    cbn [inverseView r0 r1 r2 r3 wx wy wz ww vx vy vz]. unfold float. ring. }
  rewrite Hd. unfold n. rewrite Hp.
  destruct (normalize_x_sign (u - 0.5)) as [Hneg Hpos].
  split; intros Hu; [apply Hneg | apply Hpos]; lra.
Qed.

Lemma horizon_sample (sppBits : Z) :
  let j1 := fst (draw (rndState (initialPayload (0, 0)%Z sppBits))) in
  exists payload,
    tracePixel horizonScene sideCamera (1, 1)%Z sppBits (0, 0)%Z = Some payload /\
    (j1 < 0.75 -> colour payload = mkFloat3 0 0 0) /\
    (0.75 < j1 -> colour payload = mkFloat3 1 1 1).
Proof.
  intros j1. subst j1. unfold tracePixel.
  destruct (draw (rndState (initialPayload (0, 0)%Z sppBits))) as [j1 s1].
  destruct (draw s1) as [j2 s2]. cbn [fst snd].
  change MaxTraceRecursionDepth with (S 7).
  cbn [TraceRay Scene.intersect horizonScene Direction].
  eexists. split; [reflexivity |].
  unfold Miss.
  cbn [flags depth colour pathThroughput set_rndState initialPayload set_colour
       Z.eqb orb negb].
  replace (decodeIsShadow 0) with false by reflexivity.
  cbn [negb Scene.evaluateEnvironmentMap horizonScene].
  replace (itof 0) with 0 by (symmetry; apply (itof_small 0); lia).
  replace (itof 1) with 1 by (symmetry; apply (itof_small 1); lia).
  set (u := (0 + j1) / 1 * 2 - 1).
  set (v := (1 - (0 + j2) / 1) * 2 - 1).
  destruct (sideCamera_direction u v) as [Hneg Hpos].
  cbv zeta in Hneg, Hpos.
  match goal with
  | |- context [Rlt_dec 0 ?d] => set (dx := d) in *
  end.
  split; intros Hj.
  - assert (Hu : u < 0.5) by (unfold u; lra).
    specialize (Hneg Hu).
    destruct (Rlt_dec 0 dx) as [H | _]; [lra |].
    unfold Vec.add, Vec.mul. cbn [colour set_colour vx vy vz].
    f_equal; unfold float; ring.
  - assert (Hu : 0.5 < u) by (unfold u; lra).
    specialize (Hpos Hu).
    destruct (Rlt_dec 0 dx) as [_ | H]; [| contradiction].
    unfold Vec.add, Vec.mul. cbn [colour set_colour vx vy vz].
    f_equal; unfold float; ring.
Qed.

Lemma pow_zero (y : R) : pow 0 y = 0.
Proof.
  unfold pow. destruct (Rle_dec 0 0) as [_ | H]; [reflexivity |].
  exfalso. apply H. lra.
Qed.

Lemma pow_one (y : R) : pow 1 y = 1.
Proof.
  unfold pow. destruct (Rle_dec 1 0) as [H | _]; [lra |].
  unfold Rpower. rewrite ln_1, Rmult_0_r. apply exp_0.
Qed.

Lemma pow_below_one (x y : R) : 0 < x < 1 -> 0 < y -> 0 < pow x y < 1.
Proof.
  intros [H0 H1] Hy. unfold pow.
  destruct (Rle_dec x 0) as [H | _]; [lra |].
  unfold Rpower. split; [apply exp_pos |].
  rewrite <- exp_0. apply exp_increasing.
  assert (Hln : ln x < 0) by (rewrite <- ln_1; apply ln_increasing; lra).
  nra.
Qed.

Lemma draw_fst (s : Z) : fst (draw s) = Q2R (fst (Sampler.rnd s)).
Proof. unfold draw. destruct (Sampler.rnd s). reflexivity. Qed.

(** C8. Two frames of a one-pixel image with a still camera.  The sample
    traced in the first frame is black, the one of the second frame is
    white, and the counter reaches 2.  After the first frame the pixel holds
    0; after the second it holds 1, the tone-mapped second sample alone:
    neither the mean 1/2 of the two values written nor the tone-mapped mean
    of the two samples. *)
Theorem second_frame_overwrites_pixel :
  let app1 := frame horizonScene (1, 1)%Z None startApp in
  let app2 := frame horizonScene (1, 1)%Z None app1 in
  let sample n :=
    option_map colour
      (tracePixel horizonScene sideCamera (1, 1)%Z (asuint_of_uint n) (0, 0)%Z) in
  frames horizonScene (1, 1)%Z [None; None] startApp = app2 /\
  SPP app1 = 1%Z /\ SPP app2 = 2%Z /\
  sample 1%Z = Some (mkFloat3 0 0 0) /\
  sample 2%Z = Some (mkFloat3 1 1 1) /\
  uav app1 (0, 0)%Z = (mkFloat3 0 0 0, 1) /\
  uav app2 (0, 0)%Z = (mkFloat3 1 1 1, 1) /\
  vx (fst (uav app2 (0, 0)%Z)) <> 1 / 2 /\
  vx (fst (uav app2 (0, 0)%Z)) <>
    vx (tmo (Vec.divs (Vec.add (mkFloat3 0 0 0) (mkFloat3 1 1 1)) 2)).
Proof.
  intros app1 app2 sample.
  assert (HS1 : SPP app1 = 1%Z) by (vm_compute; reflexivity).
  assert (HS2 : SPP app2 = 2%Z).
  { unfold app2, frame. cbn [SPP]. rewrite HS1. vm_compute. reflexivity. }
  assert (Hsample1 : sample 1%Z = Some (mkFloat3 0 0 0)).
  { unfold sample.
    destruct (horizon_sample (asuint_of_uint 1)) as (q & Hq & Hlow & _).
    rewrite Hq. cbn [option_map]. f_equal. apply Hlow.
    rewrite draw_fst.
    replace (fst (Sampler.rnd (rndState (initialPayload (0, 0)%Z (asuint_of_uint 1)))))
      with (2478001152 # 4294967296)%Q by (vm_compute; reflexivity).
    unfold Q2R. cbn [Qnum Qden]. lra. }
  assert (Hsample2 : sample 2%Z = Some (mkFloat3 1 1 1)).
  { unfold sample.
    destruct (horizon_sample (asuint_of_uint 2)) as (q & Hq & _ & Hhigh).
    rewrite Hq. cbn [option_map]. f_equal. apply Hhigh.
    rewrite draw_fst.
    replace (fst (Sampler.rnd (rndState (initialPayload (0, 0)%Z (asuint_of_uint 2)))))
      with (3636586752 # 4294967296)%Q by (vm_compute; reflexivity).
    unfold Q2R. cbn [Qnum Qden]. lra. }
  assert (Hpix : forall app n c,
            SPP (frame horizonScene (1, 1)%Z None app) = n ->
            camera app = sideCamera ->
            sample n = Some c ->
            uav (frame horizonScene (1, 1)%Z None app) (0, 0)%Z = (tmo c, 1)).
  { intros app n c Hn Hcam Hc.
    destruct (frame_pixel horizonScene (1, 1)%Z None app (0, 0)%Z)
      as (q & Hq & Hu); [cbn; lia | cbn; lia |].
    rewrite Hu. rewrite Hn in Hq.
    replace (camera (frame horizonScene (1, 1)%Z None app)) with sideCamera in Hq
      by (symmetry; exact Hcam).
    unfold sample in Hc. rewrite Hq in Hc. cbn [option_map] in Hc.
    injection Hc as ->. reflexivity. }
  assert (Hu1 : uav app1 (0, 0)%Z = (mkFloat3 0 0 0, 1)).
  { unfold app1. rewrite (Hpix startApp 1%Z _ HS1 eq_refl Hsample1).
    unfold tmo. cbn [vx vy vz]. rewrite !pow_zero. reflexivity. }
  assert (Hu2 : uav app2 (0, 0)%Z = (mkFloat3 1 1 1, 1)).
  { unfold app2. rewrite (Hpix app1 2%Z _ HS2 eq_refl Hsample2).
    unfold tmo. cbn [vx vy vz]. rewrite !pow_one. reflexivity. }
  split; [reflexivity |].
  repeat (split; [assumption |]).
  rewrite Hu2. cbn [fst vx]. split; [lra |].
  unfold tmo, Vec.divs, Vec.add. cbn [vx vy vz].
  assert (H : 0 < pow ((0 + 1) / 2) (1 / 2.2) < 1) by (apply pow_below_one; lra).
  lra.
Qed.

(** ** The throughput stays non-negative *)

Lemma divs_nonneg (a : float3) (k : R) :
  Vec.nonneg a -> 0 < k -> Vec.nonneg (Vec.divs a k).
Proof.
  intros (Hx & Hy & Hz) Hk. unfold Vec.nonneg, Vec.divs. cbn [vx vy vz].
  apply Rinv_0_lt_compat in Hk. unfold Rdiv.
  repeat split; apply Rmult_le_pos; lra.
Qed.

Lemma russianRoulette_nonneg (p : Payload) :
  Vec.nonneg (pathThroughput p) ->
  Vec.nonneg (pathThroughput (fst (russianRoulette p))).
Proof.
  intros HT. unfold russianRoulette.
  destruct (3 <? depth p)%Z; [| exact HT].
  destruct (draw (rndState p)) as [u s'].
  destruct (Rltb u _ || _); cbn [fst pathThroughput set_pathThroughput set_rndState];
    [exact HT |].
  apply divs_nonneg; [exact HT |].
  match goal with |- 0 < 1 - Rmin ?a ?b => pose proof (Rmin_r a b) end. lra.
Qed.

Lemma scatter_nonneg (scene : Scene.t) (h : HitData) (rd : float3) (p : Payload) :
  Vec.nonneg (pathThroughput p) ->
  Vec.nonneg (sampledColour scene rd h (rndState p)) ->
  Vec.nonneg (pathThroughput (fst (scatter scene h rd p))).
Proof.
  unfold sampledColour, scatter. intros HT Hc.
  destruct (sampleBSDF scene rd h (rndState p)) as [[[[wi ind] pdf] spec] s'].
  cbn [fst snd] in Hc. unfold Rleb.
  destruct (Rle_dec pdf 0) as [_ | Hpdf]; [exact HT |].
  assert (Hn : Vec.nonneg
                 (Vec.divs (Vec.scale (Vec.mul (pathThroughput p) ind)
                                      (Rabs (Vec.dot wi (normal h)))) pdf)).
  { apply divs_nonneg; [| lra].
    destruct HT as (Tx & Ty & Tz). destruct Hc as (Cx & Cy & Cz).
    pose proof (Rabs_pos (Vec.dot wi (normal h))) as Ha.
    unfold Vec.nonneg, Vec.scale, Vec.mul. cbn [vx vy vz].
    repeat split; apply Rmult_le_pos; try exact Ha; apply Rmult_le_pos; assumption. }
  destruct spec; exact Hn.
Qed.

(** One run of the closest-hit handler keeps the throughput non-negative,
    provided the reflected colour reported by [sampleBSDF] is. *)
Lemma ClosestHit_throughput_nonneg (scene : Scene.t) (h : HitData) (rd : float3)
  (p : Payload) :
  Vec.nonneg (pathThroughput p) ->
  (forall s, Vec.nonneg (sampledColour scene rd h s)) ->
  Vec.nonneg (pathThroughput (fst (ClosestHit scene h rd p))).
Proof.
  intros HT Hc. unfold ClosestHit.
  destruct (isLight h && _); [exact HT |].
  destruct (calculateDirect scene h rd (rndState p)) as [direct s'].
  set (p1 := set_colour _ _).
  assert (HT1 : Vec.nonneg (pathThroughput p1)) by exact HT.
  destruct (depth p1 =? 6)%Z; [exact HT1 |].
  pose proof (russianRoulette_nonneg p1 HT1) as Hrr.
  destruct (russianRoulette p1) as [p2 stop]. cbn [fst] in Hrr.
  destruct stop; [exact Hrr |].
  apply scatter_nonneg; [exact Hrr | apply Hc].
Qed.

(** A mirror (BSDF 3) seen from its front side reflects the path on with
    the specular flag set, one level deeper, and the colour untouched. *)
Lemma scatter_mirror (scene : Scene.t) (h : HitData) (rd : float3) (p : Payload) :
  bsdf h = 3%Z ->
  exists ray,
    scatter scene h rd p = (fst (scatter scene h rd p), Some ray) /\
    decodeIsSpecular (flags (fst (scatter scene h rd p))) = true /\
    depth (fst (scatter scene h rd p)) = Sampler.u32 (depth p + 1) /\
    colour (fst (scatter scene h rd p)) = colour p.
Proof.
  intros Hb. unfold scatter, sampleBSDF, bind, ret. rewrite Hb.
  cbn [Z.eqb Pos.eqb]. unfold Rleb.
  destruct (Rle_dec 1 0) as [H | _]; [lra |].
  eexists. cbn [fst]. split; [reflexivity |].
  split; [apply decodeIsSpecular_encodeIsSpecular |].
  split; reflexivity.
Qed.

(** ** Instances *)

Lemma path_depth_bounded_witness :
  (0 <= depth (initialPayload (0, 0)%Z 0) <= 6)%Z /\
  snd (ClosestHit skyScene floorHit (Direction zRay)
         (set_depth 6 (initialPayload (0, 0)%Z 0))) = None /\
  snd (ClosestHit skyScene floorHit (Direction zRay)
         (set_depth 7 (initialPayload (0, 0)%Z 0))) = None /\
  exists p',
    TraceRay skyScene (Z.to_nat (7 - depth (initialPayload (0, 0)%Z 0))) zRay
      (initialPayload (0, 0)%Z 0) = Some p' /\
    (depth (initialPayload (0, 0)%Z 0) <= depth p' <= 6)%Z /\
    (1 <= Z.of_nat (segments skyScene
                      (Z.to_nat (7 - depth (initialPayload (0, 0)%Z 0))) zRay
                      (initialPayload (0, 0)%Z 0))
     <= 7 - depth (initialPayload (0, 0)%Z 0))%Z /\
    forall fuel,
      (7 - depth (initialPayload (0, 0)%Z 0) <= Z.of_nat fuel)%Z ->
      TraceRay skyScene fuel zRay (initialPayload (0, 0)%Z 0) = Some p'.
Proof.
  split; [simpl; lia |].
  apply (path_depth_bounded skyScene floorHit zRay (initialPayload (0, 0)%Z 0)).
  simpl; lia.
Defined.

Lemma nonpositive_pdf_ends_path_witness :
  sampledPdf skyScene (mkFloat3 0 0 (-1)) emitterHit (rndState afterMirror) <= 0 /\
  snd (scatter skyScene emitterHit (mkFloat3 0 0 (-1)) afterMirror) = None /\
  colour (fst (scatter skyScene emitterHit (mkFloat3 0 0 (-1)) afterMirror))
    = colour afterMirror /\
  pathThroughput (fst (scatter skyScene emitterHit (mkFloat3 0 0 (-1)) afterMirror))
    = pathThroughput afterMirror /\
  depth (fst (scatter skyScene emitterHit (mkFloat3 0 0 (-1)) afterMirror))
    = depth afterMirror /\
  flags (fst (scatter skyScene emitterHit (mkFloat3 0 0 (-1)) afterMirror))
    = flags afterMirror /\
  (bsdf emitterHit = 1%Z ->
   forall q : Payload,
     sampledPdf skyScene (mkFloat3 0 0 (-1)) emitterHit (rndState q) = 0 /\
     sampledColour skyScene (mkFloat3 0 0 (-1)) emitterHit (rndState q)
       = mkFloat3 0 0 0 /\
     snd (ClosestHit skyScene emitterHit (mkFloat3 0 0 (-1)) q) = None).
Proof.
  assert (H : sampledPdf skyScene (mkFloat3 0 0 (-1)) emitterHit
                (rndState afterMirror) <= 0).
  { unfold sampledPdf, sampleBSDF, bind, ret. simpl. lra. }
  split; [exact H |].
  apply (nonpositive_pdf_ends_path skyScene emitterHit (mkFloat3 0 0 (-1))
           afterMirror H).
Defined.

Lemma russianRoulette_unbiased_witness :
  (3 < depth deepPayload)%Z /\ depth deepPayload <> 7%Z /\
  Vec.nonneg (pathThroughput deepPayload) /\
  (let T := pathThroughput deepPayload in
   let q := Rmin (Vec.dot T (mkFloat3 0.2126 0.7152 0.0722)) 0.7 in
   let '(u, s') := draw (rndState deepPayload) in
   russianRoulette deepPayload =
     (if Rltb u q then (set_rndState s' deepPayload, true)
      else (set_pathThroughput (Vec.divs T (1 - q)) (set_rndState s' deepPayload),
            false)) /\
   (if snd (russianRoulette deepPayload)
    then survivingThroughput T u = mkFloat3 0 0 0
    else survivingThroughput T u = pathThroughput (fst (russianRoulette deepPayload))) /\
   0 <= q <= 0.7 /\
   forall c : float3 -> float, In c [vx; vy; vz] ->
     inhabited (IsStepFun (fun v => c (survivingThroughput T v)) 0 1) /\
     forall pr, uniformExpectation (fun v => c (survivingThroughput T v)) pr = c T).
Proof.
  assert (H3 : (3 < depth deepPayload)%Z) by (simpl; lia).
  assert (H7 : depth deepPayload <> 7%Z) by (simpl; lia).
  assert (HT : Vec.nonneg (pathThroughput deepPayload))
    by (unfold Vec.nonneg; simpl; lra).
  split; [exact H3 |]. split; [exact H7 |]. split; [exact HT |].
  apply (russianRoulette_unbiased deepPayload H3 H7 HT).
Defined.

(** * Further properties *)

(** ** Matrices and directions of the shader *)

(** X1. For a matrix with a non-zero determinant, [inverse] is a two-sided
    inverse, and the inverse transpose used for normals keeps a normal
    perpendicular to the transformed surface: the dot product of the
    transformed normal with a transformed tangent is the original one. *)
Theorem inverse_correct (m : float3x3) (v n t : float3) (Hdet : det3 m <> 0) :
  mul_mv m (mul_mv (inverse m) v) = v /\
  mul_mv (inverse m) (mul_mv m v) = v /\
  Vec.dot (mul_mv (Vec.transpose (inverse m)) n) (mul_mv m t) = Vec.dot n t.
Proof.
  destruct m as [[a b c] [d e f] [g h i]]. destruct v as [x y z].
  destruct n as [n1 n2 n3]. destruct t as [t1 t2 t3].
  unfold det3 in Hdet. cbn [row0 row1 row2 vx vy vz] in Hdet.
  unfold inverse, mul_mv, Vec.transpose, Vec.dot.
  cbn [row0 row1 row2 vx vy vz].
  repeat split; try (f_equal; unfold float; field; exact Hdet).
  unfold float; field; exact Hdet.
Qed.

Lemma inverse_correct_witness :
  det3 identity3x3 <> 0 /\
  mul_mv identity3x3 (mul_mv (inverse identity3x3) (mkFloat3 1 2 3))
    = mkFloat3 1 2 3 /\
  mul_mv (inverse identity3x3) (mul_mv identity3x3 (mkFloat3 1 2 3))
    = mkFloat3 1 2 3 /\
  Vec.dot (mul_mv (Vec.transpose (inverse identity3x3)) (mkFloat3 0 0 1))
          (mul_mv identity3x3 (mkFloat3 1 0 0))
    = Vec.dot (mkFloat3 0 0 1) (mkFloat3 1 0 0).
Proof.
  assert (H : det3 identity3x3 <> 0) by (unfold det3; simpl; lra).
  split; [exact H |].
  apply (inverse_correct identity3x3 (mkFloat3 1 2 3) (mkFloat3 0 0 1)
           (mkFloat3 1 0 0) H).
Defined.

Lemma Rsqr_mult_self (x : R) : x * x = x².
Proof. reflexivity. Qed.

Lemma sphericalToWorld_unit (theta phi : R) :
  Vec.dot (sphericalToWorld theta phi) (sphericalToWorld theta phi) = 1.
Proof.
  unfold Vec.dot, sphericalToWorld. cbn [vx vy vz].
  pose proof (sin2_cos2 theta) as Ht. pose proof (sin2_cos2 phi) as Hp.
  unfold Rsqr in Ht, Hp. nra.
Qed.

(** X2. [sphericalToWorld] always returns a unit vector, and
    [sphericalTheta] recovers the polar angle of a direction built from an
    angle between 0 and pi. *)
Theorem spherical_round_trip (theta phi : R)
  (Htheta : 0 <= theta <= Rtrigo1.PI) :
  Vec.dot (sphericalToWorld theta phi) (sphericalToWorld theta phi) = 1 /\
  sphericalTheta (sphericalToWorld theta phi) = theta.
Proof.
  split; [apply sphericalToWorld_unit |].
  unfold sphericalTheta, sphericalToWorld. cbn [vz].
  apply acos_cos. exact Htheta.
Qed.

Lemma spherical_round_trip_witness :
  0 <= 0 <= Rtrigo1.PI /\
  Vec.dot (sphericalToWorld 0 0) (sphericalToWorld 0 0) = 1 /\
  sphericalTheta (sphericalToWorld 0 0) = 0.
Proof.
  assert (H : 0 <= 0 <= Rtrigo1.PI).
  { split; [lra |]. apply Rlt_le, PI_RGT_0. }
  split; [exact H |]. apply (spherical_round_trip 0 0 H).
Defined.

(** X3. For a first number in the unit interval, [uniformSampleSphere]
    returns a vector of length 1 whose height is [1 - 2 * r1]. *)
Theorem uniformSampleSphere_unit (r1 r2 : R) (Hr1 : 0 <= r1 <= 1) :
  Vec.length (uniformSampleSphere r1 r2) = 1 /\
  vz (uniformSampleSphere r1 r2) = 1 - 2 * r1 /\
  -1 <= vz (uniformSampleSphere r1 r2) <= 1.
Proof.
  unfold Vec.length, Vec.dot, uniformSampleSphere. cbn [vx vy vz].
  set (z := 1 - 2 * r1).
  assert (Hz : 0 <= 1 - z * z) by (unfold z; nra).
  rewrite (Rmax_right 0 (1 - z * z)) by exact Hz.
  set (r := sqrt (1 - z * z)).
  assert (Hr : r * r = 1 - z * z) by (apply sqrt_sqrt; exact Hz).
  pose proof (sin2_cos2 (2 * PI * r2)) as Hp. unfold Rsqr in Hp.
  split.
  - replace (r * cos (2 * PI * r2) * (r * cos (2 * PI * r2))
             + r * sin (2 * PI * r2) * (r * sin (2 * PI * r2)) + z * z)
      with ((r * r) * (sin (2 * PI * r2) * sin (2 * PI * r2)
                       + cos (2 * PI * r2) * cos (2 * PI * r2)) + z * z)
      by ring.
    rewrite Hp, Hr. replace ((1 - z * z) * 1 + z * z) with 1 by ring.
    apply sqrt_1.
  - split; [reflexivity | unfold z; lra].
Qed.

Lemma uniformSampleSphere_unit_witness :
  0 <= 0 <= 1 /\
  Vec.length (uniformSampleSphere 0 0) = 1 /\
  vz (uniformSampleSphere 0 0) = 1 - 2 * 0 /\
  -1 <= vz (uniformSampleSphere 0 0) <= 1.
Proof.
  assert (H : 0 <= 0 <= 1) by lra.
  split; [exact H |]. apply (uniformSampleSphere_unit 0 0 H).
Defined.

Lemma sqrt_unit (r : R) : 0 <= r <= 1 -> 0 <= sqrt r <= 1.
Proof.
  intros [H0 H1]. split; [apply sqrt_pos |].
  rewrite <- sqrt_1. apply sqrt_le_1; lra.
Qed.

(** X4. Whatever the sampler state, the point returned by
    [sampleAreaLight] is a convex combination of the three vertices of the
    light, and the pdf is the reciprocal of the area of the triangle, half
    the length of the cross product of two of its edges. *)
Theorem sampleAreaLight_in_triangle (light : AreaLightData.t) (s : Z) :
  let '((p, pdf), s') := sampleAreaLight light s in
  (exists alpha beta gamma : R,
     0 <= alpha /\ 0 <= beta /\ 0 <= gamma /\ alpha + beta + gamma = 1 /\
     p = Vec.add (Vec.add (Vec.scale (AreaLightData.v1 light) alpha)
                          (Vec.scale (AreaLightData.v2 light) beta))
                 (Vec.scale (AreaLightData.v3 light) gamma)) /\
  pdf = 1 / (Vec.length
               (Vec.cross
                  (Vec.sub (AreaLightData.v2 light) (AreaLightData.v1 light))
                  (Vec.sub (AreaLightData.v3 light) (AreaLightData.v1 light)))
             * 0.5) /\
  s' = Sampler.rnd_state (Sampler.rnd_state s).
Proof.
  unfold sampleAreaLight, bind, ret.
  pose proof (draw_range s) as H1.
  assert (Hs1 : snd (draw s) = Sampler.rnd_state s).
  { unfold draw. destruct (Sampler.rnd s) eqn:E. unfold Sampler.rnd in E.
    injection E as _ <-. reflexivity. }
  destruct (draw s) as [r1 s1]. cbn [fst snd] in *. subst s1.
  pose proof (draw_range (Sampler.rnd_state s)) as H2.
  assert (Hs2 : snd (draw (Sampler.rnd_state s))
                = Sampler.rnd_state (Sampler.rnd_state s)).
  { unfold draw. destruct (Sampler.rnd (Sampler.rnd_state s)) eqn:E.
    unfold Sampler.rnd in E. injection E as _ <-. reflexivity. }
  destruct (draw (Sampler.rnd_state s)) as [r2 s2]. cbn [fst snd] in *. subst s2.
  unfold uniformSampleTriangle.
  pose proof (sqrt_unit r1 H1) as Hq.
  split; [| split; [| reflexivity]].
  - exists (1 - sqrt r1), (sqrt r1 * r2), (1 - (1 - sqrt r1 + sqrt r1 * r2)).
    assert (Hg : 0 <= sqrt r1 * (1 - r2)) by (apply Rmult_le_pos; lra).
    repeat split; try reflexivity; try lra.
    apply Rmult_le_pos; lra.
  - f_equal. f_equal. f_equal.
    destruct light as [[a1 a2 a3] [b1 b2 b3] [c1 c2 c3] nl le].
    unfold Vec.cross, Vec.sub.
    cbn [AreaLightData.v1 AreaLightData.v2 AreaLightData.v3 vx vy vz].
    f_equal; unfold float; ring.
Qed.

Lemma cosineSample_height (r1 r2 : R) :
  0 <= r1 <= 1 -> vz (cosineSampleHemisphere r1 r2) = sqrt r1.
Proof.
  intros Hr1. pose proof (sqrt_unit r1 Hr1) as Hq.
  unfold cosineSampleHemisphere, sphericalToWorld. cbn [vz].
  apply cos_acos. lra.
Qed.



(** ** Flags of the payload *)


(** ** Visibility *)

(** X7. [visible] answers true exactly when the shadow ray meets nothing;
    the uninitialised fields of the shadow payload play no part. *)
Theorem visible_iff_unoccluded (scene : Scene.t) (p1 p2 : float3) :
  visible scene p1 p2 = true <->
  Scene.intersect scene (shadowRay p1 p2) = None.
Proof.
  unfold visible. fold (shadowRay p1 p2).
  destruct (Scene.intersect scene (shadowRay p1 p2)) as [h |].
  - cbn [pathThroughput set_pathThroughput vx]. unfold Rltb.
    destruct (Rlt_dec 0 0) as [H | _]; [lra |].
    split; intros H; discriminate H.
  - unfold Miss. cbn [flags set_flags set_pathThroughput pathThroughput].
    rewrite decodeIsShadow_encodeIsShadow.
    cbn [negb vx set_pathThroughput pathThroughput].
    rewrite Rltb_true by lra. split; reflexivity.
Qed.

(** ** Sampling and evaluating the BSDF *)

Lemma draw_snd (s : Z) : snd (draw s) = Sampler.rnd_state s.
Proof.
  unfold draw. destruct (Sampler.rnd s) eqn:E. unfold Sampler.rnd in E.
  injection E as _ <-. reflexivity.
Qed.

Lemma sampleBSDF_diffuse (scene : Scene.t) (rd : float3) (h : HitData) (s : Z) :
  In (bsdf h) [0; 2; 4; 5; 6; 7]%Z ->
  sampleBSDF scene rd h s =
    (Vec.normalize
       (Vec.mul_vm (cosineSampleHemisphere (fst (draw s))
                      (fst (draw (Sampler.rnd_state s)))) (tbn h)),
     Vec.divs (albedo h) PI,
     cosineHemispherePDF (cosineSampleHemisphere (fst (draw s))
                            (fst (draw (Sampler.rnd_state s)))),
     false,
     Sampler.rnd_state (Sampler.rnd_state s)).
Proof.
  intros Hb.
  assert (Hd : forall t, draw t = (fst (draw t), Sampler.rnd_state t)).
  { intros t. rewrite <- draw_snd. destruct (draw t); reflexivity. }
  unfold sampleBSDF, sampleDiffuseLobe, bind, ret.
  cbn [In] in Hb.
  destruct Hb as [<- | [<- | [<- | [<- | [<- | [<- | []]]]]]];
    cbn [Z.eqb Pos.eqb]; rewrite (Hd s), (Hd (Sampler.rnd_state s));
    reflexivity.
Qed.


(** ** Direct lighting *)

Lemma Rinv_nonneg (d : R) : 0 <= d -> 0 <= / d.
Proof.
  intros [H | <-]; [apply Rlt_le, Rinv_0_lt_compat; exact H |].
  rewrite Rinv_0. apply Rle_refl.
Qed.

Lemma contribution_nonneg (a b : float3) (k d : R) :
  Vec.nonneg a -> Vec.nonneg b -> 0 <= k -> 0 <= d ->
  Vec.nonneg (Vec.divs (Vec.scale (Vec.mul a b) k) d).
Proof.
  intros (Ax & Ay & Az) (Bx & By & Bz) Hk Hd.
  pose proof (Rinv_nonneg d Hd) as Hi.
  unfold Vec.nonneg, Vec.divs, Vec.scale, Vec.mul, Rdiv. cbn [vx vy vz].
  repeat split; repeat apply Rmult_le_pos; assumption.
Qed.

Lemma contribution_zero (a : float3) (k d : R) :
  Vec.divs (Vec.scale (Vec.mul a (mkFloat3 0 0 0)) k) d = mkFloat3 0 0 0.
Proof.
  unfold Vec.divs, Vec.scale, Vec.mul, Rdiv. cbn [vx vy vz].
  f_equal; unfold float; ring.
Qed.

Lemma itof_nonneg (n : Z) : (0 <= n)%Z -> 0 <= itof n.
Proof.
  intros Hn. unfold itof, Sampler.utof. apply IZR_le.
  destruct (Z.eq_dec n 0) as [-> | Hne]; [vm_compute; congruence |].
  apply Z.lt_le_incl, round24_pos. lia.
Qed.

Lemma pmf_nonneg (n : Z) : 0 <= 1 / itof (Sampler.u32 (n + 1)).
Proof.
  unfold Rdiv. rewrite Rmult_1_l. apply Rinv_nonneg, itof_nonneg.
  apply u32_range.
Qed.

Lemma evaluateBSDF_nonneg (rd wi : float3) (h : HitData) :
  Vec.nonneg (albedo h) -> Vec.nonneg (evaluateBSDF rd h wi).
Proof.
  intros Ha.
  assert (Hz : Vec.nonneg (mkFloat3 0 0 0))
    by (unfold Vec.nonneg; cbn [vx vy vz]; lra).
  assert (Hd : Vec.nonneg (Vec.divs (albedo h) PI))
    by (apply divs_nonneg; [exact Ha | unfold PI; lra]).
  unfold evaluateBSDF.
  repeat match goal with |- context [if ?c then _ else _] => destruct c end;
    assumption.
Qed.

Lemma calculateDirect_cases (scene : Scene.t) (h : HitData) (rd : float3) (s : Z) :
  (exists t, calculateDirect scene h rd s = directEnvironment scene h rd t) \/
  (exists t, calculateDirect scene h rd s = directAreaLight scene h rd t).
Proof.
  unfold calculateDirect, bind.
  destruct (chooseEnvironment scene s) as [[|] t]; [left | right];
    exists t; reflexivity.
Qed.

Lemma directEnvironment_value (scene : Scene.t) (h : HitData) (rd : float3) (s : Z) :
  exists wi k,
    (fst (directEnvironment scene h rd s) = mkFloat3 0 0 0 \/
     (0 < k /\
      fst (directEnvironment scene h rd s) =
        Vec.divs (Vec.scale (Vec.mul (Scene.evaluateEnvironmentMap scene wi)
                                     (evaluateBSDF rd h wi)) k)
                 (1 / itof (Sampler.u32 (Scene.nLights scene + 1))
                  * uniformSpherePDF))).
Proof.
  unfold directEnvironment, bind, ret.
  destruct (draw s) as [r1 s1]. destruct (draw s1) as [r2 s2].
  exists (uniformSampleSphere r1 r2),
         (Vec.dot (normal h) (uniformSampleSphere r1 r2)).
  unfold Rltb.
  destruct (Rlt_dec 0 (Vec.dot (normal h) (uniformSampleSphere r1 r2)))
    as [Hpos | Hneg]; cbn [andb]; [| left; reflexivity].
  destruct (visible scene _ _); [right | left; reflexivity].
  split; [exact Hpos | reflexivity].
Qed.

Lemma sampleAreaLight_in_pdf (light : AreaLightData.t) (s : Z) :
  0 <= snd (fst (sampleAreaLight light s)).
Proof.
  unfold sampleAreaLight, bind, ret.
  destruct (draw s) as [r1 s1]. destruct (draw s1) as [r2 s2].
  unfold uniformSampleTriangle. cbn [fst snd].
  unfold Rdiv. rewrite Rmult_1_l. apply Rinv_nonneg.
  apply Rmult_le_pos; [apply sqrt_pos |].
  unfold Q2R; cbn [Qnum Qden]. lra.
Qed.

Lemma directAreaLight_cases (scene : Scene.t) (h : HitData) (rd : float3) (s : Z) :
  exists i wi k d,
    0 <= d /\
    (fst (directAreaLight scene h rd s) = mkFloat3 0 0 0 \/
     (0 < k /\
      fst (directAreaLight scene h rd s) =
        Vec.divs (Vec.scale
                    (Vec.mul (AreaLightData.Le (Scene.areaLightData scene i))
                             (evaluateBSDF rd h wi)) k)
                 (1 / itof (Sampler.u32 (Scene.nLights scene + 1)) * d))).
Proof.
  rewrite directAreaLight_value.
  unfold sampleLight.
  destruct (Sampler.lightIndex (Scene.nLights scene) s) as [i s1].
  pose proof (sampleAreaLight_in_pdf (Scene.areaLightData scene i) s1) as Hpdf.
  destruct (sampleAreaLight (Scene.areaLightData scene i) s1) as [[p pdf] s2].
  cbn [fst snd] in Hpdf. cbv zeta.
  exists i, (Vec.normalize (Vec.sub p (pos h))),
         (geometryTerm h (Scene.areaLightData scene i) p), pdf.
  split; [exact Hpdf |]. cbn [fst].
  unfold Rltb.
  destruct (Rlt_dec 0 (geometryTerm h (Scene.areaLightData scene i) p))
    as [Hpos | Hneg]; cbn [andb]; [| left; reflexivity].
  destruct (visible scene p (pos h)); [right | left; reflexivity].
  split; [exact Hpos | reflexivity].
Qed.

Lemma add_mul_zero (c t : float3) :
  Vec.add c (Vec.mul t (mkFloat3 0 0 0)) = c.
Proof.
  destruct c as [x y z]. unfold Vec.add, Vec.mul. cbn [vx vy vz].
  f_equal; unfold float; ring.
Qed.

(** X9. On an emissive, mirror or glass surface (kinds 1, 3 and 4)
    [calculateDirect] returns zero whatever the lights, the environment and
    the sampler state, so away from the emission gate the handler leaves
    the accumulated colour as it was. *)
Theorem no_direct_light_on_specular (scene : Scene.t) (h : HitData)
  (rd : float3) (p : Payload) (Hkind : In (bsdf h) [1; 3; 4]%Z) :
  fst (calculateDirect scene h rd (rndState p)) = mkFloat3 0 0 0 /\
  (isLight h && ((depth p =? 0)%Z || decodeIsSpecular (flags p)) = false ->
   colour (fst (ClosestHit scene h rd p)) = colour p).
Proof.
  assert (He : forall wi, evaluateBSDF rd h wi = mkFloat3 0 0 0).
  { intros wi. unfold evaluateBSDF. cbn [In] in Hkind.
    destruct Hkind as [<- | [<- | [<- | []]]]; reflexivity. }
  assert (Hz : fst (calculateDirect scene h rd (rndState p)) = mkFloat3 0 0 0).
  { destruct (calculateDirect_cases scene h rd (rndState p)) as [[t ->] | [t ->]].
    - destruct (directEnvironment_value scene h rd t) as (wi & k & [H | [_ H]]);
        [exact H |].
      rewrite H, He. apply contribution_zero.
    - destruct (directAreaLight_cases scene h rd t)
        as (i & wi & k & d & _ & [H | [_ H]]); [exact H |].
      rewrite H, He. apply contribution_zero. }
  split; [exact Hz |].
  intros Hgate. rewrite (ClosestHit_colour_adds scene h rd p Hgate), Hz.
  apply add_mul_zero.
Qed.

Lemma no_direct_light_on_specular_witness :
  In (bsdf emitterHit) [1; 3; 4]%Z /\
  fst (calculateDirect (lampScene 0) emitterHit (mkFloat3 0 0 (-1))
         (rndState deepPayload)) = mkFloat3 0 0 0 /\
  (isLight emitterHit
   && ((depth deepPayload =? 0)%Z || decodeIsSpecular (flags deepPayload)) = false ->
   colour (fst (ClosestHit (lampScene 0) emitterHit (mkFloat3 0 0 (-1)) deepPayload))
   = colour deepPayload).
Proof.
  assert (H : In (bsdf emitterHit) [1; 3; 4]%Z) by (simpl; auto).
  split; [exact H |].
  apply (no_direct_light_on_specular (lampScene 0) emitterHit (mkFloat3 0 0 (-1))
           deepPayload H).
Defined.

(** X10. With a non-negative throughput, albedo, light radiance and
    environment, the direct lighting is non-negative in every component,
    and away from the emission gate the closest-hit handler never decreases
    a component of the accumulated colour. *)
Theorem ClosestHit_colour_monotone (scene : Scene.t) (h : HitData)
  (rd : float3) (p : Payload)
  (HT : Vec.nonneg (pathThroughput p))
  (Halbedo : Vec.nonneg (albedo h))
  (HLe : forall i, Vec.nonneg (AreaLightData.Le (Scene.areaLightData scene i)))
  (Henv : forall wi, Vec.nonneg (Scene.evaluateEnvironmentMap scene wi))
  (Hgate : isLight h && ((depth p =? 0)%Z || decodeIsSpecular (flags p)) = false) :
  Vec.nonneg (fst (calculateDirect scene h rd (rndState p))) /\
  Vec.le (colour p) (colour (fst (ClosestHit scene h rd p))).
Proof.
  assert (Hz : Vec.nonneg (mkFloat3 0 0 0))
    by (unfold Vec.nonneg; cbn [vx vy vz]; lra).
  assert (Hd : Vec.nonneg (fst (calculateDirect scene h rd (rndState p)))).
  { destruct (calculateDirect_cases scene h rd (rndState p)) as [[t ->] | [t ->]].
    - destruct (directEnvironment_value scene h rd t) as (wi & k & [H | [Hk H]]);
        rewrite H; [exact Hz |].
      apply contribution_nonneg;
        [apply Henv | apply evaluateBSDF_nonneg; exact Halbedo | lra |].
      apply Rmult_le_pos; [apply pmf_nonneg |].
      unfold uniformSpherePDF, PI, Rdiv. rewrite Rmult_1_l.
      apply Rinv_nonneg. lra.
    - destruct (directAreaLight_cases scene h rd t)
        as (i & wi & k & d & Hdn & [H | [Hk H]]); rewrite H; [exact Hz |].
      apply contribution_nonneg;
        [apply HLe | apply evaluateBSDF_nonneg; exact Halbedo | lra |].
      apply Rmult_le_pos; [apply pmf_nonneg | exact Hdn]. }
  split; [exact Hd |].
  rewrite (ClosestHit_colour_adds scene h rd p Hgate).
  destruct HT as (Tx & Ty & Tz). destruct Hd as (Dx & Dy & Dz).
  unfold Vec.le, Vec.add, Vec.mul. cbn [vx vy vz].
  pose proof (Rmult_le_pos _ _ Tx Dx). pose proof (Rmult_le_pos _ _ Ty Dy).
  pose proof (Rmult_le_pos _ _ Tz Dz). repeat split; lra.
Qed.

Lemma ClosestHit_colour_monotone_witness :
  Vec.nonneg (pathThroughput deepPayload) /\
  Vec.nonneg (albedo floorHit) /\
  (forall i, Vec.nonneg (AreaLightData.Le (Scene.areaLightData (lampScene 0) i))) /\
  (forall wi, Vec.nonneg (Scene.evaluateEnvironmentMap (lampScene 0) wi)) /\
  isLight floorHit
  && ((depth deepPayload =? 0)%Z || decodeIsSpecular (flags deepPayload)) = false /\
  Vec.nonneg (fst (calculateDirect (lampScene 0) floorHit (mkFloat3 0 0 (-1))
                     (rndState deepPayload))) /\
  Vec.le (colour deepPayload)
         (colour (fst (ClosestHit (lampScene 0) floorHit (mkFloat3 0 0 (-1))
                         deepPayload))).
Proof.
  assert (H1 : Vec.nonneg (pathThroughput deepPayload))
    by (unfold Vec.nonneg; simpl; lra).
  assert (H2 : Vec.nonneg (albedo floorHit))
    by (unfold Vec.nonneg; simpl; lra).
  assert (H3 : forall i,
             Vec.nonneg (AreaLightData.Le (Scene.areaLightData (lampScene 0) i)))
    by (intros i; unfold Vec.nonneg; simpl; lra).
  assert (H4 : forall wi,
             Vec.nonneg (Scene.evaluateEnvironmentMap (lampScene 0) wi))
    by (intros wi; unfold Vec.nonneg; simpl; lra).
  assert (H5 : isLight floorHit
               && ((depth deepPayload =? 0)%Z
                   || decodeIsSpecular (flags deepPayload)) = false)
    by reflexivity.
  split; [exact H1 |]. split; [exact H2 |]. split; [exact H3 |].
  split; [exact H4 |]. split; [exact H5 |].
  apply (ClosestHit_colour_monotone (lampScene 0) floorHit (mkFloat3 0 0 (-1))
           deepPayload H1 H2 H3 H4 H5).
Defined.

(** ** Tone mapping *)




(** ** The shading frame *)

Lemma normalize_unit (a : float3) :
  Vec.dot a a <> 0 -> Vec.dot (Vec.normalize a) (Vec.normalize a) = 1.
Proof.
  intros Hne.
  assert (Hpos : 0 < Vec.dot a a).
  { destruct a as [x y z]. unfold Vec.dot in *. cbn [vx vy vz] in *. nra. }
  unfold Vec.normalize, Vec.length.
  set (l := sqrt (Vec.dot a a)).
  assert (Hl : 0 < l) by (apply sqrt_lt_R0; exact Hpos).
  assert (Hll : l * l = Vec.dot a a) by (apply sqrt_sqrt; lra).
  destruct a as [x y z]. unfold Vec.divs, Vec.dot in *. cbn [vx vy vz] in *.
  replace (x / l * (x / l) + y / l * (y / l) + z / l * (z / l))
    with ((x * x + y * y + z * z) / (l * l)) by (unfold float; field; lra).
  rewrite Hll. unfold float. field. lra.
Qed.

Lemma normalize_of_unit (a : float3) :
  Vec.dot a a = 1 -> Vec.normalize a = a.
Proof.
  intros H. unfold Vec.normalize, Vec.length. rewrite H, sqrt_1.
  destruct a as [x y z]. unfold Vec.divs. cbn [vx vy vz].
  f_equal; unfold float; field.
Qed.

Lemma neg_dot (a b : float3) : Vec.dot (Vec.neg a) b = - Vec.dot a b.
Proof. unfold Vec.dot, Vec.neg. cbn [vx vy vz]. unfold float. ring. Qed.

Lemma neg_neg_dot (a : float3) :
  Vec.dot (Vec.neg a) (Vec.neg a) = Vec.dot a a.
Proof. unfold Vec.dot, Vec.neg. cbn [vx vy vz]. unfold float. ring. Qed.

(** The tangent built from a unit normal has length 1 and is perpendicular
    to the normal. *)
Lemma hitTangent_unit (n : float3) :
  Vec.dot n n = 1 ->
  Vec.dot (hitTangent n) (hitTangent n) = 1 /\ Vec.dot (hitTangent n) n = 0.
Proof.
  destruct n as [x y z]. unfold Vec.dot, hitTangent. cbn [vx vy vz].
  intros Hn. unfold Rltb.
  destruct (Rlt_dec (Rabs y) (Rabs x)) as [Hlt | Hge]; cbn [vx vy vz].
  - assert (Hx : x <> 0).
    { intros ->. rewrite Rabs_R0 in Hlt. pose proof (Rabs_pos y). lra. }
    assert (Hs : 0 < x * x + z * z) by nra.
    set (q := sqrt (x * x + z * z)).
    assert (Hq : 0 < q) by (apply sqrt_lt_R0; exact Hs).
    assert (Hqq : q * q = x * x + z * z) by (apply sqrt_sqrt; lra).
    split.
    + replace (z * (1 / q) * (z * (1 / q)) + 0 * 0
               + - x * (1 / q) * (- x * (1 / q)))
        with ((x * x + z * z) / (q * q)) by (unfold float; field; lra).
      rewrite Hqq. unfold float. field. lra.
    + unfold float. field. lra.
  - assert (Hs : 0 < y * y + z * z).
    { destruct (Req_dec y 0) as [-> | Hy]; [| nra].
      rewrite Rabs_R0 in Hge.
      assert (Hx0 : x = 0).
      { destruct (Req_dec x 0) as [-> | Hx]; [reflexivity |].
        exfalso. apply Hge. apply Rabs_pos_lt. exact Hx. }
      subst x. nra. }
    set (q := sqrt (y * y + z * z)).
    assert (Hq : 0 < q) by (apply sqrt_lt_R0; exact Hs).
    assert (Hqq : q * q = y * y + z * z) by (apply sqrt_sqrt; lra).
    split.
    + replace (0 * 0 + z * (1 / q) * (z * (1 / q))
               + - y * (1 / q) * (- y * (1 / q)))
        with ((y * y + z * z) / (q * q)) by (unfold float; field; lra).
      rewrite Hqq. unfold float. field. lra.
    + unfold float. field. lra.
Qed.

Lemma cross_facts (a b : float3) :
  Vec.dot (Vec.cross a b) a = 0 /\ Vec.dot (Vec.cross a b) b = 0 /\
  Vec.dot (Vec.cross a b) (Vec.cross a b)
    = Vec.dot a a * Vec.dot b b - Vec.dot a b * Vec.dot a b.
Proof.
  destruct a as [a1 a2 a3]. destruct b as [b1 b2 b3].
  unfold Vec.dot, Vec.cross. cbn [vx vy vz]. repeat split; unfold float; ring.
Qed.

Lemma dot_comm (a b : float3) : Vec.dot a b = Vec.dot b a.
Proof. unfold Vec.dot. unfold float. ring. Qed.

(** The frame [(tangent, binormal, normal)] built from a unit normal. *)
Lemma shading_frame_orthonormal (n : float3) :
  Vec.dot n n = 1 ->
  orthonormal
    (mkFloat3x3 (hitTangent n)
                (Vec.normalize (Vec.cross n (hitTangent n))) n).
Proof.
  intros Hn. destruct (hitTangent_unit n Hn) as [Ht Htn].
  destruct (cross_facts n (hitTangent n)) as (Hc1 & Hc2 & Hc3).
  assert (Hcu : Vec.dot (Vec.cross n (hitTangent n))
                        (Vec.cross n (hitTangent n)) = 1).
  { rewrite Hc3, Hn, Ht, (dot_comm n (hitTangent n)), Htn. unfold float. ring. }
  rewrite (normalize_of_unit _ Hcu).
  unfold orthonormal. cbn [row0 row1 row2].
  repeat split; try assumption.
  rewrite dot_comm. exact Hc2.
Qed.

(** X12. When the interpolated normal does not vanish in world space,
    [calculateHitData] returns a normal of length 1 and a frame
    [(tangent, binormal, normal)] of unit vectors perpendicular to one
    another.  For every kind but glass (4) and dielectric (6) the normal
    faces the incoming ray.  The hit position lies on the ray and the BSDF
    kind is the upper half of [bsdfAlbedoID]. *)
Theorem calculateHitData_frame (geo : Geometry.t) (hit : Intersection.t)
  (Hn : Vec.dot (worldNormal geo hit) (worldNormal geo hit) <> 0) :
  let h := calculateHitData geo hit in
  Vec.dot (normal h) (normal h) = 1 /\
  orthonormal (tbn h) /\ row2 (tbn h) = normal h /\
  (bsdf h <> 4%Z -> bsdf h <> 6%Z ->
   Vec.dot (normal h) (Intersection.WorldRayDirection hit) <= 0) /\
  pos h = Vec.add (Intersection.WorldRayOrigin hit)
                  (Vec.scale (Intersection.WorldRayDirection hit)
                             (Intersection.RayTCurrent hit)) /\
  bsdf h = Z.shiftr (bsdfAlbedoID (instance h)) 16.
Proof.
  intros h. unfold h, calculateHitData. fold (worldNormal geo hit).
  cbn [normal tbn row2 pos bsdf instance].
  set (x := worldNormal geo hit) in *.
  set (b := Z.shiftr _ 16).
  pose proof (normalize_unit x Hn) as Hu.
  set (n := if isBSDFTwoSided b
               && Rltb 0 (Vec.dot (Vec.normalize x)
                                  (Intersection.WorldRayDirection hit))
            then Vec.neg (Vec.normalize x) else Vec.normalize x).
  assert (Hnu : Vec.dot n n = 1).
  { unfold n. destruct (_ && _); [rewrite neg_neg_dot |]; exact Hu. }
  split; [exact Hnu |].
  split; [apply shading_frame_orthonormal; exact Hnu |].
  split; [reflexivity |].
  split; [| split; reflexivity].
  intros H4 H6.
  assert (Hts : isBSDFTwoSided b = true).
  { unfold isBSDFTwoSided.
    destruct (Z.eqb_spec b 4) as [E | _]; [contradiction |].
    destruct (Z.eqb_spec b 6) as [E | _]; [contradiction |]. reflexivity. }
  unfold n. rewrite Hts. cbn [andb]. unfold Rltb.
  destruct (Rlt_dec 0 _) as [Hpos | Hneg].
  - rewrite neg_dot. lra.
  - lra.
Qed.

Lemma worldNormal_flat :
  worldNormal flatGeometry straightHit = mkFloat3 0 0 1.
Proof.
  unfold worldNormal, flatGeometry, straightHit.
  cbn [Geometry.vertices Geometry.indices Geometry.instanceData
       Intersection.InstanceID Intersection.PrimitiveIndex
       Intersection.barycentrics Intersection.ObjectToWorld
       Vertex.normal fst snd].
  assert (Hi : Vec.add (Vec.add (Vec.scale (mkFloat3 0 0 1) (1 - 0 - 0))
                                (Vec.scale (mkFloat3 0 0 1) 0))
                       (Vec.scale (mkFloat3 0 0 1) 0) = mkFloat3 0 0 1).
  { unfold Vec.add, Vec.scale. cbn [vx vy vz]. f_equal; unfold float; ring. }
  rewrite Hi.
  rewrite normalize_of_unit
    by (unfold Vec.dot; cbn [vx vy vz]; unfold float; ring).
  unfold mul_mv, Vec.transpose, inverse, identity3x3, Vec.dot.
  cbn [row0 row1 row2 vx vy vz]. f_equal; unfold float; field.
Qed.

Lemma calculateHitData_frame_witness :
  Vec.dot (worldNormal flatGeometry straightHit)
          (worldNormal flatGeometry straightHit) <> 0 /\
  (let h := calculateHitData flatGeometry straightHit in
   Vec.dot (normal h) (normal h) = 1 /\
   orthonormal (tbn h) /\ row2 (tbn h) = normal h /\
   (bsdf h <> 4%Z -> bsdf h <> 6%Z ->
    Vec.dot (normal h) (Intersection.WorldRayDirection straightHit) <= 0) /\
   pos h = Vec.add (Intersection.WorldRayOrigin straightHit)
                   (Vec.scale (Intersection.WorldRayDirection straightHit)
                              (Intersection.RayTCurrent straightHit)) /\
   bsdf h = Z.shiftr (bsdfAlbedoID (instance h)) 16).
Proof.
  assert (H : Vec.dot (worldNormal flatGeometry straightHit)
                      (worldNormal flatGeometry straightHit) <> 0).
  { rewrite worldNormal_flat. unfold Vec.dot. simpl. lra. }
  split; [exact H |].
  apply (calculateHitData_frame flatGeometry straightHit H).
Defined.

(** ** The diffuse bounce *)

Lemma mul_vm_orthonormal (v : float3) (m : float3x3) :
  orthonormal m ->
  Vec.dot (Vec.mul_vm v m) (Vec.mul_vm v m) = Vec.dot v v /\
  Vec.dot (Vec.mul_vm v m) (row2 m) = vz v.
Proof.
  intros (H00 & H11 & H22 & H01 & H02 & H12).
  destruct m as [[ax ay az] [bx by_ bz] [cx cy cz]], v as [x y z].
  unfold Vec.dot in *. cbn [row0 row1 row2 vx vy vz] in *.
  unfold Vec.mul_vm, Vec.add, Vec.scale. cbn [row0 row1 row2 vx vy vz].
  unfold float in *. split.
  - replace ((ax * x + bx * y + cx * z) * (ax * x + bx * y + cx * z) +
             (ay * x + by_ * y + cy * z) * (ay * x + by_ * y + cy * z) +
             (az * x + bz * y + cz * z) * (az * x + bz * y + cz * z))
      with (x * x * (ax * ax + ay * ay + az * az) +
            y * y * (bx * bx + by_ * by_ + bz * bz) +
            z * z * (cx * cx + cy * cy + cz * cz) +
            2 * x * y * (ax * bx + ay * by_ + az * bz) +
            2 * x * z * (ax * cx + ay * cy + az * cz) +
            2 * y * z * (bx * cx + by_ * cy + bz * cz)) by ring.
    rewrite H00, H11, H22, H01, H02, H12. ring.
  - replace ((ax * x + bx * y + cx * z) * cx +
             (ay * x + by_ * y + cy * z) * cy +
             (az * x + bz * y + cz * z) * cz)
      with (x * (ax * cx + ay * cy + az * cz) +
            y * (bx * cx + by_ * cy + bz * cz) +
            z * (cx * cx + cy * cy + cz * cz)) by ring.
    rewrite H02, H12, H22. ring.
Qed.

(** X13. A bounce off a diffuse surface.  For every kind that samples the
    diffuse lobe (0, 2, 4, 5, 6, 7), an orthonormal shading frame whose
    third row is the normal, and a first random number above 0, [scatter]
    continues the path: the throughput is multiplied by the albedo and by
    nothing else (the cosine and [PI] of the estimator cancel against the
    density), the depth grows by one, the specular flag is cleared, two
    random numbers are consumed, and the next ray leaves the offset hit
    point in a unit direction on the normal's side. *)
Theorem diffuse_bounce_keeps_albedo (scene : Scene.t) (h : HitData)
  (rd : float3) (p : Payload)
  (Hkind : In (bsdf h) [0; 2; 4; 5; 6; 7]%Z)
  (Hframe : orthonormal (tbn h))
  (Hrow : row2 (tbn h) = normal h)
  (Hr : 0 < fst (draw (rndState p))) :
  exists ray,
    snd (scatter scene h rd p) = Some ray /\
    let p' := fst (scatter scene h rd p) in
    pathThroughput p' = Vec.mul (pathThroughput p) (albedo h) /\
    depth p' = Sampler.u32 (depth p + 1) /\
    decodeIsSpecular (flags p') = false /\
    rndState p' = Sampler.rnd_state (Sampler.rnd_state (rndState p)) /\
    colour p' = colour p /\
    Vec.dot (Direction ray) (Direction ray) = 1 /\
    0 < Vec.dot (Direction ray) (normal h) /\
    Origin ray = Vec.add (pos h) (Vec.scale (normal h) 0.001).
Proof.
  unfold scatter. rewrite (sampleBSDF_diffuse scene rd h _ Hkind).
  set (r1 := fst (draw (rndState p))) in *.
  set (r2 := fst (draw (Sampler.rnd_state (rndState p)))).
  assert (Hr1 : 0 <= r1 <= 1).
  { unfold r1. pose proof (draw_range (rndState p)). lra. }
  pose proof (cosineSample_height r1 r2 Hr1) as Hz.
  assert (Hu : Vec.dot (cosineSampleHemisphere r1 r2)
                       (cosineSampleHemisphere r1 r2) = 1)
    by apply sphericalToWorld_unit.
  set (wl := cosineSampleHemisphere r1 r2) in *.
  assert (Hpdf : cosineHemispherePDF wl = sqrt r1 / PI)
    by (unfold cosineHemispherePDF; rewrite Hz; reflexivity).
  destruct (mul_vm_orthonormal wl (tbn h) Hframe) as (Hvv & Hvn).
  rewrite Hu in Hvv. rewrite Hrow, Hz in Hvn.
  rewrite (normalize_of_unit _ Hvv).
  assert (Hq : 0 < sqrt r1) by (apply sqrt_lt_R0; exact Hr).
  assert (HPI : 0 < PI) by (unfold PI; lra).
  assert (Hp : 0 < cosineHemispherePDF wl)
    by (rewrite Hpdf; apply Rdiv_lt_0_compat; assumption).
  assert (Hleb : Rleb (cosineHemispherePDF wl) 0 = false).
  { unfold Rleb. destruct (Rle_dec _ _); [lra | reflexivity]. }
  rewrite Hleb, Hvn, (Rltb_true _ _ Hq).
  eexists. split; [reflexivity |].
  cbn [fst snd pathThroughput depth flags rndState colour
       set_pathThroughput set_depth set_flags set_rndState
       Direction Origin].
  split.
  { rewrite Hpdf, (Rabs_pos_eq _ (Rlt_le _ _ Hq)).
    unfold Vec.divs, Vec.scale, Vec.mul. cbn [vx vy vz].
    f_equal; unfold float; field; lra. }
  split; [reflexivity |].
  split; [apply decodeIsSpecular_clearSpecular |].
  split; [reflexivity |]. split; [reflexivity |].
  split; [exact Hvv |]. split; [rewrite Hvn; exact Hq | reflexivity].
Qed.

Lemma draw_pos (s : Z) : (0 < Sampler.rnd_num s)%Z -> 0 < fst (draw s).
Proof.
  intros H. unfold draw, Sampler.rnd. cbn [fst]. unfold Q2R. cbn [Qnum Qden].
  apply Rmult_lt_0_compat; [apply IZR_lt; exact H |].
  apply Rinv_0_lt_compat, IZR_lt. reflexivity.
Qed.

Lemma identity3x3_orthonormal : orthonormal identity3x3.
Proof.
  unfold orthonormal, identity3x3, Vec.dot. cbn [row0 row1 row2 vx vy vz].
  repeat split; unfold float; ring.
Qed.

Lemma diffuse_bounce_keeps_albedo_witness :
  exists ray,
    snd (scatter skyScene floorHit (mkFloat3 0 0 (-1)) zeroPayload) = Some ray /\
    let p' := fst (scatter skyScene floorHit (mkFloat3 0 0 (-1)) zeroPayload) in
    pathThroughput p' = Vec.mul (pathThroughput zeroPayload) (albedo floorHit) /\
    depth p' = Sampler.u32 (depth zeroPayload + 1) /\
    decodeIsSpecular (flags p') = false /\
    rndState p' =
      Sampler.rnd_state (Sampler.rnd_state (rndState zeroPayload)) /\
    colour p' = colour zeroPayload /\
    Vec.dot (Direction ray) (Direction ray) = 1 /\
    0 < Vec.dot (Direction ray) (normal floorHit) /\
    Origin ray = Vec.add (pos floorHit) (Vec.scale (normal floorHit) 0.001).
Proof.
  apply (diffuse_bounce_keeps_albedo skyScene floorHit (mkFloat3 0 0 (-1))
           zeroPayload).
  - simpl. auto.
  - exact identity3x3_orthonormal.
  - reflexivity.
  - apply draw_pos. vm_compute. reflexivity.
Defined.

(** ** The sampler, continued *)

Local Open Scope Z_scope.

(** Rounding to 24 significant bits raises a value by at most one part in
    [2^24]. *)
Lemma round24_error (m : Z) :
  0 <= m -> Sampler.round24 m * 2 ^ 24 <= m * (2 ^ 24 + 1).
Proof.
  intros H0. unfold Sampler.round24.
  destruct (Z.ltb_spec m (2 ^ 24)) as [Hs | Hl]; [lia |].
  assert (Hpos : 0 < m) by lia.
  destruct (Z.log2_spec m Hpos) as [Hlo Hhi].
  assert (Hlog : 24 <= Z.log2 m).
  { apply Z.log2_le_pow2; [assumption | exact Hl]. }
  set (e := Z.log2 m - 23) in *.
  assert (He : 1 <= e) by (unfold e; lia).
  rewrite Z.shiftr_div_pow2, Z.land_ones, Z.shiftl_mul_pow2 by lia.
  assert (Hpe : 2 ^ e = 2 * 2 ^ (e - 1)).
  { replace e with (1 + (e - 1)) at 1 by lia.
    rewrite Z.pow_add_r by lia. reflexivity. }
  assert (Hhalf : 2 ^ (e - 1) * 2 ^ 24 = 2 ^ Z.log2 m).
  { rewrite <- Z.pow_add_r by lia. f_equal. unfold e. lia. }
  assert (Hh : 0 < 2 ^ (e - 1)) by (apply Z.pow_pos_nonneg; lia).
  pose proof (Z.div_mod m (2 ^ e) ltac:(lia)) as Hdm.
  pose proof (Z.mod_pos_bound m (2 ^ e) ltac:(lia)) as Hr.
  set (q := m / 2 ^ e) in *. set (r := m mod 2 ^ e) in *.
  set (half := 2 ^ (e - 1)) in *.
  destruct (Z.ltb_spec half r) as [Hgt | Hle]; cbn [orb].
  - nia.
  - destruct (Z.eqb_spec r half) as [Heq | Hne]; cbn [andb].
    + destruct (Z.odd q); nia.
    + nia.
Qed.

(** X14. The light index of [sampleLight] is a valid index whenever the
    draw is below 1: for [1 <= nLights < 2^24] and a generator output below
    [0xFFFFFF80], the index lies in [[0, nLights)].  The product
    [rnd * nLights] is rounded to binary32 before it is truncated, and the
    rounding never reaches [nLights]. *)
Theorem lightIndex_in_range (nLights s : Z)
  (Hn : 1 <= nLights < 2 ^ 24)
  (Hs : Sampler.rnd_bits s < 4294967168) :
  0 <= fst (Sampler.lightIndex nLights s) < nLights.
Proof.
  unfold Sampler.lightIndex. cbn [fst].
  replace (Sampler.utof nLights) with nLights
    by (symmetry; apply round24_small; lia).
  pose proof (rnd_bits_range s) as Hb.
  assert (Hnum : 0 <= Sampler.rnd_num s <= 2 ^ 32 - 256).
  { unfold Sampler.rnd_num, Sampler.utof.
    destruct (Z.lt_ge_cases (Sampler.rnd_bits s) (2 ^ 31)) as [Hlo | Hhi].
    - pose proof (round24_bounds (Sampler.rnd_bits s) 31
                    ltac:(lia) ltac:(lia)). lia.
    - rewrite round24_top by lia.
      pose proof (Z.div_mod (Sampler.rnd_bits s) 256 ltac:(lia)) as Hdm.
      pose proof (Z.mod_pos_bound (Sampler.rnd_bits s) 256 ltac:(lia)) as Hr.
      pose proof (proj2 (round24_below (Sampler.rnd_bits s) Hb)
                    ltac:(lia)) as Hlt.
      rewrite round24_top in Hlt by lia.
      destruct ((_ <? _) || _); lia. }
  set (x := Sampler.rnd_num s) in *.
  assert (Hm : 0 <= x * nLights) by nia.
  pose proof (round24_error (x * nLights) Hm) as He.
  assert (Hr0 : 0 <= Sampler.round24 (x * nLights)).
  { destruct (Z.eq_dec (x * nLights) 0) as [-> | Hne]; [vm_compute; discriminate |].
    apply Z.lt_le_incl, round24_pos. lia. }
  assert (Hlt : Sampler.round24 (x * nLights) < nLights * 2 ^ 32) by nia.
  assert (Hdiv : 0 <= Sampler.round24 (x * nLights) / 2 ^ 32 < nLights).
  { split; [apply Z.div_pos; lia |].
    apply Z.div_lt_upper_bound; lia. }
  lia.
Qed.

Lemma lightIndex_in_range_witness :
  0 <= fst (Sampler.lightIndex 3 0) < 3.
Proof.
  apply (lightIndex_in_range 3 0); [lia | vm_compute; reflexivity].
Defined.

Local Open Scope R_scope.

(** ** Seeds and the state of the generator *)

Local Open Scope Z_scope.

(** Multiplication by a constant that has an inverse modulo [2^32] loses
    nothing of a 32-bit value. *)
Lemma u32_mul_cancel (K Kinv a b : Z) :
  Sampler.u32 (K * Kinv) = 1 ->
  0 <= a < 2 ^ 32 -> 0 <= b < 2 ^ 32 ->
  Sampler.u32 (a * K) = Sampler.u32 (b * K) -> a = b.
Proof.
  unfold Sampler.u32. intros HK Ha Hb H.
  pose proof (Z.div_mod (K * Kinv) (2 ^ 32) ltac:(lia)) as HKd.
  pose proof (Z.div_mod (a * K) (2 ^ 32) ltac:(lia)) as Had.
  pose proof (Z.div_mod (b * K) (2 ^ 32) ltac:(lia)) as Hbd.
  rewrite HK in HKd. rewrite H in Had.
  set (j := K * Kinv / 2 ^ 32) in *.
  set (ka := a * K / 2 ^ 32) in *. set (kb := b * K / 2 ^ 32) in *.
  assert (Hd : a - b = 2 ^ 32 * ((ka - kb) * Kinv - (a - b) * j)) by nia.
  lia.
Qed.

Lemma rnd_state_cancel (a b : Z) :
  0 <= a < 2 ^ 32 -> 0 <= b < 2 ^ 32 ->
  Sampler.rnd_state a = Sampler.rnd_state b -> a = b.
Proof.
  intros Ha Hb H. unfold Sampler.rnd_state, Sampler.u32 in H.
  apply (u32_mul_cancel 747796405 3425435293 a b);
    [vm_compute; reflexivity | exact Ha | exact Hb |].
  unfold Sampler.u32.
  rewrite <- (Z.add_simpl_r (a * 747796405) 2891336453).
  rewrite <- (Z.add_simpl_r (b * 747796405) 2891336453).
  rewrite (Zminus_mod (a * 747796405 + 2891336453)), H.
  rewrite <- Zminus_mod. reflexivity.
Qed.

(** X15. The state update of [rnd] is one-to-one on 32-bit states, and so
    is any number of updates: two different states never run into the same
    stream of random numbers, however many numbers are drawn. *)
Theorem rnd_state_injective (n : nat) (a b : Z)
  (Ha : 0 <= a < 2 ^ 32) (Hb : 0 <= b < 2 ^ 32)
  (H : Nat.iter n Sampler.rnd_state a = Nat.iter n Sampler.rnd_state b) :
  a = b.
Proof.
  induction n as [| n IH]; [exact H |].
  cbn [Nat.iter nat_rect] in H. apply IH.
  assert (Hr : forall x, 0 <= x < 2 ^ 32 ->
                 0 <= Nat.iter n Sampler.rnd_state x < 2 ^ 32).
  { intros x Hx. destruct n as [| m]; [exact Hx |].
    cbn [Nat.iter nat_rect]. apply u32_range. }
  apply rnd_state_cancel; [apply Hr, Ha | apply Hr, Hb | exact H].
Qed.

Lemma rnd_state_injective_witness : 7 = 7.
Proof.
  apply (rnd_state_injective 3 7 7); [lia | lia | reflexivity].
Defined.

Lemma lxor_cancel_l (c a b : Z) : Z.lxor c a = Z.lxor c b -> a = b.
Proof.
  intros H. apply (f_equal (Z.lxor c)) in H.
  rewrite <- !Z.lxor_assoc, Z.lxor_nilpotent, !Z.lxor_0_l in H. exact H.
Qed.

Lemma lxor_cancel_r (c a b : Z) : Z.lxor a c = Z.lxor b c -> a = b.
Proof. rewrite !(Z.lxor_comm _ c). apply lxor_cancel_l. Qed.

(** The bit pattern of a sample count below [2^24] determines the count. *)
Lemma asuint_of_uint_facts (n : Z) :
  1 <= n < 2 ^ 24 ->
  exists e d, 0 <= e <= 23 /\ 0 <= d < 2 ^ 23 /\
    asuint_of_uint n = (e + 127) * 2 ^ 23 + d /\
    n * 2 ^ (23 - e) = d + 2 ^ 23.
Proof.
  intros Hn. unfold asuint_of_uint.
  destruct (Z.leb_spec n 0) as [Hle | _]; [lia |].
  unfold Sampler.utof. rewrite round24_small by lia.
  destruct (Z.log2_spec n ltac:(lia)) as [Hlo Hhi].
  assert (He0 : 0 <= Z.log2 n) by apply Z.log2_nonneg.
  assert (He : Z.log2 n < 24) by (apply Z.log2_lt_pow2; lia).
  set (e := Z.log2 n) in *.
  destruct (Z.leb_spec e 23) as [_ | Hgt]; [| lia].
  assert (Hp : 2 ^ e * 2 ^ (23 - e) = 2 ^ 23).
  { rewrite <- Z.pow_add_r by lia. f_equal. lia. }
  assert (Hq : 2 ^ Z.succ e * 2 ^ (23 - e) = 2 ^ 24).
  { rewrite <- Z.pow_add_r by lia. f_equal. lia. }
  assert (Hpos : 0 < 2 ^ (23 - e)) by (apply Z.pow_pos_nonneg; lia).
  exists e, (n * 2 ^ (23 - e) - 2 ^ 23).
  split; [lia |]. split; [nia |]. split; [reflexivity | lia].
Qed.

Lemma asuint_of_uint_injective (n1 n2 : Z) :
  1 <= n1 < 2 ^ 24 -> 1 <= n2 < 2 ^ 24 ->
  asuint_of_uint n1 = asuint_of_uint n2 -> n1 = n2.
Proof.
  intros H1 H2 H.
  destruct (asuint_of_uint_facts n1 H1) as (e1 & d1 & He1 & Hd1 & E1 & M1).
  destruct (asuint_of_uint_facts n2 H2) as (e2 & d2 & He2 & Hd2 & E2 & M2).
  rewrite E1, E2 in H.
  assert (He : e1 = e2) by lia. subst e2.
  assert (Hd : d1 = d2) by lia. subst d2.
  assert (Hpos : 0 < 2 ^ (23 - e1)) by (apply Z.pow_pos_nonneg; lia).
  nia.
Qed.

(** X16. The seed that [RayGeneration] gives a pixel.  At one pixel, two
    different sample counts below [2^24] give different seeds, so every
    frame of a still camera draws new random numbers; the counts
    [2^24] and [2^24 + 1] are the same float and give the same seed.
    Within one frame, two pixels of one row, or of one column, never share
    a seed. *)
Theorem seed_never_repeats (x y x' y' n n' : Z)
  (Hn : 1 <= n < 2 ^ 24) (Hn' : 1 <= n' < 2 ^ 24)
  (Hy : 0 <= y < 2 ^ 32) (Hy' : 0 <= y' < 2 ^ 32) :
  let seed idx k := rndState (initialPayload idx (asuint_of_uint k)) in
  (seed (x, y) n = seed (x, y) n' -> n = n') /\
  seed (x, y) 16777216 = seed (x, y) 16777217 /\
  (seed (x, y) n = seed (x', y) n -> x = x') /\
  (seed (x, y) n = seed (x, y') n -> y = y').
Proof.
  intros seed. unfold seed, initialPayload. cbn [rndState fst snd].
  split; [| split; [| split]]; [intros H | | intros H | intros H].
  - apply lxor_cancel_l in H.
    destruct (asuint_of_uint_facts n Hn) as (e1 & d1 & He1 & Hd1 & E1 & _).
    destruct (asuint_of_uint_facts n' Hn') as (e2 & d2 & He2 & Hd2 & E2 & _).
    apply (asuint_of_uint_injective n n' Hn Hn').
    apply (u32_mul_cancel 0x85ebca6b 2781581891);
      [vm_compute; reflexivity | lia | lia | exact H].
  - replace (asuint_of_uint 16777217) with (asuint_of_uint 16777216)
      by (vm_compute; reflexivity).
    reflexivity.
  - apply lxor_cancel_r in H. apply lxor_cancel_r in H. exact H.
  - apply lxor_cancel_r in H. apply lxor_cancel_l in H.
    apply (u32_mul_cancel 0x9e3779b9 340573321 y y');
      [vm_compute; reflexivity | exact Hy | exact Hy' | exact H].
Qed.

Lemma seed_never_repeats_witness :
  let seed idx k := rndState (initialPayload idx (asuint_of_uint k)) in
  (seed (3, 5) 1 = seed (3, 5) 2 -> 1 = 2) /\
  seed (3, 5) 16777216 = seed (3, 5) 16777217 /\
  (seed (3, 5) 1 = seed (4, 5) 1 -> 3 = 4) /\
  (seed (3, 5) 1 = seed (3, 6) 1 -> 5 = 6).
Proof.
  apply (seed_never_repeats 3 5 4 6 1 2); lia.
Defined.

Local Open Scope R_scope.

(** ** Frames, continued *)

(** X17. What a frame of the main loop leaves.  A pixel of the grid holds
    a value that depends on the camera and the counter only, never on the
    image of the frames before; a pixel off the grid keeps its value.
    Camera input sets the counter to 1, a frame without input adds one to
    it. *)
Theorem frame_forgets_image (scene : Scene.t) (size : Z * Z)
  (moved : option Camera) (app : App) (img : Image) (idx : Z * Z) :
  ((0 <= fst idx < fst size)%Z -> (0 <= snd idx < snd size)%Z ->
   uav (frame scene size moved app) idx =
   uav (frame scene size moved (mkApp (camera app) (SPP app) img)) idx) /\
  (~ ((0 <= fst idx < fst size)%Z /\ (0 <= snd idx < snd size)%Z) ->
   uav (frame scene size moved app) idx = uav app idx) /\
  SPP (frame scene size moved app) =
    (match moved with Some _ => 1 | None => Sampler.u32 (SPP app + 1) end)%Z /\
  camera (frame scene size moved app) =
    match moved with Some c => c | None => camera app end.
Proof.
  split; [| split; [| split]].
  - intros Hx Hy.
    destruct (frame_pixel scene size moved app idx Hx Hy) as (p1 & H1 & E1).
    destruct (frame_pixel scene size moved
                (mkApp (camera app) (SPP app) img) idx Hx Hy)
      as (p2 & H2 & E2).
    rewrite E1, E2. unfold frame in H1, H2. cbn [camera SPP] in H1, H2.
    rewrite H1 in H2. injection H2 as ->. reflexivity.
  - intros Hout. unfold frame. cbn [uav].
    destruct ((0 <=? fst idx) && (fst idx <? fst size)
              && (0 <=? snd idx) && (snd idx <? snd size))%Z eqn:Hin;
      [| reflexivity].
    exfalso. apply Hout. rewrite !andb_true_iff in Hin.
    destruct Hin as (((H1 & H2) & H3) & H4).
    apply Z.leb_le in H1, H3. apply Z.ltb_lt in H2, H4. lia.
  - unfold frame. cbn [SPP]. destruct moved; reflexivity.
  - reflexivity.
Qed.

(** * The host program *)

(** ** Mesh data and instances *)

Lemma map_find_assign_same (k : String.string) (v : Z) (m : NameMap) :
  map_find (map_assign k v m) k = Some v.
Proof.
  induction m as [| [k' v'] m IH]; cbn [map_assign map_find].
  - rewrite String.eqb_refl. reflexivity.
  - destruct (String.eqb k' k) eqn:E; cbn [map_find].
    + rewrite String.eqb_refl. reflexivity.
    + rewrite E. exact IH.
Qed.

Lemma map_find_assign_other (k k' : String.string) (v : Z) (m : NameMap) :
  k <> k' -> map_find (map_assign k v m) k' = map_find m k'.
Proof.
  intros Hne. induction m as [| [k0 v0] m IH]; cbn [map_assign map_find].
  - destruct (String.eqb_spec k k'); [contradiction | reflexivity].
  - destruct (String.eqb_spec k0 k) as [-> | Hk]; cbn [map_find].
    + destruct (String.eqb_spec k k'); [contradiction | reflexivity].
    + destruct (String.eqb_spec k0 k'); [reflexivity | exact IH].
Qed.

Lemma u32_small (x : Z) : (0 <= x < 2 ^ 32)%Z -> Sampler.u32 x = x.
Proof. intros H. unfold Sampler.u32. apply Z.mod_small. exact H. Qed.

(** The index stored at place [|I| + j] after a mesh has been appended. *)
Lemma appended_index (I is_ : list Z) (nV : Z) (j : Z) :
  (0 <= j < Z.of_nat (length is_))%Z ->
  nth (Z.to_nat (Z.of_nat (length I) + j))
      (I ++ map (fun i => Sampler.u32 (i + nV)) is_) 0%Z =
  Sampler.u32 (nth (Z.to_nat j) is_ 0%Z + nV).
Proof.
  intros Hj.
  replace (Z.to_nat (Z.of_nat (length I) + j))
    with (length I + Z.to_nat j)%nat by lia.
  rewrite app_nth2_plus.
  rewrite (nth_indep _ 0%Z (Sampler.u32 (0 + nV)))
    by (rewrite length_map; lia).
  apply (map_nth (fun i => Sampler.u32 (i + nV))).
Qed.

Lemma appended_vertex (V vs : list Vertex.t) (i : Z) :
  (0 <= i)%Z ->
  nth (Z.to_nat (i + Z.of_nat (length V))) (V ++ vs) zeroVertex =
  nth (Z.to_nat i) vs zeroVertex.
Proof.
  intros Hi.
  replace (Z.to_nat (i + Z.of_nat (length V)))
    with (length V + Z.to_nat i)%nat by lia.
  apply app_nth2_plus.
Qed.

(** X18. From the mesh file to the shader.  A mesh is added under a new
    name and an instance of it is added; the buffers hold fewer than
    [2^32] entries and the indices of the mesh point into its vertices.
    Then for every triangle [t] of the mesh the three vertices that
    [calculateHitData] fetches for the new instance are the vertices the
    mesh lists for that triangle, whatever was stored before. *)
Theorem mesh_reaches_shader (sc : HostScene.t) (f : String.string)
  (vs : list Vertex.t) (is_ : list Z) (inst : InstanceData)
  (tex : Z -> float * float -> float3) (hit : Intersection.t)
  (Hfresh : existsb (fun g => String.eqb g f) (HostScene.filenames sc) = false)
  (HV : (Z.of_nat (length (HostScene.allVertices sc) + length vs) <= 2 ^ 32)%Z)
  (HI : (Z.of_nat (length (HostScene.allIndices sc) + length is_) <= 2 ^ 32)%Z)
  (Hidx : Forall (fun i => (0 <= i < Z.of_nat (length vs))%Z) is_)
  (HID : Intersection.InstanceID hit =
         Z.of_nat (length (HostScene.instanceData sc)))
  (Ht : (0 <= Intersection.PrimitiveIndex hit /\
         3 * Intersection.PrimitiveIndex hit + 2 < Z.of_nat (length is_))%Z) :
  let sc' := HostScene.addInstance f inst (HostScene.addMeshData f vs is_ sc) in
  let corner k :=
    nth (Z.to_nat
           (nth (Z.to_nat (3 * Intersection.PrimitiveIndex hit + k)) is_ 0%Z))
        vs zeroVertex in
  hitVertices (buffers sc' tex) hit = (corner 0%Z, corner 1%Z, corner 2%Z).
Proof.
  intros sc' corner.
  set (t := Intersection.PrimitiveIndex hit) in *.
  set (nI := Z.of_nat (length (HostScene.allIndices sc))).
  set (nV := Z.of_nat (length (HostScene.allVertices sc))).
  assert (Hsc' : sc' =
    HostScene.mk
      (HostScene.allVertices sc ++ vs)
      (HostScene.allIndices sc ++ map (fun i => Sampler.u32 (i + nV)) is_)
      (HostScene.filenames sc ++ [f])
      (HostScene.instanceData sc
         ++ [mkInstanceData (Sampler.u32 nI) (bsdfAlbedoID inst)
               (bsdfData inst) (coatingData inst)])
      (HostScene.lights sc)
      (map_assign f nI (HostScene.indexOffset sc))
      (map_assign f (Z.of_nat (length is_)) (HostScene.indexSize sc))).
  { unfold sc', HostScene.addMeshData. rewrite Hfresh.
    unfold HostScene.addInstance, map_index.
    cbn [HostScene.indexOffset]. rewrite map_find_assign_same. reflexivity. }
  assert (HnI : (0 <= nI /\ nI + Z.of_nat (length is_) <= 2 ^ 32)%Z)
    by (unfold nI; lia).
  assert (HnV : (0 <= nV /\ nV + Z.of_nat (length vs) <= 2 ^ 32)%Z)
    by (unfold nV; lia).
  assert (Hfetch : forall k, (0 <= k <= 2)%Z ->
    nth (Z.to_nat
           (nth (Z.to_nat (nI + (3 * t + k)))
                (HostScene.allIndices sc
                   ++ map (fun i => Sampler.u32 (i + nV)) is_) 0%Z))
        (HostScene.allVertices sc ++ vs) zeroVertex = corner k).
  { intros k Hk. unfold nI. rewrite appended_index by lia.
    assert (Hin : (0 <= nth (Z.to_nat (3 * t + k)) is_ 0
                   < Z.of_nat (length vs))%Z).
    { rewrite Forall_forall in Hidx. apply Hidx. apply nth_In. lia. }
    rewrite u32_small by lia. unfold nV.
    rewrite appended_vertex by lia. reflexivity. }
  unfold hitVertices, buffers. rewrite Hsc'.
  cbn [Geometry.instanceData Geometry.indices Geometry.vertices
       HostScene.instanceData HostScene.allIndices HostScene.allVertices].
  rewrite HID, Nat2Z.id, nth_middle. cbn [startIndex]. fold t.
  rewrite (u32_small nI) by lia.
  rewrite (u32_small (t * 3)) by lia.
  rewrite (u32_small (nI + t * 3)) by lia.
  rewrite (u32_small (nI + t * 3 + 1)) by lia.
  rewrite (u32_small (nI + t * 3 + 2)) by lia.
  replace (nI + t * 3)%Z with (nI + (3 * t + 0))%Z by lia.
  replace (nI + (3 * t + 0) + 1)%Z with (nI + (3 * t + 1))%Z by lia.
  replace (nI + (3 * t + 0) + 2)%Z with (nI + (3 * t + 2))%Z by lia.
  rewrite !Hfetch by lia. reflexivity.
Qed.

Lemma mesh_reaches_shader_witness :
  let sc' :=
    HostScene.addInstance triangleName (mkInstanceData 0 0 [] [])
      (HostScene.addMeshData triangleName (fst triangleMesh)
         (snd triangleMesh) HostScene.empty) in
  let corner k :=
    nth (Z.to_nat
           (nth (Z.to_nat (3 * Intersection.PrimitiveIndex straightHit + k))
                (snd triangleMesh) 0%Z))
        (fst triangleMesh) zeroVertex in
  hitVertices (buffers sc' whiteTextures) straightHit =
    (corner 0%Z, corner 1%Z, corner 2%Z).
Proof.
  apply (mesh_reaches_shader HostScene.empty triangleName (fst triangleMesh)
           (snd triangleMesh) (mkInstanceData 0 0 [] []) whiteTextures
           straightHit).
  - reflexivity.
  - simpl. lia.
  - simpl. lia.
  - simpl. repeat constructor; lia.
  - reflexivity.
  - simpl. lia.
Defined.

(** X19. What [addMeshData] and [addInstance] leave alone.  A file name
    seen before changes nothing.  Otherwise every vertex and index stored
    before stays at its place, the instances are untouched and the offset
    recorded for every other name is unchanged.  An instance added under a
    name that has no recorded offset gets the start index 0, the triangles
    of the first mesh, and the name is then recorded with offset 0. *)
Theorem addMeshData_keeps_data (sc : HostScene.t) (g : String.string)
  (vs : list Vertex.t) (is_ : list Z) (inst : InstanceData) :
  let sc' := HostScene.addMeshData g vs is_ sc in
  (In g (HostScene.filenames sc) -> sc' = sc) /\
  (forall j, (j < length (HostScene.allIndices sc))%nat ->
     nth_error (HostScene.allIndices sc') j =
     nth_error (HostScene.allIndices sc) j) /\
  (forall j, (j < length (HostScene.allVertices sc))%nat ->
     nth_error (HostScene.allVertices sc') j =
     nth_error (HostScene.allVertices sc) j) /\
  HostScene.instanceData sc' = HostScene.instanceData sc /\
  (forall f, f <> g ->
     map_find (HostScene.indexOffset sc') f =
     map_find (HostScene.indexOffset sc) f) /\
  (map_find (HostScene.indexOffset sc) g = None ->
   let sc2 := HostScene.addInstance g inst sc in
   option_map startIndex
     (nth_error (HostScene.instanceData sc2)
                (length (HostScene.instanceData sc))) = Some 0%Z /\
   map_find (HostScene.indexOffset sc2) g = Some 0%Z).
Proof.
  intros sc'. unfold sc', HostScene.addMeshData.
  split; [| split; [| split; [| split; [| split]]]].
  - intros Hin.
    assert (E : existsb (fun f => String.eqb f g) (HostScene.filenames sc)
                = true).
    { apply existsb_exists. exists g. split; [exact Hin |].
      apply String.eqb_refl. }
    rewrite E. reflexivity.
  - intros j Hj. destruct (existsb _ _); [reflexivity |].
    cbn [HostScene.allIndices]. apply nth_error_app1. exact Hj.
  - intros j Hj. destruct (existsb _ _); [reflexivity |].
    cbn [HostScene.allVertices]. apply nth_error_app1. exact Hj.
  - destruct (existsb _ _); reflexivity.
  - intros f Hne. destruct (existsb _ _); [reflexivity |].
    cbn [HostScene.indexOffset]. apply map_find_assign_other.
    intros E. apply Hne. symmetry. exact E.
  - intros Hnone. unfold HostScene.addInstance, map_index.
    rewrite Hnone. cbn [HostScene.instanceData HostScene.indexOffset].
    split.
    + rewrite nth_error_app2 by lia. rewrite Nat.sub_diag. reflexivity.
    + apply map_find_assign_same.
Qed.

(** ** The kind and texture of an instance *)

Local Open Scope Z_scope.

(** The low half and a shifted kind share no bit: their union is a sum. *)
Lemma code_sum (id t : Z) :
  Z.lor (Z.land id 65535) (Z.shiftl t 16) = id mod 2 ^ 16 + t * 2 ^ 16.
Proof.
  pose proof (Z.add_lor_land (Z.land id 65535) (Z.shiftl t 16)) as H.
  assert (H0 : Z.land (Z.land id 65535) (Z.shiftl t 16) = 0).
  { apply Z.bits_inj'. intros n Hn.
    rewrite Z.bits_0, !Z.land_spec. change 65535 with (Z.ones 16).
    destruct (Z.lt_ge_cases n 16) as [Hlt | Hge].
    - rewrite Z.shiftl_spec_low by lia. apply andb_false_r.
    - rewrite Z.ones_spec_high by lia.
      rewrite andb_false_r. reflexivity. }
  rewrite H0, Z.add_0_r in H. rewrite H.
  change 65535 with (Z.ones 16).
  rewrite Z.land_ones, Z.shiftl_mul_pow2 by lia. reflexivity.
Qed.

Lemma code_range (id t : Z) :
  0 <= t < 2 ^ 16 ->
  0 <= Z.lor (Z.land id 65535) (Z.shiftl t 16) < 2 ^ 32.
Proof.
  intros Ht. rewrite code_sum.
  pose proof (Z.mod_pos_bound id (2 ^ 16) ltac:(lia)). lia.
Qed.

Lemma code_decode (id t : Z) :
  0 <= t ->
  Z.shiftr (Z.lor (Z.land id 65535) (Z.shiftl t 16)) 16 = t /\
  Z.land (Z.lor (Z.land id 65535) (Z.shiftl t 16)) 65535 = Z.land id 65535.
Proof.
  intros Ht. rewrite code_sum.
  pose proof (Z.mod_pos_bound id (2 ^ 16) ltac:(lia)) as Hm.
  split.
  - rewrite Z.shiftr_div_pow2 by lia.
    rewrite Z.div_add by lia. rewrite Z.div_small by lia. lia.
  - change 65535 with (Z.ones 16). rewrite !Z.land_ones by lia.
    rewrite Z.mod_add by lia. apply Z.mod_mod. lia.
Qed.

Lemma code_step (x a t : Z) :
  Z.lor (Z.lor x (Z.shiftl a 16)) (Z.shiftl t 16) =
  Z.lor x (Z.shiftl (Z.lor a t) 16).
Proof. rewrite <- Z.lor_assoc, Z.shiftl_lor. reflexivity. Qed.

(** X20. The two halves of [bsdfAlbedoID].  On fresh instance data,
    [updatetextureID] followed by [updateBSDFType] with a kind below
    [2^16] stores what the shader decodes: the kind in the upper half and
    the low 16 bits of the texture number in the lower half.  The updates
    do not replace, they accumulate: a second kind is OR-ed into the
    first. *)
Theorem bsdfAlbedoID_round_trip (ID t t' : Z)
  (Ht : 0 <= t < 2 ^ 16) (Ht' : 0 <= t' < 2 ^ 16) :
  let d := updateBSDFType t (updatetextureID ID defaultInstanceData) in
  let d' := updateBSDFType t' d in
  Z.shiftr (bsdfAlbedoID d) 16 = t /\
  Z.land (bsdfAlbedoID d) 65535 = Z.land ID 65535 /\
  Z.shiftr (bsdfAlbedoID d') 16 = Z.lor t t' /\
  Z.land (bsdfAlbedoID d') 65535 = Z.land ID 65535.
Proof.
  intros d d'. unfold d', d, updateBSDFType, updatetextureID.
  cbn [bsdfAlbedoID defaultInstanceData]. rewrite Z.lor_0_l.
  assert (Hx : 0 <= Z.land ID 65535 < 2 ^ 32).
  { change 65535 with (Z.ones 16). rewrite Z.land_ones by lia.
    pose proof (Z.mod_pos_bound ID (2 ^ 16) ltac:(lia)). lia. }
  assert (Hor : 0 <= Z.lor t t' < 2 ^ 16).
  { split; [apply Z.lor_nonneg; lia |].
    destruct (Z.eq_dec (Z.lor t t') 0) as [-> | Hne]; [lia |].
    assert (0 <= Z.lor t t') by (apply Z.lor_nonneg; lia).
    apply Z.log2_lt_pow2; [lia |].
    rewrite Z.log2_lor by lia.
    apply Z.max_lub_lt.
    - destruct (Z.eq_dec t 0) as [-> | Hn]; [cbn; lia |].
      apply Z.log2_lt_pow2; lia.
    - destruct (Z.eq_dec t' 0) as [-> | Hn]; [cbn; lia |].
      apply Z.log2_lt_pow2; lia. }
  rewrite (u32_small (Z.land ID 65535)) by exact Hx.
  rewrite (u32_small (Z.lor (Z.land ID 65535) (Z.shiftl t 16)))
    by (apply code_range; exact Ht).
  rewrite code_step.
  rewrite (u32_small (Z.lor (Z.land ID 65535) (Z.shiftl (Z.lor t t') 16)))
    by (apply code_range; exact Hor).
  destruct (code_decode ID t ltac:(lia)) as [H1 H2].
  destruct (code_decode ID (Z.lor t t') ltac:(lia)) as [H3 H4].
  repeat split; assumption.
Qed.

Lemma bsdfAlbedoID_round_trip_witness :
  let d := updateBSDFType 2 (updatetextureID 70000 defaultInstanceData) in
  let d' := updateBSDFType 1 d in
  Z.shiftr (bsdfAlbedoID d) 16 = 2 /\
  Z.land (bsdfAlbedoID d) 65535 = Z.land 70000 65535 /\
  Z.shiftr (bsdfAlbedoID d') 16 = Z.lor 2 1 /\
  Z.land (bsdfAlbedoID d') 65535 = Z.land 70000 65535.
Proof.
  apply (bsdfAlbedoID_round_trip 70000 2 1); lia.
Defined.

Local Open Scope R_scope.

Local Open Scope Z_scope.

Lemma lor_below (n a b : Z) :
  0 < n -> 0 <= a < 2 ^ n -> 0 <= b < 2 ^ n -> 0 <= Z.lor a b < 2 ^ n.
Proof.
  intros Hn Ha Hb. split; [apply Z.lor_nonneg; lia |].
  destruct (Z.eq_dec (Z.lor a b) 0) as [-> | Hne];
    [apply Z.pow_pos_nonneg; lia |].
  assert (0 <= Z.lor a b) by (apply Z.lor_nonneg; lia).
  assert (Hlog : forall x, 0 <= x < 2 ^ n -> Z.log2 x < n).
  { intros x Hx. destruct (Z.eq_dec x 0) as [-> | Hn0]; [cbn; lia |].
    apply Z.log2_lt_pow2; lia. }
  apply Z.log2_lt_pow2; [lia |].
  rewrite Z.log2_lor by lia.
  apply Z.max_lub_lt; apply Hlog; assumption.
Qed.

Lemma coded_init (id : Z) :
  coded id 0 (updatetextureID id defaultInstanceData).
Proof.
  unfold coded, updatetextureID. cbn [bsdfAlbedoID defaultInstanceData].
  rewrite Z.lor_0_l, Z.shiftl_0_l, Z.lor_0_r. split; [| lia].
  apply u32_small. change 65535 with (Z.ones 16).
  rewrite Z.land_ones by lia.
  pose proof (Z.mod_pos_bound id (2 ^ 16) ltac:(lia)). lia.
Qed.

Lemma coded_update (id a t : Z) (d : InstanceData) :
  coded id a d -> 0 <= t < 2 ^ 16 ->
  coded id (Z.lor a t) (updateBSDFType t d).
Proof.
  intros [E Ha] Ht. pose proof (lor_below 16 a t ltac:(lia) Ha Ht) as Hor.
  split; [| exact Hor].
  unfold updateBSDFType. cbn [bsdfAlbedoID]. rewrite E, code_step.
  apply u32_small, code_range. exact Hor.
Qed.

Lemma coded_set_bsdfData (id a : Z) (i : nat) (v : float) (d : InstanceData) :
  coded id a d -> coded id a (set_bsdfData i v d).
Proof. intros H. exact H. Qed.

Lemma coded_set_coatingData (id a : Z) (i : nat) (v : float)
  (d : InstanceData) :
  coded id a d -> coded id a (set_coatingData i v d).
Proof. intros H. exact H. Qed.

Lemma coded_eq (id a a' : Z) (d : InstanceData) :
  coded id a d -> a = a' -> coded id a' d.
Proof. intros H <-. exact H. Qed.

Lemma loadInstanceData_coded (m : Material.t) :
  coded (Material.reflectanceID m)
        (Z.lor (if negb (String.eqb (Material.emission m) String.EmptyString) then 1 else 0)
               (bsdfNumber (Material.bsdf m)))
        (loadInstanceData m).
Proof.
  destruct m as [id b e rgb al ii ei ro et kk cti sa ci ce ct].
  unfold loadInstanceData, bsdfNumber.
  cbn [Material.reflectanceID Material.bsdf Material.emission
       Material.coatingThicknessInt].
  cbv zeta.
  destruct (0 <? cti); name_cases; cbn [negb];
    (eapply coded_eq;
     [ repeat first [ apply coded_set_bsdfData
                    | apply coded_set_coatingData
                    | eapply coded_update; [| lia]
                    | apply coded_init ]
     | vm_compute; reflexivity ]).
Qed.

(** X21. The kind that [loadInstance] stores for a material.  The lower
    half of [bsdfAlbedoID] holds the low 16 bits of the texture number.
    The upper half, which the shader reads as the kind, is the number of
    the bsdf name (0 for diffuse and for a name the loader does not know),
    OR-ed with 1 when the material has an emission.  So an emissive
    material is a light (kind 1) for the shader exactly when its name has
    the number 0: emissive orennayar and emissive mirror are stored as a
    mirror (3), emissive glass as plastic (5), emissive dielectric as a
    conductor (7). *)
Theorem loadInstance_kind (m : Material.t) :
  let d := loadInstanceData m in
  let kind := Z.shiftr (bsdfAlbedoID d) 16 in
  let emissive := negb (String.eqb (Material.emission m) String.EmptyString) in
  let number := bsdfNumber (Material.bsdf m) in
  Z.land (bsdfAlbedoID d) 65535 = Z.land (Material.reflectanceID m) 65535 /\
  kind = Z.lor (if emissive then 1 else 0) number /\
  (emissive = false -> kind = number) /\
  (emissive = true ->
   (kind = 1 <-> number = 0) /\
   (number = 2 \/ number = 3 -> kind = 3) /\
   (number = 4 \/ number = 5 -> kind = 5) /\
   (number = 6 \/ number = 7 -> kind = 7)).
Proof.
  intros d kind emissive number.
  destruct (loadInstanceData_coded m) as [E Ha].
  fold emissive number d in E, Ha.
  destruct (code_decode (Material.reflectanceID m)
              (Z.lor (if emissive then 1 else 0) number) ltac:(lia))
    as [Hk Hl].
  rewrite <- E in Hk, Hl. fold kind in Hk.
  split; [exact Hl |]. split; [exact Hk |].
  assert (Hnum : number = 0 \/ number = 2 \/ number = 3 \/ number = 4 \/
                 number = 5 \/ number = 6 \/ number = 7).
  { unfold number, bsdfNumber.
    repeat match goal with
      | |- context [if ?c then _ else _] => destruct c
      end; auto 10. }
  rewrite Hk. split.
  - intros ->. apply Z.lor_0_l.
  - intros ->.
    destruct Hnum as [-> | [-> | [-> | [-> | [-> | [-> | ->]]]]]];
      cbn; repeat split; intros; try reflexivity; try lia.
Qed.

Local Open Scope R_scope.

(** X22. The emission that [loadInstance] stores.  The radiance of an
    emissive material is written to [bsdfData[0..2]] before the parameters
    of the named bsdf, which use the same places, and the area lights of
    the instance copy their [Le] from there afterwards.  The radiance
    survives for the names diffuse and mirror and for unknown names; for
    orennayar its first component is replaced by alpha, for glass the
    first two by the indices of refraction, for plastic and dielectric all
    three by the indices and the roughness, for conductor all three by
    eta. *)
Theorem loadInstance_emission (m : Material.t)
  (Hem : Material.emission m <> String.EmptyString) :
  let Le := firstn 3 (bsdfData (loadInstanceData m)) in
  let number := bsdfNumber (Material.bsdf m) in
  let rgb := Material.emissionRGB m in
  ((number = 0 \/ number = 3)%Z -> Le = [vx rgb; vy rgb; vz rgb]) /\
  (number = 2%Z -> Le = [Material.alpha m; vy rgb; vz rgb]) /\
  (number = 4%Z -> Le = [Material.intIOR m; Material.extIOR m; vz rgb]) /\
  ((number = 5 \/ number = 6)%Z ->
   Le = [Material.intIOR m; Material.extIOR m; Material.roughness m]) /\
  (number = 7%Z ->
   Le = [vx (Material.eta m); vy (Material.eta m); vz (Material.eta m)]).
Proof.
  destruct m as [id b e rgb al ii ei ro et kk cti sa ci ce ct].
  cbn [Material.emission] in Hem.
  unfold loadInstanceData, bsdfNumber.
  cbn [Material.reflectanceID Material.bsdf Material.emission
       Material.coatingThicknessInt Material.emissionRGB Material.alpha
       Material.intIOR Material.extIOR Material.roughness Material.eta].
  cbv zeta.
  destruct (String.eqb_spec e String.EmptyString) as [E | _]; [contradiction |].
  destruct (0 <? cti)%Z; name_cases; cbn [negb];
    repeat split; intros H; try reflexivity;
    try (exfalso; clear - H; lia).
Qed.

Lemma loadInstance_emission_witness :
  let Le := firstn 3 (bsdfData (loadInstanceData glowingMaterial)) in
  let number := bsdfNumber (Material.bsdf glowingMaterial) in
  let rgb := Material.emissionRGB glowingMaterial in
  ((number = 0 \/ number = 3)%Z -> Le = [vx rgb; vy rgb; vz rgb]) /\
  (number = 2%Z -> Le = [Material.alpha glowingMaterial; vy rgb; vz rgb]) /\
  (number = 4%Z ->
   Le = [Material.intIOR glowingMaterial; Material.extIOR glowingMaterial;
         vz rgb]) /\
  ((number = 5 \/ number = 6)%Z ->
   Le = [Material.intIOR glowingMaterial; Material.extIOR glowingMaterial;
         Material.roughness glowingMaterial]) /\
  (number = 7%Z ->
   Le = [vx (Material.eta glowingMaterial); vy (Material.eta glowingMaterial);
         vz (Material.eta glowingMaterial)]).
Proof.
  apply (loadInstance_emission glowingMaterial).
  simpl. discriminate.
Defined.

(** ** Constant buffers *)

Local Open Scope Z_scope.

(** X23. The size that [ConstantBuffer::init] allocates.  Up to
    [2^32 - 256] bytes it is the least multiple of 256 that holds the size
    asked for; above, the sum wraps around and the size allocated is 0. *)
Theorem alignedSize_least_multiple (s : Z) (Hs : 0 <= s < 2 ^ 32) :
  (s <= 2 ^ 32 - 256 ->
   alignedSize s mod 256 = 0 /\ s <= alignedSize s < s + 256 /\
   forall k, s <= 256 * k -> alignedSize s <= 256 * k) /\
  (2 ^ 32 - 256 < s -> alignedSize s = 0).
Proof.
  unfold alignedSize.
  change (Sampler.u32 (Z.lnot 255)) with (Z.ldiff (Z.ones 32) (Z.ones 8)).
  assert (Hl : forall x, 0 <= x < 2 ^ 32 ->
                 Z.land x (Z.ldiff (Z.ones 32) (Z.ones 8)) = 256 * (x / 256)).
  { intros x Hx.
    replace (256 * (x / 256)) with (Z.shiftl (Z.shiftr x 8) 8)
      by (rewrite Z.shiftr_div_pow2, Z.shiftl_mul_pow2 by lia;
          change (2 ^ 8) with 256; lia).
    apply Z.bits_inj'. intros n Hn.
    rewrite Z.land_spec, Z.ldiff_spec.
    destruct (Z.lt_ge_cases n 8) as [H8 | H8].
    - rewrite (Z.ones_spec_low 8) by lia.
      rewrite Z.shiftl_spec_low by lia.
      cbn [negb]. rewrite !andb_false_r. reflexivity.
    - rewrite (Z.ones_spec_high 8) by lia.
      rewrite Z.shiftl_spec, Z.shiftr_spec by lia.
      replace (n - 8 + 8) with n by lia. cbn [negb]. rewrite andb_true_r.
      destruct (Z.lt_ge_cases n 32) as [H32 | H32].
      + rewrite Z.ones_spec_low by lia. apply andb_true_r.
      + rewrite Z.ones_spec_high by lia. rewrite andb_false_r.
        symmetry. destruct (Z.eq_dec x 0) as [-> | Hx0];
          [apply Z.bits_0 |].
        apply Z.bits_above_log2; [lia |].
        apply Z.lt_le_trans with 32; [| exact H32].
        apply Z.log2_lt_pow2; lia. }
  rewrite Hl by apply u32_range.
  unfold Sampler.u32. split; intros Hle.
  - rewrite (Z.mod_small (s + 255)) by lia.
    pose proof (Z.div_mod (s + 255) 256 ltac:(lia)) as Hdm.
    pose proof (Z.mod_pos_bound (s + 255) 256 ltac:(lia)) as Hr.
    split; [| split].
    + rewrite Z.mul_comm. apply Z.mod_mul. lia.
    + lia.
    + intros k Hk. lia.
  - replace (s + 255) with (s + 255 - 2 ^ 32 + 1 * 2 ^ 32) by lia.
    rewrite Z.mod_add by lia.
    rewrite (Z.mod_small (s + 255 - 2 ^ 32)) by lia.
    rewrite Z.div_small by lia. reflexivity.
Qed.

Lemma alignedSize_least_multiple_witness :
  (100 <= 2 ^ 32 - 256 ->
   alignedSize 100 mod 256 = 0 /\ 100 <= alignedSize 100 < 100 + 256 /\
   forall k, 100 <= 256 * k -> alignedSize 100 <= 256 * k) /\
  (2 ^ 32 - 256 < 100 -> alignedSize 100 = 0).
Proof.
  apply (alignedSize_least_multiple 100). lia.
Defined.

Local Open Scope R_scope.

Local Open Scope Z_scope.

Lemma memcpy_some (dst : list Z) (off : Z) (src : list Z) (n : Z) :
  0 <= off -> 0 <= n -> off + n <= Z.of_nat (length dst) ->
  n <= Z.of_nat (length src) ->
  ConstantBuffer.memcpy dst off src n =
    Some (firstn (Z.to_nat off) dst ++ firstn (Z.to_nat n) src
          ++ skipn (Z.to_nat (off + n)) dst).
Proof.
  intros H1 H2 H3 H4. unfold ConstantBuffer.memcpy.
  replace ((0 <=? off) && (0 <=? n) && (off + n <=? Z.of_nat (length dst))
           && (n <=? Z.of_nat (length src))) with true; [reflexivity |].
  symmetry. rewrite !andb_true_iff. repeat split; apply Z.leb_le; lia.
Qed.

(** The bytes of an array after [n] bytes of [src] have been copied to
    place [off]. *)
Lemma splice_facts (dst src : list Z) (o k : nat) :
  (o + k <= length dst)%nat -> (k <= length src)%nat ->
  let r := firstn o dst ++ firstn k src ++ skipn (o + k) dst in
  length r = length dst /\
  (forall i, (o <= i < o + k)%nat -> nth i r 0 = nth (i - o) src 0) /\
  (forall i, (i < o \/ o + k <= i)%nat -> nth i r 0 = nth i dst 0).
Proof.
  intros Hd Hs r.
  assert (L1 : length (firstn o dst) = o) by (apply firstn_length_le; lia).
  assert (L2 : length (firstn k src) = k) by (apply firstn_length_le; lia).
  split; [| split].
  - unfold r. rewrite !length_app, L1, L2, length_skipn. lia.
  - intros i Hi. unfold r.
    rewrite app_nth2 by lia. rewrite L1.
    rewrite app_nth1 by lia. rewrite nth_firstn.
    destruct (Nat.ltb_spec (i - o) k); [reflexivity | lia].
  - intros i [Hi | Hi]; unfold r.
    + rewrite app_nth1 by lia. rewrite nth_firstn.
      destruct (Nat.ltb_spec i o); [reflexivity | lia].
    + rewrite app_nth2 by lia. rewrite L1.
      rewrite app_nth2 by lia. rewrite L2, nth_skipn.
      f_equal. lia.
Qed.

(** X24. A constant reaches the shader.  A variable of the buffer lies
    inside it and the data holds at least its size.  Then [update]
    followed by [upload] succeeds and reports an upload; the mapped
    resource then holds the data at the bytes of the variable and the
    former content of the buffer everywhere else; a second [upload] copies
    nothing and reports 0.  An update under a name the buffer does not
    know changes no byte. *)
Theorem update_reaches_resource (c : ConstantBuffer.t)
  (name : String.string) (data : list Z) (v : ConstantBuffer.Var)
  (Hvar : ConstantBuffer.lookup (ConstantBuffer.constantBufferData c) name
          = Some v)
  (Hin : 0 <= ConstantBuffer.offset v /\ 0 <= ConstantBuffer.size v /\
         ConstantBuffer.offset v + ConstantBuffer.size v
           <= Z.of_nat (length (ConstantBuffer.buffer c)))
  (Hdata : ConstantBuffer.size v <= Z.of_nat (length data))
  (Hcb : length (ConstantBuffer.cb c) = length (ConstantBuffer.buffer c) /\
         ConstantBuffer.cbSizeInBytes c
           = Z.of_nat (length (ConstantBuffer.buffer c))) :
  let o := ConstantBuffer.offset v in
  let n := ConstantBuffer.size v in
  (exists c1 c2,
     ConstantBuffer.update name data c = Some c1 /\
     ConstantBuffer.upload c1 = Some (1, c2) /\
     ConstantBuffer.upload c2 = Some (0, c2) /\
     length (ConstantBuffer.cb c2) = length (ConstantBuffer.buffer c) /\
     (forall i, o <= i < o + n ->
        nth (Z.to_nat i) (ConstantBuffer.cb c2) 0
        = nth (Z.to_nat (i - o)) data 0) /\
     (forall i, 0 <= i -> ~ (o <= i < o + n) ->
        nth (Z.to_nat i) (ConstantBuffer.cb c2) 0
        = nth (Z.to_nat i) (ConstantBuffer.buffer c) 0)) /\
  (forall other,
     ConstantBuffer.lookup (ConstantBuffer.constantBufferData c) other = None ->
     option_map ConstantBuffer.buffer (ConstantBuffer.update other data c)
     = Some (ConstantBuffer.buffer c)).
Proof.
  intros o n. destruct Hin as (Ho & Hn & Hon). destruct Hcb as (Hl & Hsz).
  fold o in Ho, Hon. fold n in Hn, Hon, Hdata.
  destruct (splice_facts (ConstantBuffer.buffer c) data
              (Z.to_nat o) (Z.to_nat n) ltac:(lia) ltac:(lia))
    as (Rl & Rin & Rout).
  replace (Z.to_nat o + Z.to_nat n)%nat with (Z.to_nat (o + n)) in * by lia.
  set (b1 := firstn (Z.to_nat o) (ConstantBuffer.buffer c)
             ++ firstn (Z.to_nat n) data
             ++ skipn (Z.to_nat (o + n)) (ConstantBuffer.buffer c)) in *.
  split.
  - exists (ConstantBuffer.mk (ConstantBuffer.constantBufferData c) b1
              (ConstantBuffer.cb c) (ConstantBuffer.cbSizeInBytes c) 1).
    exists (ConstantBuffer.mk (ConstantBuffer.constantBufferData c) b1
              b1 (ConstantBuffer.cbSizeInBytes c) 0).
    split; [| split; [| split; [| split; [| split]]]].
    + unfold ConstantBuffer.update. rewrite Hvar. fold o n.
      rewrite memcpy_some by lia. reflexivity.
    + unfold ConstantBuffer.upload.
      cbn [ConstantBuffer.dirty ConstantBuffer.cb ConstantBuffer.buffer
           ConstantBuffer.cbSizeInBytes ConstantBuffer.constantBufferData
           Z.eqb Pos.eqb].
      rewrite memcpy_some by lia.
      rewrite Hsz, Z.add_0_l, Nat2Z.id. cbn [Z.to_nat firstn app].
      rewrite <- Rl, firstn_all. rewrite Rl, <- Hl, skipn_all, app_nil_r.
      reflexivity.
    + reflexivity.
    + exact Rl.
    + intros i Hi. cbn [ConstantBuffer.cb].
      rewrite Rin by lia. f_equal. lia.
    + intros i Hi Hout. cbn [ConstantBuffer.cb]. apply Rout. lia.
  - intros other Hnone. unfold ConstantBuffer.update. rewrite Hnone.
    cbn [ConstantBuffer.offset ConstantBuffer.size].
    rewrite memcpy_some by lia. reflexivity.
Qed.

Lemma update_reaches_resource_witness :
  exists c1 c2,
    ConstantBuffer.update "SPP"%string [0; 0; 128; 63] smallBuffer = Some c1 /\
    ConstantBuffer.upload c1 = Some (1, c2) /\
    ConstantBuffer.upload c2 = Some (0, c2) /\
    ConstantBuffer.cb c2 = [0; 0; 0; 0; 0; 0; 128; 63].
Proof.
  destruct (update_reaches_resource smallBuffer "SPP"%string [0; 0; 128; 63]
              (ConstantBuffer.mkVar 4 4))
    as [(c1 & c2 & H1 & H2 & H3 & _) _].
  - reflexivity.
  - simpl. lia.
  - simpl. lia.
  - split; reflexivity.
  - exists c1, c2. repeat split; try assumption.
    vm_compute in H1. injection H1 as <-.
    vm_compute in H2. injection H2 as <-. reflexivity.
Defined.

Local Open Scope R_scope.

(** * Math.h *)

Lemma Matrix_eq (a b : Matrix.t) :
  Matrix.m0 a = Matrix.m0 b -> Matrix.m1 a = Matrix.m1 b ->
  Matrix.m2 a = Matrix.m2 b -> Matrix.m3 a = Matrix.m3 b ->
  Matrix.m4 a = Matrix.m4 b -> Matrix.m5 a = Matrix.m5 b ->
  Matrix.m6 a = Matrix.m6 b -> Matrix.m7 a = Matrix.m7 b ->
  Matrix.m8 a = Matrix.m8 b -> Matrix.m9 a = Matrix.m9 b ->
  Matrix.m10 a = Matrix.m10 b -> Matrix.m11 a = Matrix.m11 b ->
  Matrix.m12 a = Matrix.m12 b -> Matrix.m13 a = Matrix.m13 b ->
  Matrix.m14 a = Matrix.m14 b -> Matrix.m15 a = Matrix.m15 b ->
  a = b.
Proof.
  destruct a, b. cbn. intros. subst. reflexivity.
Qed.

Lemma invert_some (m : Matrix.t) :
  Matrix.det m <> 0 ->
  exists inv, Matrix.invert m = Some inv /\
    Matrix.mul m inv = Matrix.identity /\
    Matrix.mul inv m = Matrix.identity.
Proof.
  intros Hd. unfold Matrix.invert.
  destruct (Req_EM_T (Matrix.det m) 0) as [E | _]; [contradiction |].
  eexists. split; [reflexivity |].
  destruct m as [a0 a1 a2 a3 a4 a5 a6 a7 a8 a9 a10 a11 a12 a13 a14 a15].
  unfold Matrix.det, Matrix.cofactors in *.
  cbn [Matrix.m0 Matrix.m1 Matrix.m2 Matrix.m3 Matrix.m4 Matrix.m5
       Matrix.m6 Matrix.m7 Matrix.m8 Matrix.m9 Matrix.m10 Matrix.m11
       Matrix.m12 Matrix.m13 Matrix.m14 Matrix.m15] in *.
  split; apply Matrix_eq;
    cbn [Matrix.mul Matrix.identity
         Matrix.m0 Matrix.m1 Matrix.m2 Matrix.m3 Matrix.m4 Matrix.m5
         Matrix.m6 Matrix.m7 Matrix.m8 Matrix.m9 Matrix.m10 Matrix.m11
         Matrix.m12 Matrix.m13 Matrix.m14 Matrix.m15];
    unfold float in *; field; exact Hd.
Qed.


Lemma mulVec_mul (a b : Matrix.t) (v : float3) :
  Matrix.m12 a = 0 -> Matrix.m13 a = 0 -> Matrix.m14 a = 0 ->
  Matrix.mulVec (Matrix.mul a b) v = Matrix.mulVec b (Matrix.mulVec a v).
Proof.
  intros H12 H13 H14.
  destruct a as [a0 a1 a2 a3 a4 a5 a6 a7 a8 a9 a10 a11 a12 a13 a14 a15].
  cbn in H12, H13, H14. subst a12 a13 a14.
  unfold Matrix.mulVec, Matrix.mul.
  cbn [Matrix.m0 Matrix.m1 Matrix.m2 Matrix.m3 Matrix.m4 Matrix.m5
       Matrix.m6 Matrix.m7 Matrix.m8 Matrix.m9 Matrix.m10 Matrix.m11
       Matrix.m12 Matrix.m13 Matrix.m14 Matrix.m15 vx vy vz].
  f_equal; unfold float; ring.
Qed.

Lemma mulPoint_mul (a b : Matrix.t) (v : float3) :
  Matrix.m12 a = 0 -> Matrix.m13 a = 0 -> Matrix.m14 a = 0 ->
  Matrix.m15 a = 1 ->
  Matrix.m12 b = 0 -> Matrix.m13 b = 0 -> Matrix.m14 b = 0 ->
  Matrix.m15 b = 1 ->
  Matrix.mulPoint (Matrix.mul a b) v = Matrix.mulPoint b (Matrix.mulPoint a v).
Proof.
  intros A12 A13 A14 A15 B12 B13 B14 B15.
  destruct a as [a0 a1 a2 a3 a4 a5 a6 a7 a8 a9 a10 a11 a12 a13 a14 a15].
  destruct b as [b0 b1 b2 b3 b4 b5 b6 b7 b8 b9 b10 b11 b12 b13 b14 b15].
  cbn in A12, A13, A14, A15, B12, B13, B14, B15. subst.
  unfold Matrix.mulPoint, Matrix.mul, Vec.scale.
  cbn [Matrix.m0 Matrix.m1 Matrix.m2 Matrix.m3 Matrix.m4 Matrix.m5
       Matrix.m6 Matrix.m7 Matrix.m8 Matrix.m9 Matrix.m10 Matrix.m11
       Matrix.m12 Matrix.m13 Matrix.m14 Matrix.m15 vx vy vz].
  f_equal; unfold float; field.
Qed.

(** X26. The order of [Matrix::mul].  For matrices whose last row is
    (0, 0, 0, 1), the product [a.mul(b)] applies [a] first and [b] second,
    both to directions ([mulVec]) and to points ([mulPoint]). *)
Theorem mul_applies_left_first (a b : Matrix.t) (v : float3)
  (Ha : Matrix.m12 a = 0 /\ Matrix.m13 a = 0 /\ Matrix.m14 a = 0 /\
        Matrix.m15 a = 1)
  (Hb : Matrix.m12 b = 0 /\ Matrix.m13 b = 0 /\ Matrix.m14 b = 0 /\
        Matrix.m15 b = 1) :
  Matrix.mulVec (Matrix.mul a b) v = Matrix.mulVec b (Matrix.mulVec a v) /\
  Matrix.mulPoint (Matrix.mul a b) v
    = Matrix.mulPoint b (Matrix.mulPoint a v).
Proof.
  destruct Ha as (A12 & A13 & A14 & A15), Hb as (B12 & B13 & B14 & B15).
  split; [apply mulVec_mul | apply mulPoint_mul]; assumption.
Qed.

Lemma mul_applies_left_first_witness :
  let a := Matrix.translation (mkFloat3 1 0 0) in
  let b := Matrix.scaling (mkFloat3 2 2 2) in
  let v := mkFloat3 0 0 0 in
  Matrix.mulVec (Matrix.mul a b) v = Matrix.mulVec b (Matrix.mulVec a v) /\
  Matrix.mulPoint (Matrix.mul a b) v
    = Matrix.mulPoint b (Matrix.mulPoint a v).
Proof.
  apply (mul_applies_left_first (Matrix.translation (mkFloat3 1 0 0))
           (Matrix.scaling (mkFloat3 2 2 2)) (mkFloat3 0 0 0));
    repeat split; reflexivity.
Defined.

(** ** The view matrix *)

Lemma Vec3_normalize_eq (v : float3) :
  Vec.dot v v <> 0 -> Vec3.normalize v = Vec.normalize v.
Proof.
  intros Hne.
  assert (Hpos : 0 < Vec.dot v v).
  { destruct v as [x y z]. unfold Vec.dot in *. cbn [vx vy vz] in *. nra. }
  unfold Vec3.normalize, Vec.normalize, Vec.divs, Vec.length.
  change (vx v * vx v + vy v * vy v + vz v * vz v) with (Vec.dot v v).
  assert (Hl : 0 < sqrt (Vec.dot v v)) by (apply sqrt_lt_R0; exact Hpos).
  f_equal; unfold float; field; lra.
Qed.

Lemma det_frame (l d : float3) (a b c : R) :
  let n := Vec.cross d l in
  Matrix.det (Matrix.mk (vx l) (vy l) (vz l) a
                        (vx n) (vy n) (vz n) b
                        (vx d) (vy d) (vz d) c
                        0 0 0 1)
  = Vec.dot l l * Vec.dot d d - Vec.dot d l * Vec.dot d l.
Proof.
  destruct l as [l1 l2 l3], d as [d1 d2 d3].
  unfold Matrix.det, Matrix.cofactors, Vec.cross, Vec.dot.
  cbn [Matrix.m0 Matrix.m1 Matrix.m2 Matrix.m3 Matrix.m4 Matrix.m5
       Matrix.m6 Matrix.m7 Matrix.m8 Matrix.m9 Matrix.m10 Matrix.m11
       Matrix.m12 Matrix.m13 Matrix.m14 Matrix.m15 vx vy vz].
  unfold float. ring.
Qed.

(** The inverse of a view matrix holds the eye in its last column. *)
Lemma invert_view (l n d f : float3) :
  let V := Matrix.mk (vx l) (vy l) (vz l) (- Vec.dot f l)
                     (vx n) (vy n) (vz n) (- Vec.dot f n)
                     (vx d) (vy d) (vz d) (- Vec.dot f d)
                     0 0 0 1 in
  Matrix.det V <> 0 ->
  exists inv, Matrix.invert V = Some inv /\
    Matrix.mul V inv = Matrix.identity /\
    mkFloat3 (Matrix.m3 inv) (Matrix.m7 inv) (Matrix.m11 inv) = f /\
    Matrix.m12 inv = 0 /\ Matrix.m13 inv = 0 /\ Matrix.m14 inv = 0 /\
    Matrix.m15 inv = 1.
Proof.
  intros V Hd.
  destruct (invert_some V Hd) as (inv & Hinv & Hmul & _).
  exists inv. split; [exact Hinv |]. split; [exact Hmul |].
  unfold Matrix.invert in Hinv.
  destruct (Req_EM_T (Matrix.det V) 0) as [E | _]; [contradiction |].
  injection Hinv as <-.
  destruct l as [l1 l2 l3], n as [n1 n2 n3], d as [d1 d2 d3], f as [f1 f2 f3].
  unfold V, Matrix.det, Matrix.cofactors, Vec.dot in *.
  cbn [Matrix.m0 Matrix.m1 Matrix.m2 Matrix.m3 Matrix.m4 Matrix.m5
       Matrix.m6 Matrix.m7 Matrix.m8 Matrix.m9 Matrix.m10 Matrix.m11
       Matrix.m12 Matrix.m13 Matrix.m14 Matrix.m15 vx vy vz] in *.
  assert (Hside : forall x : R, x = Matrix.det V -> x <> 0)
    by (intros x ->; exact Hd).
  unfold V, Matrix.det, Matrix.cofactors, Vec.dot in Hside.
  cbn [Matrix.m0 Matrix.m1 Matrix.m2 Matrix.m3 Matrix.m4 Matrix.m5
       Matrix.m6 Matrix.m7 Matrix.m8 Matrix.m9 Matrix.m10 Matrix.m11
       Matrix.m12 Matrix.m13 Matrix.m14 Matrix.m15 vx vy vz] in Hside.
  split; [f_equal; unfold float in *; field; apply Hside; ring |].
  repeat split; unfold float in *; field; apply Hside; ring.
Qed.

Lemma dot_scale_l (a b : float3) (k : R) :
  Vec.dot (Vec.scale a k) b = k * Vec.dot a b.
Proof. unfold Vec.dot, Vec.scale. cbn [vx vy vz]. unfold float. ring. Qed.

Lemma Vec3_normalize_scale (v : float3) :
  Vec3.normalize v = Vec.scale v (1 / sqrt (Vec.dot v v)).
Proof. reflexivity. Qed.

Lemma cross_scale_r (a b : float3) (k : R) :
  Vec.cross a (Vec.scale b k) = Vec.scale (Vec.cross a b) k.
Proof.
  unfold Vec.cross, Vec.scale. cbn [vx vy vz]. f_equal; unfold float; ring.
Qed.

Lemma dot_pos (v : float3) : Vec.dot v v <> 0 -> 0 < Vec.dot v v.
Proof.
  intros H. destruct v as [x y z]. unfold Vec.dot in *. cbn [vx vy vz] in *.
  nra.
Qed.

(** The frame that [lookAt] builds. *)
Lemma lookAt_frame (from to up : float3) :
  let w := Vec.sub from to in
  let dir := Vec3.normalize w in
  let left := Vec3.normalize (Vec.cross up dir) in
  let newUp := Vec.cross dir left in
  Vec.dot (Vec.cross up w) (Vec.cross up w) <> 0 ->
  0 < Vec.length w /\ w = Vec.scale dir (Vec.length w) /\
  Vec.dot dir dir = 1 /\ Vec.dot left left = 1 /\ Vec.dot left dir = 0 /\
  Vec.dot newUp dir = 0 /\ Vec.dot newUp left = 0.
Proof.
  intros w dir left newUp Hc.
  assert (Hw : Vec.dot w w <> 0).
  { intros H0. apply Hc. destruct (cross_facts up w) as (_ & _ & ->).
    assert (Hz : vx w = 0 /\ vy w = 0 /\ vz w = 0).
    { destruct w as [x y z]. unfold Vec.dot in H0. cbn [vx vy vz] in *.
      repeat split; nra. }
    destruct Hz as (Hx & Hy & Hz). rewrite H0. unfold Vec.dot.
    rewrite Hx, Hy, Hz. unfold float. ring. }
  pose proof (dot_pos w Hw) as Hwp.
  assert (Hs : 0 < Vec.length w) by (apply sqrt_lt_R0; exact Hwp).
  assert (Hdd : Vec.dot dir dir = 1).
  { unfold dir. rewrite Vec3_normalize_eq by exact Hw.
    apply normalize_unit. exact Hw. }
  assert (Hcd : Vec.dot (Vec.cross up dir) (Vec.cross up dir) <> 0).
  { unfold dir. rewrite Vec3_normalize_scale, cross_scale_r.
    rewrite dot_scale_l, (dot_comm _ (Vec.scale _ _)), dot_scale_l.
    fold (Vec.length w).
    apply Rmult_integral_contrapositive_currified;
      [| apply Rmult_integral_contrapositive_currified];
      try exact Hc; unfold Rdiv; rewrite Rmult_1_l;
      apply Rinv_neq_0_compat; lra. }
  assert (Hll : Vec.dot left left = 1).
  { unfold left. rewrite Vec3_normalize_eq by exact Hcd.
    apply normalize_unit. exact Hcd. }
  assert (Hld : Vec.dot left dir = 0).
  { unfold left. rewrite Vec3_normalize_scale, dot_scale_l.
    destruct (cross_facts up dir) as (_ & -> & _). unfold float. ring. }
  split; [exact Hs |]. split.
  { unfold dir. rewrite Vec3_normalize_scale. fold (Vec.length w).
    unfold Vec.length in *.
    destruct w as [x y z]. unfold Vec.scale. cbn [vx vy vz].
    f_equal; unfold float in *; field; lra. }
  split; [exact Hdd |]. split; [exact Hll |]. split; [exact Hld |].
  destruct (cross_facts dir left) as (H1 & H2 & _).
  split; [exact H1 | exact H2].
Qed.

Lemma mulVec_identity (v : float3) : Matrix.mulVec Matrix.identity v = v.
Proof.
  destruct v as [x y z]. unfold Matrix.mulVec, Matrix.identity.
  cbn [Matrix.m0 Matrix.m1 Matrix.m2 Matrix.m4 Matrix.m5 Matrix.m6
       Matrix.m8 Matrix.m9 Matrix.m10 vx vy vz].
  f_equal; unfold float in *; ring.
Qed.

(** What is known of the view matrix and of its inverse. *)
Lemma lookAt_facts (from to up : float3) :
  Vec.dot (Vec.cross up (Vec.sub from to)) (Vec.cross up (Vec.sub from to))
    <> 0 ->
  let V := Matrix.lookAt from to up in
  Matrix.det V = 1 /\
  Matrix.mulPoint V from = mkFloat3 0 0 0 /\
  Matrix.mulPoint V to = mkFloat3 0 0 (- Vec.length (Vec.sub from to)) /\
  exists inv, Matrix.invert V = Some inv /\
    mkFloat3 (Matrix.m3 inv) (Matrix.m7 inv) (Matrix.m11 inv) = from /\
    Matrix.m12 inv = 0 /\ Matrix.m13 inv = 0 /\ Matrix.m14 inv = 0 /\
    Matrix.m15 inv = 1 /\
    Matrix.mulVec inv (mkFloat3 0 0 (-1))
      = Vec.neg (Vec3.normalize (Vec.sub from to)).
Proof.
  intros Hc V.
  destruct (lookAt_frame from to up Hc)
    as (Hs & Hw & Hdd & Hll & Hld & Hnd & Hnl).
  unfold V, Matrix.lookAt.
  set (w := Vec.sub from to) in *.
  set (dir := Vec3.normalize w) in *.
  set (left := Vec3.normalize (Vec.cross up dir)) in *.
  set (newUp := Vec.cross dir left) in *.
  set (s := Vec.length w) in *.
  assert (Hdet : Matrix.det
            (Matrix.mk (vx left) (vy left) (vz left) (- Vec.dot from left)
               (vx newUp) (vy newUp) (vz newUp) (- Vec.dot from newUp)
               (vx dir) (vy dir) (vz dir) (- Vec.dot from dir) 0 0 0 1) = 1).
  { unfold newUp. rewrite (det_frame left dir).
    rewrite Hll, Hdd, (dot_comm dir left), Hld. unfold float. ring. }
  assert (Hto : Vec.dot to left = Vec.dot from left /\
                Vec.dot to newUp = Vec.dot from newUp /\
                Vec.dot to dir = Vec.dot from dir - s).
  { assert (E : forall a, Vec.dot from a - Vec.dot to a = s * Vec.dot dir a).
    { intros a. rewrite <- dot_scale_l, <- Hw. unfold w, Vec.dot, Vec.sub.
      cbn [vx vy vz]. unfold float. ring. }
    pose proof (E left) as E1. pose proof (E newUp) as E2.
    pose proof (E dir) as E3.
    rewrite (dot_comm dir left), Hld in E1.
    rewrite (dot_comm dir newUp), Hnd in E2. rewrite Hdd in E3.
    unfold float in *. repeat split; lra. }
  destruct Hto as (T1 & T2 & T3).
  split; [exact Hdet |]. split; [| split].
  - unfold Matrix.mulPoint, Vec.scale.
    cbn [Matrix.m0 Matrix.m1 Matrix.m2 Matrix.m3 Matrix.m4 Matrix.m5
         Matrix.m6 Matrix.m7 Matrix.m8 Matrix.m9 Matrix.m10 Matrix.m11
         Matrix.m12 Matrix.m13 Matrix.m14 Matrix.m15 vx vy vz].
    unfold Vec.dot. f_equal; unfold float in *; field.
  - unfold Matrix.mulPoint, Vec.scale.
    cbn [Matrix.m0 Matrix.m1 Matrix.m2 Matrix.m3 Matrix.m4 Matrix.m5
         Matrix.m6 Matrix.m7 Matrix.m8 Matrix.m9 Matrix.m10 Matrix.m11
         Matrix.m12 Matrix.m13 Matrix.m14 Matrix.m15 vx vy vz].
    unfold Vec.dot in T1, T2, T3 |- *.
    f_equal; unfold float in *.
    + replace (vx to * vx left + vy to * vy left + vz to * vz left)
        with (vx left * vx to + vy left * vy to + vz left * vz to)
        in T1 |- * by ring.
      rewrite T1. field.
    + replace (vx to * vx newUp + vy to * vy newUp + vz to * vz newUp)
        with (vx newUp * vx to + vy newUp * vy to + vz newUp * vz to)
        in T2 |- * by ring.
      rewrite T2. field.
    + replace (vx to * vx dir + vy to * vy dir + vz to * vz dir)
        with (vx dir * vx to + vy dir * vy to + vz dir * vz to)
        in T3 |- * by ring.
      rewrite T3. field.
  - destruct (invert_view left newUp dir from) as
      (inv & Hinv & Hmul & Hpos & H12 & H13 & H14 & H15).
    { cbv zeta. rewrite Hdet. lra. }
    exists inv. split; [exact Hinv |]. split; [exact Hpos |].
    split; [exact H12 |]. split; [exact H13 |]. split; [exact H14 |].
    split; [exact H15 |].
    cbv zeta in Hmul.
    set (V0 := Matrix.mk _ _ _ _ _ _ _ _ _ _ _ _ _ _ _ _) in *.
    assert (Hv : Matrix.mulVec V0 (Vec.neg dir) = mkFloat3 0 0 (-1)).
    { unfold Matrix.mulVec, V0, Vec.neg.
      cbn [Matrix.m0 Matrix.m1 Matrix.m2 Matrix.m4 Matrix.m5 Matrix.m6
           Matrix.m8 Matrix.m9 Matrix.m10 vx vy vz].
      unfold Vec.dot in Hld, Hnd, Hdd.
      f_equal; unfold float in *; nra. }
    rewrite <- Hv, <- mulVec_mul by reflexivity.
    rewrite Hmul. apply mulVec_identity.
Qed.

(** X27. [Matrix::lookAt], for an eye that is not the target and an up
    vector that is not along the line of sight: the view matrix has
    determinant 1, takes the eye to the origin and the target to the point
    at its distance on the negative z axis. *)
Theorem lookAt_places_eye (from to up : float3)
  (Hc : Vec.dot (Vec.cross up (Vec.sub from to))
                (Vec.cross up (Vec.sub from to)) <> 0) :
  let V := Matrix.lookAt from to up in
  Matrix.det V = 1 /\
  Matrix.mulPoint V from = mkFloat3 0 0 0 /\
  Matrix.mulPoint V to = mkFloat3 0 0 (- Vec.length (Vec.sub from to)).
Proof.
  intros V. destruct (lookAt_facts from to up Hc) as (H1 & H2 & H3 & _).
  repeat split; assumption.
Qed.

Lemma lookAt_places_eye_witness :
  let from := mkFloat3 0 0 5 in
  let to := mkFloat3 0 0 0 in
  let V := Matrix.lookAt from to (mkFloat3 0 1 0) in
  Matrix.det V = 1 /\
  Matrix.mulPoint V from = mkFloat3 0 0 0 /\
  Matrix.mulPoint V to = mkFloat3 0 0 (- Vec.length (Vec.sub from to)).
Proof.
  apply (lookAt_places_eye (mkFloat3 0 0 5) (mkFloat3 0 0 0) (mkFloat3 0 1 0)).
  unfold Vec.dot, Vec.cross, Vec.sub. simpl. lra.
Defined.






(** ** Moving the camera *)




(** ** Turning the camera *)

Lemma rotation_algebra (ux uy uz c s c' s' x y z a b d : R) :
  ux * ux + uy * uy + uz * uz = 1 -> c * c + s * s = 1 ->
  c' = c -> s' = - s ->
  let M := Matrix.mk
    ((1 - c) * ux * ux + c) ((1 - c) * ux * uy + s * uz)
    ((1 - c) * ux * uz - s * uy) 0
    ((1 - c) * ux * uy - s * uz) ((1 - c) * uy * uy + c)
    ((1 - c) * uy * uz + s * ux) 0
    ((1 - c) * ux * uz + s * uy) ((1 - c) * uy * uz - s * ux)
    ((1 - c) * uz * uz + c) 0
    0 0 0 1 in
  let M' := Matrix.mk
    ((1 - c') * ux * ux + c') ((1 - c') * ux * uy + s' * uz)
    ((1 - c') * ux * uz - s' * uy) 0
    ((1 - c') * ux * uy - s' * uz) ((1 - c') * uy * uy + c')
    ((1 - c') * uy * uz + s' * ux) 0
    ((1 - c') * ux * uz + s' * uy) ((1 - c') * uy * uz - s' * ux)
    ((1 - c') * uz * uz + c') 0
    0 0 0 1 in
  Matrix.mulVec M (mkFloat3 ux uy uz) = mkFloat3 ux uy uz /\
  Vec.dot (Matrix.mulVec M (mkFloat3 x y z)) (Matrix.mulVec M (mkFloat3 a b d))
    = x * a + y * b + z * d /\
  Matrix.mulVec M' (Matrix.mulVec M (mkFloat3 x y z)) = mkFloat3 x y z.
Proof.
  intros Hu Hc -> -> M M'.
  unfold M, M', Matrix.mulVec, Vec.dot.
  cbn [Matrix.m0 Matrix.m1 Matrix.m2 Matrix.m4 Matrix.m5 Matrix.m6
       Matrix.m8 Matrix.m9 Matrix.m10 vx vy vz].
  split; [| split].
  - f_equal; unfold float; nsatz.
  - unfold float; nsatz.
  - f_equal; unfold float; nsatz.
Qed.

(** X30. [Matrix::rotateAxis] about an axis that is not zero is a
    rotation about that axis: it leaves the axis where it is, keeps the
    dot product of any two vectors, and the rotation by the opposite angle
    undoes it. *)
Theorem rotateAxis_is_rotation (axis : float3) (angle : R)
  (Ha : Vec.dot axis axis <> 0) :
  let M := Matrix.rotateAxis axis angle in
  Matrix.mulVec M axis = axis /\
  (forall a b,
     Vec.dot (Matrix.mulVec M a) (Matrix.mulVec M b) = Vec.dot a b) /\
  (forall a,
     Matrix.mulVec (Matrix.rotateAxis axis (- angle)) (Matrix.mulVec M a) = a).
Proof.
  intros M. unfold M, Matrix.rotateAxis.
  rewrite cos_neg, sin_neg.
  assert (Hu : Vec.dot (Vec3.normalize axis) (Vec3.normalize axis) = 1).
  { rewrite Vec3_normalize_eq by exact Ha. apply normalize_unit. exact Ha. }
  assert (Hax : axis = Vec.scale (Vec3.normalize axis) (Vec.length axis)).
  { pose proof (dot_pos axis Ha) as Hp.
    assert (0 < sqrt (Vec.dot axis axis)) by (apply sqrt_lt_R0; exact Hp).
    rewrite Vec3_normalize_scale. unfold Vec.length.
    destruct axis as [x y z]. unfold Vec.scale. cbn [vx vy vz].
    f_equal; unfold float in *; field; lra. }
  set (L := Vec.length axis) in *.
  destruct (Vec3.normalize axis) as [ux uy uz] eqn:Eu.
  unfold Vec.dot in Hu. cbn [vx vy vz] in *.
  assert (Hc : cos angle * cos angle + sin angle * sin angle = 1).
  { pose proof (sin2_cos2 angle) as H. unfold Rsqr in H. lra. }
  split; [| split].
  - destruct (rotation_algebra ux uy uz (cos angle) (sin angle)
                (cos angle) (- sin angle) 0 0 0 0 0 0 Hu Hc
                eq_refl eq_refl) as (Hfix & _ & _).
    cbv zeta in Hfix. rewrite Hax at 1.
    replace (Matrix.mulVec _ (Vec.scale (mkFloat3 ux uy uz) L))
      with (Vec.scale (Matrix.mulVec
              (Matrix.mk
                 ((1 - cos angle) * ux * ux + cos angle)
                 ((1 - cos angle) * ux * uy + sin angle * uz)
                 ((1 - cos angle) * ux * uz - sin angle * uy) 0
                 ((1 - cos angle) * ux * uy - sin angle * uz)
                 ((1 - cos angle) * uy * uy + cos angle)
                 ((1 - cos angle) * uy * uz + sin angle * ux) 0
                 ((1 - cos angle) * ux * uz + sin angle * uy)
                 ((1 - cos angle) * uy * uz - sin angle * ux)
                 ((1 - cos angle) * uz * uz + cos angle) 0 0 0 0 1)
              (mkFloat3 ux uy uz)) L).
    + rewrite Hfix. symmetry. exact Hax.
    + unfold Matrix.mulVec, Vec.scale.
      cbn [Matrix.m0 Matrix.m1 Matrix.m2 Matrix.m4 Matrix.m5 Matrix.m6
           Matrix.m8 Matrix.m9 Matrix.m10 vx vy vz].
      f_equal; unfold float in *; ring.
  - intros [x y z] [a b d].
    destruct (rotation_algebra ux uy uz (cos angle) (sin angle)
                (cos angle) (- sin angle) x y z a b d Hu Hc
                eq_refl eq_refl) as (_ & Hdot & _).
    exact Hdot.
  - intros [x y z].
    destruct (rotation_algebra ux uy uz (cos angle) (sin angle)
                (cos angle) (- sin angle) x y z 0 0 0 Hu Hc
                eq_refl eq_refl) as (_ & _ & Hinv).
    exact Hinv.
Qed.

Lemma rotateAxis_is_rotation_witness :
  let axis := mkFloat3 0 2 0 in
  let M := Matrix.rotateAxis axis 1 in
  Matrix.mulVec M axis = axis /\
  (forall a b,
     Vec.dot (Matrix.mulVec M a) (Matrix.mulVec M b) = Vec.dot a b) /\
  (forall a,
     Matrix.mulVec (Matrix.rotateAxis axis (- 1)) (Matrix.mulVec M a) = a).
Proof.
  apply (rotateAxis_is_rotation (mkFloat3 0 2 0) 1).
  unfold Vec.dot. simpl. lra.
Defined.
